(** * Join: client-side logic of the task and contact manager

    A shallow embedding of the scripts' data shaping and form logic:
    login scan, contact validation, contact loading and grouping, task
    counters, subtask progress, assignee snapshots and header initials.
    Further: the contact selection and the subtasks of the task form,
    adding and deleting subtasks on the board, editing a contact,
    signing up, the start of a session, the priority buttons and the
    initials of the assigned contacts.

    Conventions of the embedding.
    - A JavaScript string is the list of its UTF-16 code units.
    - Records follow the data model of the scripts; a field the scripts
      test for absence is an [option] ([None] is [undefined]).
    - An object used as a dictionary whose enumeration order is observable
      ([Object.entries], [Object.values] followed by [find] or [sort]) is an
      association list in enumeration order; an object only looked up by
      key or counted is a [gmap].
    - Host services that are not part of the scripts ([toUpperCase],
      [localeCompare], [Math.random], [fetch] results) are parameters.
    - Elements looked up by a fixed id or selector belong to the static
      page markup and are taken to exist. *)

From Stdlib Require Import ZArith NArith Ascii String List Lia.
From stdpp Require Import base option list sorting gmap pretty.

Local Set Warnings "-register-all".
Local Open Scope N_scope.

(* ===================================================================== *)
(** * Part I. The JavaScript values the scripts work on                  *)
(* ===================================================================== *)

(** ** Strings *)

Abbreviation codeunit := N (only parsing).
Abbreviation jsstring := (list N) (only parsing).

(** A source literal, as code units. *)
Definition str (s : string) : jsstring :=
  N_of_ascii <$> list_ascii_of_string s.

(** [WhiteSpace] and [LineTerminator] code units: what [\s] matches and
    what [String.prototype.trim] strips. *)
Definition is_space (c : codeunit) : bool :=
  (9 <=? c) && (c <=? 13)
  || (c =? 32) || (c =? 160) || (c =? 5760)
  || (8192 <=? c) && (c <=? 8202)
  || (c =? 8232) || (c =? 8233) || (c =? 8239) || (c =? 8287)
  || (c =? 12288) || (c =? 65279).

Fixpoint trimStart (s : jsstring) : jsstring :=
  match s with
  | c :: s' => if is_space c then trimStart s' else s
  | [] => []
  end.

Definition trimEnd (s : jsstring) : jsstring :=
  reverse (trimStart (reverse s)).

Definition trim (s : jsstring) : jsstring := trimEnd (trimStart s).

(** [s.split(sep)] for a separator of one code unit. The empty string
    splits into one empty segment. *)
Fixpoint split (sep : codeunit) (s : jsstring) : list jsstring :=
  match s with
  | [] => [[]]
  | c :: s' =>
      if c =? sep then [] :: split sep s'
      else match split sep s' with
           | seg :: segs => (c :: seg) :: segs
           | [] => [[c]]
           end
  end.

Definition SPACE : codeunit := 32.

(** [s.charAt(0)]: the first code unit as a string, or the empty string. *)
Definition charAt0 (s : jsstring) : jsstring := take 1 s.

(** Truthiness of a string and of an optional string field. *)
Definition truthy_str (s : jsstring) : bool :=
  match s with [] => false | _ => true end.

Definition truthy (f : option jsstring) : bool :=
  match f with Some s => truthy_str s | None => false end.

(** [f === lit] for a field that may be absent and a string [lit]. *)
Definition strict_eq (f : option jsstring) (lit : jsstring) : bool :=
  bool_decide (f = Some lit).

(** ** Completions: a value, or a thrown exception *)

Inductive result (A : Type) : Type :=
  | Ok (a : A)
  | Throws.
Arguments Ok {A} a.
Arguments Throws {A}.

Global Instance result_ret : MRet result := λ A a, Ok a.
Global Instance result_bind : MBind result := λ A B f r,
  match r with Ok a => f a | Throws => Throws end.

(** ** Host services *)

Class Host := {
  (** [String.prototype.toUpperCase] *)
  toUpperCase : jsstring → jsstring;
  (** [a.localeCompare(b)] *)
  localeCompare : jsstring → jsstring → Z;
}.

(** What ECMAScript calls a consistent comparator; collation orders are. *)
Class HostLaws `{Host} : Prop := {
  localeCompare_sign a b : (localeCompare a b < 0 ↔ 0 < localeCompare b a)%Z;
  localeCompare_trans a b c :
    (localeCompare a b ≤ 0 → localeCompare b c ≤ 0 → localeCompare a c ≤ 0)%Z;
}.

(** A host for running the definitions on concrete inputs: ASCII case
    mapping, code-unit order. *)
Definition ascii_upper (c : codeunit) : codeunit :=
  if (97 <=? c) && (c <=? 122) then c - 32 else c.

Fixpoint codeunit_compare (a b : jsstring) : Z :=
  match a, b with
  | [], [] => 0%Z
  | [], _ :: _ => (-1)%Z
  | _ :: _, [] => 1%Z
  | x :: a', y :: b' =>
      match (x ?= y)%N with
      | Lt => (-1)%Z
      | Gt => 1%Z
      | Eq => codeunit_compare a' b'
      end
  end.

Definition asciiHost : Host :=
  {| toUpperCase := fmap ascii_upper; localeCompare := codeunit_compare |}.

(** ** Regular expressions

    The patterns of the scripts are anchored at both ends, use no
    look-around, group reference or flag, and are applied with [test]: the
    outcome is membership of the whole string in the pattern's language.
    [test] is computed with derivatives. *)

Inductive regex : Type :=
  | Void
  | Eps
  | Class (p : codeunit → bool)
  | Cat (r1 r2 : regex)
  | Alt (r1 r2 : regex)
  | Star (r : regex).

(** [r+], [r?], [r{n}] and [r{lo,hi}]. *)
Definition Plus (r : regex) : regex := Cat r (Star r).
Definition Opt (r : regex) : regex := Alt Eps r.
Fixpoint Times (n : nat) (r : regex) : regex :=
  match n with O => Eps | S n' => Cat r (Times n' r) end.
Definition Repeat (lo hi : nat) (r : regex) : regex :=
  Cat (Times lo r) (Times (hi - lo) (Opt r)).
Definition Chr (c : codeunit) : regex := Class (N.eqb c).

Fixpoint nullable (r : regex) : bool :=
  match r with
  | Void => false
  | Eps => true
  | Class _ => false
  | Cat r1 r2 => nullable r1 && nullable r2
  | Alt r1 r2 => nullable r1 || nullable r2
  | Star _ => true
  end.

Fixpoint deriv (c : codeunit) (r : regex) : regex :=
  match r with
  | Void => Void
  | Eps => Void
  | Class p => if p c then Eps else Void
  | Cat r1 r2 =>
      if nullable r1 then Alt (Cat (deriv c r1) r2) (deriv c r2)
      else Cat (deriv c r1) r2
  | Alt r1 r2 => Alt (deriv c r1) (deriv c r2)
  | Star r' => Cat (deriv c r') (Star r')
  end.

(** [/^r$/.test(s)] *)
Fixpoint test (r : regex) (s : jsstring) : bool :=
  match s with
  | [] => nullable r
  | c :: s' => test (deriv c r) s'
  end.

(** The language of a pattern. *)
Fixpoint Matches (r : regex) (s : jsstring) : Prop :=
  match r with
  | Void => False
  | Eps => s = []
  | Class p => ∃ c, s = [c] ∧ p c = true
  | Cat r1 r2 => ∃ s1 s2, s = s1 ++ s2 ∧ Matches r1 s1 ∧ Matches r2 s2
  | Alt r1 r2 => Matches r1 s ∨ Matches r2 s
  | Star r' => ∃ ss, s = concat ss ∧ Forall (Matches r') ss
  end.

(** Character classes of the scripts' patterns. *)
Definition in_range (lo hi c : codeunit) : bool := (lo <=? c) && (c <=? hi).
Definition is_digit (c : codeunit) : bool := in_range 48 57 c.
Definition is_alpha (c : codeunit) : bool := in_range 97 122 c || in_range 65 90 c.
Definition AT : codeunit := 64.
Definition DOT : codeunit := 46.
Definition HYPHEN : codeunit := 45.

(** ** [Math.random]

    The generator is a sequence of draws and a position in it; a draw is
    the value of [Math.floor(Math.random() * 16)]. *)

Record Rng : Type := { draws : nat → nat; pos : nat }.

Definition random16 (g : Rng) : nat * Rng :=
  (draws g (pos g), {| draws := draws g; pos := S (pos g) |}).

(** [s[i]] appended to a string: a code unit, or the text of [undefined]. *)
Definition index_text (s : jsstring) (i : nat) : jsstring :=
  match s !! i with Some c => [c] | None => str "undefined" end.

(** ** Effects

    What a script does to the page and the network, in program order. A
    timer carries the effects of its callback. [Call] records the call
    of a function of the page scripts whose own effects are not
    expanded. *)

Inductive Method : Type := GET | PUT | POST | PATCH | DELETE.

Inductive Json : Type :=
  | JString (s : jsstring)
  | JObject (fields : list (jsstring * Json)).

Inductive Effect : Type :=
  | Fetch (m : Method) (url : jsstring) (body : option Json)
  | SetTextContent (id text : jsstring)
  | ClassAdd (id cls : jsstring)
  | ClassRemove (id cls : jsstring)
  | SetTimeout (callback : list Effect) (ms : nat)
  | SetLocation (href : jsstring)
  | Alert (msg : jsstring)
  | ConsoleError (msg : jsstring)
  | Call (fn : jsstring).

(** A request that changes the store, at any depth of timers. *)
Fixpoint is_write (e : Effect) : bool :=
  match e with
  | Fetch GET _ _ => false
  | Fetch _ _ _ => true
  | SetTimeout cb _ => existsb is_write cb
  | _ => false
  end.

(** A navigation, at any depth of timers. *)
Fixpoint is_redirect (e : Effect) : bool :=
  match e with
  | SetLocation _ => true
  | SetTimeout cb _ => existsb is_redirect cb
  | _ => false
  end.

(** [BASE_URL] of script.js, which the login, contact, board and summary
    pages load; the sign-up page declares its own. *)
Definition BASE_URL : jsstring :=
  str "https://remotestorage-2a5f0-default-rtdb.europe-west1.firebasedatabase.app/".

(* ===================================================================== *)
(** * Part II. The scripts                                               *)
(* ===================================================================== *)

(** ** script.js *)

Section Script.
Context `{Host}.

(** [part[0].toUpperCase()]: indexing an empty segment yields
    [undefined], on which the method call throws a TypeError. *)
Definition initial_of (part : jsstring) : result jsstring :=
  match part with
  | c :: _ => Ok (toUpperCase [c])
  | [] => Throws
  end.

Definition getInitials (name : option jsstring) : result jsstring :=
  match name with
  | Some n =>
      if negb (truthy_str n) || bool_decide (n = str "guest")
      then Ok (str "G")
      else
        parts ← mapM initial_of (split SPACE n);
        Ok (take 2 (concat parts))
  | None => Ok (str "G")
  end.

End Script.

(** ** Generating colours (shared by the contact scripts) *)

Definition letters : jsstring := str "0123456789ABCDEF".

Fixpoint color_loop (n : nat) (color : jsstring) (g : Rng) : jsstring * Rng :=
  match n with
  | O => (color, g)
  | S n' =>
      let '(k, g') := random16 g in
      color_loop n' (color ++ index_text letters k) g'
  end.

Definition generateRandomColor (g : Rng) : jsstring * Rng :=
  color_loop 6 (str "#") g.

(** ** contacts3.js: adding a contact *)

Record ContactForm : Type := {
  contact_name_value : jsstring;
  contact_email_value : jsstring;
  contact_phone_value : jsstring;
}.

Record FormValues : Type := {
  fv_name : jsstring;
  fv_email : jsstring;
  fv_phone : jsstring;
}.

Definition getContactFormValues (form : ContactForm) : FormValues :=
  {| fv_name := trim (contact_name_value form);
     fv_email := trim (contact_email_value form);
     fv_phone := trim (contact_phone_value form) |}.

Definition showErrorMessage (message : jsstring) : list Effect :=
  [ SetTextContent (str "error-message-box") message;
    ClassAdd (str "error-message-box") (str "show");
    SetTimeout [ClassRemove (str "error-message-box") (str "show")] 2500 ].

(** [[^\s@]] and [[a-zA-Z0-9-]] *)
Definition not_space_or_at (c : codeunit) : bool :=
  negb (is_space c || (c =? AT)).
Definition alnum_or_hyphen (c : codeunit) : bool :=
  is_alpha c || is_digit c || (c =? HYPHEN).

(** [/^[^\s@]+@[a-zA-Z0-9-]+\.[a-zA-Z]{2,6}$/] *)
Definition emailPattern : regex :=
  Cat (Plus (Class not_space_or_at))
 (Cat (Chr AT)
 (Cat (Plus (Class alnum_or_hyphen))
 (Cat (Chr DOT)
      (Repeat 2 6 (Class is_alpha))))).

Definition validateEmail (email : jsstring) : bool := test emailPattern email.

(** [/^[0-9]+$/] *)
Definition phonePattern : regex := Plus (Class is_digit).

Definition validatePhone (phone : jsstring) : bool := test phonePattern phone.

(** The verdict and the effects of reporting it. *)
Definition validateContactFields (name email phone : jsstring)
  : bool * list Effect :=
  if negb (truthy_str name) || negb (truthy_str email) || negb (truthy_str phone)
  then (false, showErrorMessage (str "Please complete all fields."))
  else if (length (split SPACE name) <? 2)%nat
  then (false, showErrorMessage (str "Please enter your first and last name."))
  else if negb (validateEmail email)
  then (false, showErrorMessage (str "Please enter a valid email address."))
  else if negb (validatePhone phone)
  then (false, showErrorMessage (str "Please enter a valid phone number."))
  else (true, []).

Record NewContact : Type := {
  nc_name : jsstring;
  nc_email : jsstring;
  nc_phone : jsstring;
  nc_color : jsstring;
}.

Definition createNewContact (name email phone : jsstring) (g : Rng)
  : NewContact * Rng :=
  let '(color, g') := generateRandomColor g in
  ({| nc_name := name; nc_email := email; nc_phone := phone;
      nc_color := color |}, g').

Definition stringify_NewContact (c : NewContact) : Json :=
  JObject [ (str "name", JString (nc_name c));
            (str "email", JString (nc_email c));
            (str "phone", JString (nc_phone c));
            (str "color", JString (nc_color c)) ].

Definition saveContactToDatabase (newContact : NewContact) : Effect :=
  Fetch POST (BASE_URL ++ str "/contacts.json")
        (Some (stringify_NewContact newContact)).

(** How the store answers the POST: the request fails, or a response
    arrives with its [ok] flag and a body that parses or not. *)
Inductive PostOutcome : Type :=
  | PostFails
  | PostResponse (ok : bool) (body : option jsstring).

(** [body] is the [name] of the parsed response, the id of the new
    contact; [None] when [response.json()] fails or yields [null]. *)
Definition handleSuccessfulSave (body : option jsstring) : result (list Effect) :=
  match body with
  | None => Throws
  | Some _ =>
      Ok [ Call (str "closeModalContact");
           Call (str "loadContacts");
           Call (str "showContactCreatedOverlay");
           Call (str "renderContactCard");
           SetTimeout [Call (str "scrollToNewContact")] 1600 ]
  end.

Definition saveNewContact (form : ContactForm) (g : Rng) (net : PostOutcome)
  : list Effect :=
  let v := getContactFormValues form in
  let '(valid, shown) := validateContactFields (fv_name v) (fv_email v) (fv_phone v) in
  if negb valid then shown
  else
    let '(newContact, _) := createNewContact (fv_name v) (fv_email v) (fv_phone v) g in
    shown ++ saveContactToDatabase newContact ::
    match net with
    | PostFails => [ConsoleError (str "Error while deleting the contact")]
    | PostResponse ok body =>
        if ok then
          match handleSuccessfulSave body with
          | Ok fx => fx
          | Throws => [ConsoleError (str "Error while deleting the contact")]
          end
        else []
    end.

(** ** The store's records

    A contact is written by the sign-up form (name, email, password), by
    the contact form (name, email, phone, color) or by the edit form,
    which adds the record's own key as [id]. *)

Record StoredContact : Type := {
  sc_id : option jsstring;
  sc_name : jsstring;
  sc_email : jsstring;
  sc_phone : option jsstring;
  sc_password : option jsstring;
  sc_color : option jsstring;
}.

(** A contact as the loaders return it: [{ id, ...contact, color }]. *)
Record Contact : Type := {
  id : jsstring;
  name : jsstring;
  email : jsstring;
  phone : option jsstring;
  password : option jsstring;
  color : jsstring;
}.

(** [completed] is a boolean: the scripts only ever store the literal
    [false] or the negation of the previous value. *)
Record Subtask : Type := {
  st_name : jsstring;
  st_completed : bool;
}.

Record Snapshot : Type := {
  snap_name : jsstring;
  snap_color : jsstring;
}.

(** What [getAssignedContacts] returns: an object, or the empty string. *)
Inductive AssignedTo : Type :=
  | AssignedObject (m : gmap jsstring Snapshot)
  | EmptyString.

Record Task : Type := {
  title : jsstring;
  description : jsstring;
  dueDate : jsstring;
  priority : option jsstring;
  badge : option jsstring;
  category : option jsstring;
  assignedTo : option AssignedTo;
  subtasks : option (gmap jsstring Subtask);
}.

(** An element of the page-level [tasks] array: [{ id, task }]. *)
Record TaskObj : Type := {
  to_id : jsstring;
  task : Task;
}.

(** An element of [mapTasksWithIds]: [{ id, ...task }]. *)
Record TaskWithId : Type := {
  twi_id : jsstring;
  twi_fields : Task;
}.

(** A JSON object in enumeration order. *)
Abbreviation object A := (list (jsstring * A)) (only parsing).

Definition Object_values {A} (o : object A) : list A := o.*2.

(** [o[key]] *)
Fixpoint get {A} (o : object A) (key : jsstring) : option A :=
  match o with
  | [] => None
  | (k, v) :: o' => if bool_decide (k = key) then Some v else get o' key
  end.

(** What [await fetch(..)] followed by [.json()] yields: a failure, or
    the parsed body, [null] for a path without data. *)
Inductive Fetched (A : Type) : Type :=
  | FetchFails
  | FetchJson (data : option A).
Arguments FetchFails {A}.
Arguments FetchJson {A} data.

(** [Array.prototype.sort] with a comparator. The standard requires the
    sort to be stable; for a consistent comparator every stable sort
    returns the array computed here. *)
Fixpoint sort_insert {A} (cmp : A → A → Z) (x : A) (l : list A) : list A :=
  match l with
  | [] => [x]
  | y :: l' => if (cmp x y <=? 0)%Z then x :: l else y :: sort_insert cmp x l'
  end.

Definition Array_sort {A} (cmp : A → A → Z) (l : list A) : list A :=
  foldr (sort_insert cmp) [] l.

(** ** Login *)

Record Root : Type := {
  root_contacts : option (object StoredContact);
}.

Definition putData (path : jsstring) (data : Json) : Effect :=
  Fetch PUT (BASE_URL ++ str "/" ++ path ++ str ".json") (Some data).

Definition processLogin (signedUpContact : option StoredContact) : list Effect :=
  match signedUpContact with
  | Some c =>
      [ ClassAdd (str "task-created-popup") (str "show");
        SetTimeout
          [ ClassRemove (str "task-created-popup") (str "show");
            putData (str "currentUser") (JObject [(str "name", JString (sc_name c))]);
            SetLocation (str "summary.html") ] 1500 ]
  | None =>
      [ ClassAdd (str "task-created-popup2") (str "show");
        SetTimeout [ClassRemove (str "task-created-popup2") (str "show")] 1500 ]
  end.

(** The scan of [login]: the argument handed to [processLogin]. *)
Definition signedUpContact (contacts : option (object StoredContact))
    (email password : jsstring) : option StoredContact :=
  find (λ c, bool_decide (sc_email c = email) && strict_eq (sc_password c) password)
       (Object_values (default [] contacts)).

Definition login_alert : jsstring :=
  str "Ein Fehler ist aufgetreten. Bitte versuchen Sie es sp" ++ [228]
  ++ str "ter erneut.".

Definition login (fetched : Fetched Root) (email password : jsstring)
  : list Effect :=
  Fetch GET (BASE_URL ++ str ".json") None ::
  match fetched with
  | FetchJson (Some contactAsJson) =>
      processLogin (signedUpContact (root_contacts contactAsJson) email password)
  | FetchJson None | FetchFails => [Alert login_alert]
  end.

(** ** Loading contacts and tasks *)

Section Loaders.
Context `{Host}.

(** [contact.color || generateRandomColor()]: the generator is only
    consulted when the stored colour is absent or empty. *)
Definition color_or_random (stored : option jsstring) (g : Rng)
  : jsstring * Rng :=
  if truthy stored then (default [] stored, g) else generateRandomColor g.

(** [{ id, ...contact, color }]: an [id] of the record itself, copied by
    the spread, replaces the key. *)
Definition with_id_and_color (entry : jsstring * StoredContact) (g : Rng)
  : Contact * Rng :=
  let '(key, contact) := entry in
  let '(c, g') := color_or_random (sc_color contact) g in
  ({| id := default key (sc_id contact);
      name := sc_name contact;
      email := sc_email contact;
      phone := sc_phone contact;
      password := sc_password contact;
      color := c |}, g').

(** [Object.entries(data).map(..)], drawing colours in entry order. *)
Fixpoint map_entries (data : object StoredContact) (g : Rng)
  : list Contact * Rng :=
  match data with
  | [] => ([], g)
  | entry :: data' =>
      let '(c, g1) := with_id_and_color entry g in
      let '(cs, g2) := map_entries data' g1 in
      (c :: cs, g2)
  end.

Definition by_name (a b : Contact) : Z := localeCompare (name a) (name b).

Definition processContacts (data : object StoredContact) (g : Rng)
  : list Contact :=
  Array_sort by_name (fst (map_entries data g)).

Definition saveColorToDatabase (contactId color : jsstring) : Effect :=
  Fetch PATCH (BASE_URL ++ str "/contacts/" ++ contactId ++ str ".json")
        (Some (JObject [(str "color", JString color)])).

(** The requests issued, and whether the loop ran to its end:
    [data[contact.id].color] throws when the id is not a key of [data]. *)
Fixpoint ensureColorsInDatabase (sortedContacts : list Contact)
    (data : object StoredContact) : list Effect * result unit :=
  match sortedContacts with
  | [] => ([], Ok ())
  | contact :: rest =>
      match get data (id contact) with
      | None => ([], Throws)
      | Some raw =>
          let '(fx, r) := ensureColorsInDatabase rest data in
          if negb (truthy (sc_color raw))
          then (saveColorToDatabase (id contact) (color contact) :: fx, r)
          else (fx, r)
      end
  end.

(** *** Rendering the contact list *)

Inductive Node : Type :=
  | LetterElement (letter : jsstring)
  | DividerElement
  | ContactElement (contact : Contact) (initials : jsstring).

Definition getInitialsAndFirstLetter (contact : Contact)
  : jsstring * jsstring :=
  let nameParts := split SPACE (name contact) in
  let firstNameInitial := toUpperCase (charAt0 (default [] (nameParts !! 0%nat))) in
  let lastNameInitial :=
    if (1 <? length nameParts)%nat
    then toUpperCase (charAt0 (default [] (nameParts !! 1%nat)))
    else [] in
  let firstLetter := toUpperCase (charAt0 (name contact)) in
  (firstNameInitial ++ lastNameInitial, firstLetter).

Definition firstLetter (contact : Contact) : jsstring :=
  snd (getInitialsAndFirstLetter contact).

Definition initials (contact : Contact) : jsstring :=
  fst (getInitialsAndFirstLetter contact).

(** The state of the loop: the letters displayed so far and the children
    of the list element. *)
Definition processContact (contact : Contact)
    (st : list jsstring * list Node) : list jsstring * list Node :=
  let '(displayedLetters, contactsAreaList) := st in
  let '(initials, firstLetter) := getInitialsAndFirstLetter contact in
  if bool_decide (firstLetter ∈ displayedLetters)
  then (displayedLetters,
        contactsAreaList ++ [ContactElement contact initials])
  else (displayedLetters ++ [firstLetter],
        contactsAreaList ++ [LetterElement firstLetter; DividerElement]
                         ++ [ContactElement contact initials]).

(** The children of the list element after rendering. *)
Definition renderContactsList (contacts : list Contact) : list Node :=
  snd (foldl (λ st contact, processContact contact st) ([], []) contacts).

(** *** The loaders *)

Record Loaded : Type := {
  requests : list Effect;
  rendered : option (list Node);
  returned : option (list Contact);
}.

Definition loadContacts (fetched : Fetched (object StoredContact)) (g : Rng)
  : Loaded :=
  let request := Fetch GET (BASE_URL ++ str "contacts.json") None in
  match fetched with
  | FetchFails =>
      {| requests := [request; ConsoleError (str "Error loading contacts:")];
         rendered := None;
         returned := Some [] |}
  | FetchJson None =>
      {| requests := [request]; rendered := None; returned := None |}
  | FetchJson (Some data) =>
      let sortedContacts := processContacts data g in
      match ensureColorsInDatabase sortedContacts data with
      | (fx, Ok _) =>
          {| requests := request :: fx;
             rendered := Some (renderContactsList sortedContacts);
             returned := Some sortedContacts |}
      | (fx, Throws) =>
          {| requests := request :: fx ++ [ConsoleError (str "Error loading contacts:")];
             rendered := None;
             returned := Some [] |}
      end
  end.

Definition prepareSortedContacts (data : object StoredContact) (g : Rng)
  : list Contact :=
  Array_sort by_name (fst (map_entries data g)).

Definition loadTaskContacts (fetched : Fetched (object StoredContact))
    (g : Rng) : list Contact :=
  match fetched with
  | FetchJson (Some data) => prepareSortedContacts data g
  | FetchJson None => []
  | FetchFails => []
  end.

Definition mapTasksWithIds (data : object Task) : list TaskWithId :=
  (λ '(key, t), {| twi_id := key; twi_fields := t |}) <$> data.

Definition loadTasks (fetched : Fetched (object Task)) : list TaskWithId :=
  match fetched with
  | FetchJson (Some data) => mapTasksWithIds data
  | FetchJson None => []
  | FetchFails => []
  end.

End Loaders.

(** ** The summary counters *)

Record Counters : Type := {
  ToDoCount : nat;
  doneCount : nat;
  urgencyCount : nat;
  taskCount : nat;
  progressCount : nat;
  feedbackCount : nat;
}.

Definition zero_counters : Counters :=
  {| ToDoCount := 0; doneCount := 0; urgencyCount := 0; taskCount := 0;
     progressCount := 0; feedbackCount := 0 |}.

(** The body of the [forEach] callback. *)
Definition count_task (k : Counters) (taskObj : TaskObj) : Counters :=
  let t := task taskObj in
  let k1 :=
    {| ToDoCount := ToDoCount k; doneCount := doneCount k;
       urgencyCount := urgencyCount k; taskCount := S (taskCount k);
       progressCount := progressCount k; feedbackCount := feedbackCount k |} in
  let k2 :=
    if strict_eq (category t) (str "To-Do") then
      {| ToDoCount := S (ToDoCount k1); doneCount := doneCount k1;
         urgencyCount := urgencyCount k1; taskCount := taskCount k1;
         progressCount := progressCount k1; feedbackCount := feedbackCount k1 |}
    else if strict_eq (category t) (str "Done") then
      {| ToDoCount := ToDoCount k1; doneCount := S (doneCount k1);
         urgencyCount := urgencyCount k1; taskCount := taskCount k1;
         progressCount := progressCount k1; feedbackCount := feedbackCount k1 |}
    else if strict_eq (category t) (str "In Progress") then
      {| ToDoCount := ToDoCount k1; doneCount := doneCount k1;
         urgencyCount := urgencyCount k1; taskCount := taskCount k1;
         progressCount := S (progressCount k1); feedbackCount := feedbackCount k1 |}
    else if strict_eq (category t) (str "Await Feedback") then
      {| ToDoCount := ToDoCount k1; doneCount := doneCount k1;
         urgencyCount := urgencyCount k1; taskCount := taskCount k1;
         progressCount := progressCount k1; feedbackCount := S (feedbackCount k1) |}
    else k1 in
  if strict_eq (priority t) (str "urgent") then
    {| ToDoCount := ToDoCount k2; doneCount := doneCount k2;
       urgencyCount := S (urgencyCount k2); taskCount := taskCount k2;
       progressCount := progressCount k2; feedbackCount := feedbackCount k2 |}
  else k2.

Definition updateCount (tasks : list TaskObj) (k : Counters) : Counters :=
  foldl count_task k tasks.

(** ** Assignees of a new task *)

(** The template literal [contact${index + 1}]. *)
Definition contact_label (index : nat) : jsstring :=
  str "contact" ++ str (pretty (index + 1)%nat).

(** [array.reduce((acc, x, index) => .., init)] *)
Fixpoint reduce {A B} (f : B → A → nat → B) (acc : B) (index : nat)
    (l : list A) : B :=
  match l with
  | [] => acc
  | x :: l' => reduce f (f acc x index) (S index) l'
  end.

Definition getAssignedContacts (selectedContacts : list Contact) : AssignedTo :=
  if (0 <? length selectedContacts)%nat then
    AssignedObject
      (reduce (λ (assignedTo : gmap jsstring Snapshot) contact index,
                 <[contact_label index :=
                     {| snap_name := name contact; snap_color := color contact |}]>
                   assignedTo)
              ∅ 0%nat selectedContacts)
  else EmptyString.

(** ** boardSubtasks.js *)

Record Progress : Type := {
  completed : nat;
  total : nat;
}.

Definition calculateSubtaskProgress (subtasks : gmap jsstring Subtask)
  : Progress :=
  let subtaskArray := (map_to_list subtasks).*2 in
  if bool_decide (length subtaskArray = 0%nat)
  then {| completed := 0; total := 0 |}
  else
    {| completed :=
         length (filter (λ subtask, st_completed subtask = true) subtaskArray);
       total := length subtaskArray |}.

(** The two numbers [updateSubtaskBar] writes into the bar's label. *)
Definition subtaskBarCounts (subtasks : gmap jsstring Subtask) : Progress :=
  {| completed :=
       length (filter (λ subtask, Is_true (st_completed subtask))
                      (map_to_list subtasks).*2);
     total := length (map_to_list subtasks).*1 |}.

Definition set_subtasks (t : Task) (s : gmap jsstring Subtask) : Task :=
  {| title := title t; description := description t; dueDate := dueDate t;
     priority := priority t; badge := badge t; category := category t;
     assignedTo := assignedTo t; subtasks := Some s |}.

(** The new [tasks] array and the refreshes requested; a missing task,
    subtasks object or subtask makes a property access throw. *)
Definition toggleSubtask (taskIndex : nat) (subtaskId : jsstring)
    (tasks : list TaskObj) : result (list TaskObj * list Effect) :=
  match tasks !! taskIndex with
  | None => Throws
  | Some taskObj =>
      match subtasks (task taskObj) with
      | None => Throws
      | Some subs =>
          match subs !! subtaskId with
          | None => Throws
          | Some subtask =>
              let subtask' :=
                {| st_name := st_name subtask;
                   st_completed := negb (st_completed subtask) |} in
              let taskObj' :=
                {| to_id := to_id taskObj;
                   task := set_subtasks (task taskObj)
                                        (<[subtaskId := subtask']> subs) |} in
              Ok (<[taskIndex := taskObj']> tasks,
                  [ Call (str "updateSubtaskBar");
                    Call (str "updatePopupSubtasks") ])
          end
      end
  end.

Local Close Scope N_scope.

(** ** The add-task page: selected contacts and the subtasks array
    (addtask2.js, addtask4.js) *)

Module AddTask.

(** [selectedContacts.some(c => c.id === contactId)] *)
Definition is_selected (selectedContacts : list Contact) (contactId : jsstring)
  : bool :=
  existsb (λ c, bool_decide (id c = contactId)) selectedContacts.

(** The contact item is named by its [data-id]. *)
Definition addContact (contactItem : jsstring) (contact : Contact)
    (selectedContacts : list Contact) : list Contact * list Effect :=
  (if negb (is_selected selectedContacts (id contact))
   then selectedContacts ++ [contact]
   else selectedContacts,
   [ClassAdd contactItem (str "selected")]).

Definition removeContact (contactItem contactId : jsstring)
    (selectedContacts : list Contact) : list Contact * list Effect :=
  (filter (λ c, id c ≠ contactId) selectedContacts,
   [ClassRemove contactItem (str "selected")]).

(** [contacts] is the array loaded for the page; [contactId] is
    [contactItem.dataset.id]. *)
Definition handleContactSelection (contacts : list Contact)
    (contactId : jsstring) (isChecked : bool)
    (selectedContacts : list Contact) : list Contact * list Effect :=
  match find (λ c, bool_decide (id c = contactId)) contacts with
  | Some contact =>
      let '(selected, fx) :=
        if isChecked then addContact contactId contact selectedContacts
        else removeContact contactId contactId selectedContacts in
      (selected, fx ++ [Call (str "updateSelectedContactInitials")])
  | None => (selectedContacts, [])
  end.

(** The state the subtask functions work on:
    [tasks[currentTaskIndex].subtasks], the value of the subtask input
    and [editingSubtaskIndex]. *)
Record Editor : Type := {
  subtasks_array : list Subtask;
  input_value : jsstring;
  editingSubtaskIndex : option nat;
}.

Definition validateSubtask (inputValue : jsstring)
  : option jsstring * list Effect :=
  let subtaskName := trim inputValue in
  if bool_decide (subtaskName = [])
  then (None, showErrorMessage (str "Please enter a subtask."))
  else (Some subtaskName, []).

Definition createSubtask (subtaskName : jsstring) (ed : Editor)
  : Editor * list Effect :=
  ({| subtasks_array :=
        subtasks_array ed ++ [{| st_name := subtaskName; st_completed := false |}];
      input_value := input_value ed;
      editingSubtaskIndex := editingSubtaskIndex ed |},
   [Call (str "updateSubtasksList")]).

Definition addSubtask (ed : Editor) : Editor * list Effect :=
  let '(subtaskName, shown) := validateSubtask (input_value ed) in
  if truthy subtaskName then
    let '(ed', fx) := createSubtask (default [] subtaskName) ed in
    ({| subtasks_array := subtasks_array ed'; input_value := [];
        editingSubtaskIndex := editingSubtaskIndex ed' |}, shown ++ fx)
  else (ed, shown).

(** [subtasks.splice(index, 1)] *)
Definition deleteSubtask (index : nat) (ed : Editor) : Editor * list Effect :=
  ({| subtasks_array := delete index (subtasks_array ed);
      input_value := input_value ed;
      editingSubtaskIndex := editingSubtaskIndex ed |},
   [Call (str "updateSubtasksList")]).

(** [editInput] is the value of the edit field. Assigning the name of a
    subtask that does not exist throws. *)
Definition saveSubtask (index : nat) (editInput : jsstring) (ed : Editor)
  : result (Editor * list Effect) :=
  let newName := trim editInput in
  if bool_decide (newName = [])
  then Ok (ed, showErrorMessage (str "Please enter a valid subtask."))
  else
    match subtasks_array ed !! index with
    | None => Throws
    | Some subtask =>
        Ok ({| subtasks_array :=
                 <[index := {| st_name := newName;
                               st_completed := st_completed subtask |}]>
                   (subtasks_array ed);
               input_value := input_value ed;
               editingSubtaskIndex := None |},
            [Call (str "updateSubtasksList")])
    end.

Definition clearSubtasks (ed : Editor) : Editor :=
  {| subtasks_array := []; input_value := input_value ed;
     editingSubtaskIndex := editingSubtaskIndex ed |}.

End AddTask.

(** ** The board: adding and deleting subtasks of the open task
    (boardSubtasks.js) *)

Module Board.

(** The page-level variables the functions use, and the value of the
    new-subtask input. [subtaskCounter] is used by [addNewSubtask] and
    declared outside boardSubtasks.js; it stands here for the
    number it holds. *)
Record State : Type := {
  tasks : list TaskObj;
  currentTaskIndex : nat;
  subtaskCounter : nat;
  newSubtaskInput : jsstring;
}.

(** The template literal [subtask-${subtaskCounter}]. *)
Definition subtask_key (counter : nat) : jsstring :=
  str "subtask-" ++ str (pretty counter).

(** The task with the subtask added, and the counter after [++]. *)
Definition addNewSubtask (t : Task) (subtaskName : jsstring) (counter : nat)
  : Task * nat :=
  let subs := default ∅ (subtasks t) in
  (set_subtasks t
     (<[subtask_key counter :=
          {| st_name := subtaskName; st_completed := false |}]> subs),
   S counter).

Definition addSubtask (st : State) : result (State * list Effect) :=
  let subtaskName := trim (newSubtaskInput st) in
  if bool_decide (subtaskName = []) then
    Ok (st, [Call (str "event.preventDefault")])
  else
    match tasks st !! currentTaskIndex st with
    | None => Throws
    | Some taskObj =>
        let '(t', counter') :=
          addNewSubtask (task taskObj) subtaskName (subtaskCounter st) in
        Ok ({| tasks := <[currentTaskIndex st :=
                           {| to_id := to_id taskObj; task := t' |}]> (tasks st);
               currentTaskIndex := currentTaskIndex st;
               subtaskCounter := counter';
               newSubtaskInput := [] |},
            [ Call (str "event.preventDefault");
              Call (str "updateSubtasksList");
              Call (str "unfocusInput") ])
    end.

Definition deleteSubtask (subtaskId : jsstring) (st : State)
  : result (State * list Effect) :=
  match tasks st !! currentTaskIndex st with
  | None => Throws
  | Some taskObj =>
      match subtasks (task taskObj) with
      | None => Throws
      | Some subs =>
          match subs !! subtaskId with
          | None => Ok (st, [])
          | Some _ =>
              Ok ({| tasks :=
                       <[currentTaskIndex st :=
                           {| to_id := to_id taskObj;
                              task := set_subtasks (task taskObj)
                                        (delete subtaskId subs) |}]> (tasks st);
                     currentTaskIndex := currentTaskIndex st;
                     subtaskCounter := subtaskCounter st;
                     newSubtaskInput := newSubtaskInput st |},
                  [Call (str "updateSubtasksList")])
          end
      end
  end.

(** [items] are the texts of the [.subtask-item-name span] elements of
    the list, in document order; the key of an entry is its index. *)
Definition getCurrentSubtasks (items : list jsstring) : gmap jsstring Subtask :=
  reduce (λ (subtasks : gmap jsstring Subtask) text index,
            let subtaskName := trim text in
            if truthy_str subtaskName
            then <[str (pretty index) :=
                     {| st_name := subtaskName; st_completed := false |}]> subtasks
            else subtasks)
         ∅ 0%nat items.

End Board.

(** ** Editing a contact *)

Module EditContact.

(** The values of the inputs of the edit form; [None] for an input that
    is not in the page. *)
Record Form : Type := {
  contact_name2 : option jsstring;
  contact_email2 : option jsstring;
  contact_phone2 : option jsstring;
}.

Definition getFieldValue (field : option jsstring) : jsstring :=
  match field with
  | Some value => trim value
  | None => []
  end.

Definition getContactFields (form : Form) : FormValues :=
  {| fv_name := getFieldValue (contact_name2 form);
     fv_email := getFieldValue (contact_email2 form);
     fv_phone := getFieldValue (contact_phone2 form) |}.

(** Defining a property in an object literal: the value of a property
    that is there is replaced in place, a new property comes last. The
    keys of a contact record are names, not array indices. *)
Fixpoint set_property (key : jsstring) (value : Json) (o : object Json)
  : object Json :=
  match o with
  | [] => [(key, value)]
  | (k, v) :: o' =>
      if bool_decide (k = key) then (key, value) :: o'
      else (k, v) :: set_property key value o'
  end.

(** [{ ...target, ...source }]; spreading [null] adds nothing. *)
Definition spread (target : object Json) (source : option (object Json))
  : object Json :=
  foldl (λ o '(k, v), set_property k v o) target (default [] source).

Definition createUpdatedContact (contactId : jsstring)
    (existingContact : option (object Json)) (name email phone : jsstring)
  : object Json :=
  set_property (str "phone") (JString phone)
    (set_property (str "email") (JString email)
       (set_property (str "name") (JString name)
          (spread [(str "id", JString contactId)] existingContact))).

(** How the store answers the GET: the request fails, or a response
    arrives with its [ok] flag and a body that parses, to [null] or to
    an object, or does not. *)
Inductive GetOutcome : Type :=
  | GetFails
  | GetResponse (ok : bool) (body : option (option (object Json))).

Inductive PutOutcome : Type :=
  | PutFails
  | PutResponse (ok : bool).

Definition contact_url (contactId : jsstring) : jsstring :=
  BASE_URL ++ str "/contacts/" ++ contactId ++ str ".json".

Definition handleSaveError : list Effect :=
  [ConsoleError (str "Error while deleting the contact")].

Section WithHost.
Context `{Host}.

(** [loadContacts()] is started and not awaited: [reload] is what the
    store answers to it and [g] the draws it makes, and its requests
    are listed where it is started. [listed]: whether the list holds the
    element of the contact when the timer fires. *)
Definition updateViewAfterSave (reload : Fetched (object StoredContact))
    (g : Rng) (listed : bool) : list Effect :=
  [Call (str "closeModalEditContact")]
  ++ requests (loadContacts reload g)
  ++ [ Call (str "renderContactCard");
       SetTimeout (if listed then [ Call (str "ContactSelection");
                                    Call (str "scrollIntoView") ]
                   else []) 1600 ].

Definition handleSaveResponse (ok : bool)
    (reload : Fetched (object StoredContact)) (g : Rng) (listed : bool)
  : list Effect :=
  if ok then updateViewAfterSave reload g listed
  else [ConsoleError (str "Failed to save contact.")].

Definition saveExistingContact (contactId : jsstring) (form : Form)
    (got : GetOutcome) (put : PutOutcome)
    (reload : Fetched (object StoredContact)) (g : Rng) (listed : bool)
  : list Effect :=
  let v := getContactFields form in
  let '(valid, shown) :=
    validateContactFields (fv_name v) (fv_email v) (fv_phone v) in
  if negb valid then shown
  else
    shown ++ Fetch GET (contact_url contactId) None ::
    match got with
    | GetFails => handleSaveError
    | GetResponse false _ => handleSaveError
    | GetResponse true None => handleSaveError
    | GetResponse true (Some existingContact) =>
        let updatedContact :=
          createUpdatedContact contactId existingContact
            (fv_name v) (fv_email v) (fv_phone v) in
        Fetch PUT (contact_url contactId) (Some (JObject updatedContact)) ::
        match put with
        | PutFails => handleSaveError
        | PutResponse ok => handleSaveResponse ok reload g listed
        end
    end.

End WithHost.

End EditContact.

(** ** Signing up *)

Module Signup.

(** The values of the inputs of the sign-up form. *)
Record Form : Type := {
  name_value : jsstring;
  email_value : jsstring;
  password_value : jsstring;
  confirmPassword_value : jsstring;
  acceptPolicy_checked : bool;
}.

(** The [BASE_URL] that the sign-up script declares for itself. *)
Definition BASE_URL : jsstring :=
  str "https://join-56225-default-rtdb.europe-west1.firebasedatabase.app/".

(** [[a-zA-Z0-9._%+-]] and [[a-zA-Z0-9.-]] *)
Definition local_char (c : codeunit) : bool :=
  is_alpha c || is_digit c || (c =? DOT)%N || (c =? 95)%N || (c =? 37)%N
  || (c =? 43)%N || (c =? HYPHEN)%N.
Definition domain_char (c : codeunit) : bool :=
  is_alpha c || is_digit c || (c =? DOT)%N || (c =? HYPHEN)%N.

(** [/^[a-zA-Z0-9._%+-]+@[a-zA-Z0-9.-]+\.[a-zA-Z]{2,}$/] *)
Definition emailPattern : regex :=
  Cat (Plus (Class local_char))
 (Cat (Chr AT)
 (Cat (Plus (Class domain_char))
 (Cat (Chr DOT)
 (Cat (Times 2 (Class is_alpha)) (Star (Class is_alpha)))))).

Definition showPopup (popup : jsstring) : list Effect :=
  [ ClassAdd popup (str "show");
    SetTimeout [ClassRemove popup (str "show")] 1500 ].

Definition validateEmail (form : Form) : bool * list Effect :=
  if negb (test emailPattern (email_value form))
  then (false, showPopup (str "popup-valid-email")
                 ++ [Call (str "emailInput.focus")])
  else (true, []).

Definition checkPassword (form : Form) : bool * list Effect :=
  let password := trim (password_value form) in
  let confirmPassword := trim (confirmPassword_value form) in
  if negb (bool_decide (password = confirmPassword))
  then (false, showPopup (str "popup-mismatch"))
  else if negb (acceptPolicy_checked form)
  then (false, showPopup (str "popup-policy"))
  else (true, []).

(** [answered]: whether the request got a response; the page is left
    only then. *)
Definition addContact (form : Form) (answered : bool) : list Effect :=
  Fetch POST (BASE_URL ++ str "" ++ str "contacts.json")
        (Some (JObject
                 [ (str "name", JString (name_value form));
                   (str "email", JString (email_value form));
                   (str "password", JString (trim (password_value form))) ])) ::
  (if answered then [SetLocation (str "index.html?")] else []).

(** The [onsubmit] handler of the form:
    [if (!validateEmail() || !checkPassword()) return false;
     addContact(); return false;] *)
Definition onsubmit (form : Form) (answered : bool) : list Effect :=
  let '(emailOk, fx1) := validateEmail form in
  if negb emailOk then fx1
  else
    let '(passwordOk, fx2) := checkPassword form in
    if negb passwordOk then fx1 ++ fx2
    else fx1 ++ fx2 ++ addContact form answered.

End Signup.

(** ** script.js: starting the application *)

Module Session.

(** [s.startsWith(sub)] and [s.includes(sub)] *)
Fixpoint starts_with (sub s : jsstring) : bool :=
  match sub, s with
  | [], _ => true
  | _ :: _, [] => false
  | c :: sub', d :: s' => (c =? d)%N && starts_with sub' s'
  end.

Fixpoint includes (s sub : jsstring) : bool :=
  starts_with sub s ||
  match s with
  | [] => false
  | _ :: s' => includes s' sub
  end.

(** What the functions do to the page: the effects of the other
    scripts, and the assignments to [innerHTML] and to a style property. *)
Inductive Step : Type :=
  | Did (e : Effect)
  | SetInnerHTML (id html : jsstring)
  | SetStyle (id property value : jsstring).

Definition navigates (s : Step) : bool :=
  match s with
  | Did e => is_redirect e
  | _ => false
  end.

(** The page-level variables [appInitialized] and [currentUser.name]. *)
Record App : Type := {
  appInitialized : bool;
  currentUser_name : jsstring;
}.

(** The parsed body of [/currentUser]. *)
Record UserData : Type := {
  ud_name : option jsstring;
}.

Definition isLegalOrPrivacyPage (path : jsstring) : bool :=
  includes path (str "privacy_policy.html")
  || includes path (str "legal_notice.html").

Definition showPopupMessage (message : jsstring) (isError : bool) : list Step :=
  [ Did (SetTextContent (str "popup-message-box") message);
    SetStyle (str "popup-message-box") (str "backgroundColor")
             (if isError then str "#f8d7da" else []);
    SetStyle (str "popup-message-box") (str "color")
             (if isError then str "#721c24" else []);
    Did (ClassRemove (str "popup-message-box") (str "hidden"));
    Did (ClassAdd (str "popup-message-box") (str "show"));
    Did (SetTimeout
           [ ClassRemove (str "popup-message-box") (str "show");
             SetTimeout [ClassAdd (str "popup-message-box") (str "hidden")] 500 ]
           2500) ].

Definition redirectToHomePage : list Step :=
  showPopupMessage
    (str "No user logged in. Redirecting to the home page...") true
  ++ [Did (SetTimeout [SetLocation (str "../../index.html")] 3000)].

Definition handleUnauthenticatedUser (currentPath : jsstring) : list Step :=
  if isLegalOrPrivacyPage currentPath
  then [Did (Call (str "adjustUIForLegalOrPrivacyPage"))]
  else redirectToHomePage.

Section WithHost.
Context `{Host}.

(** [initialsElement]: whether the page has the element. *)
Definition setHeaderInitials (initialsElement : bool) (name : jsstring)
  : result (list Step) :=
  if negb initialsElement then Ok []
  else
    initials ← getInitials (Some name);
    Ok [SetInnerHTML (str "headerInitials")
                     (str "<a>" ++ initials ++ str "</a>")].

(** [userData?.name || ""] *)
Definition fetched_name (userData : option UserData) : jsstring :=
  let name := userData ≫= ud_name in
  if truthy name then default [] name else [].

(** The variables after the call and what it did. A request that fails
    and a name that makes [getInitials] throw end the call where they
    occur. *)
Definition initApp (st : App) (fetched : Fetched UserData)
    (pathname : jsstring) (initialsElement : bool) : App * list Step :=
  if appInitialized st then (st, [])
  else
    let request :=
      Did (Fetch GET (BASE_URL ++ str "/" ++ str "/currentUser" ++ str ".json")
                 None) in
    match fetched with
    | FetchFails =>
        ({| appInitialized := true; currentUser_name := currentUser_name st |},
         [request])
    | FetchJson userData =>
        let name := fetched_name userData in
        let st' := {| appInitialized := true; currentUser_name := name |} in
        if bool_decide (name = []) then
          (st', request :: handleUnauthenticatedUser pathname)
        else
          match setHeaderInitials initialsElement name with
          | Ok steps => (st', request :: steps ++ [Did (Call (str "waitForSidebar"))])
          | Throws => (st', [request])
          end
    end.

End WithHost.

End Session.

(** ** The summary page *)

Module Summary.

(** [Object.keys(userResponse).map(key => ({ id: key, task:
    userResponse[key] }))]; [Object.keys(null)] throws. *)
Definition parseTasks (userResponse : option (object Task))
  : result (list TaskObj) :=
  match userResponse with
  | None => Throws
  | Some data =>
      Ok (omap (λ key, (λ t, {| to_id := key; task := t |}) <$> get data key)
               data.*1)
  end.

(** The part of [onloadFunc] from the parsed tasks to the counters,
    which the script declares with the value 0. *)
Definition onloadFunc_counters (userResponse : option (object Task))
  : result Counters :=
  tasks ← parseTasks userResponse;
  Ok (updateCount tasks zero_counters).

End Summary.

(** ** The priority buttons of the task form *)

Module Priority.

(** The buttons [task-urgent], [task-medium] and [task-low]. *)
Inductive Id : Type := task_urgent | task_medium | task_low.

Global Instance Id_eq_dec : EqDecision Id.
Proof. solve_decision. Defined.

(** The three classes of a button that the functions read and write. *)
Record ClassList : Type := {
  urgent_active : bool;
  middle_active : bool;
  low_active : bool;
}.

(** A button: its classes and the [fill] of the paths of its icon. *)
Record Button : Type := {
  classList : ClassList;
  fill : jsstring;
}.

Record Page : Type := {
  button : Id → Button;
  taskPriority : jsstring;
}.

Definition set_button (i : Id) (b : Button) (p : Page) : Page :=
  {| button := λ j, if decide (j = i) then b else button p j;
     taskPriority := taskPriority p |}.

Definition getButtonColor (i : Id) (isActive : bool) : jsstring :=
  if isActive then str "white"
  else match i with
       | task_urgent => str "#FF3D00"
       | task_medium => str "#FF9900"
       | task_low => str "#7ae229"
       end.

Definition updateButtonSVG (i : Id) (isActive : bool) (b : Button) : Button :=
  {| classList := classList b; fill := getButtonColor i isActive |}.

Definition checkIfButtonActive (b : Button) : bool :=
  urgent_active (classList b) || middle_active (classList b)
  || low_active (classList b).

Definition remove_active (b : Button) : Button :=
  {| classList := {| urgent_active := false; middle_active := false;
                     low_active := false |};
     fill := fill b |}.

Definition resetAllButtons (buttons : list Id) (p : Page) : Page :=
  foldl (λ p i, set_button i (updateButtonSVG i false (remove_active (button p i))) p)
        p buttons.

Definition add_class (i : Id) (b : Button) : Button :=
  let c := classList b in
  {| classList :=
       match i with
       | task_urgent => {| urgent_active := true;
                           middle_active := middle_active c;
                           low_active := low_active c |}
       | task_medium => {| urgent_active := urgent_active c;
                           middle_active := true;
                           low_active := low_active c |}
       | task_low => {| urgent_active := urgent_active c;
                        middle_active := middle_active c;
                        low_active := true |}
       end;
     fill := fill b |}.

Definition priority_of (i : Id) : jsstring :=
  match i with
  | task_urgent => str "urgent"
  | task_medium => str "medium"
  | task_low => str "low"
  end.

Definition activateButton (i : Id) (p : Page) : Page :=
  let p1 :=
    {| button := button (set_button i (add_class i (button p i)) p);
       taskPriority := priority_of i |} in
  set_button i (updateButtonSVG i true (button p1 i)) p1.

Definition priorityButtons : list Id := [task_urgent; task_medium; task_low].

Definition handlePriorityClick (selectedButton : Id) (p : Page) : Page :=
  let isActive := checkIfButtonActive (button p selectedButton) in
  let p1 := resetAllButtons priorityButtons p in
  if negb isActive then activateButton selectedButton p1
  else {| button := button p1; taskPriority := [] |}.

End Priority.

(** ** Dates and initials *)

(** A part of a destructured array in a template literal: the text of
    [undefined] when the array is too short. *)
Definition part_text (parts : list jsstring) (i : nat) : jsstring :=
  default (str "undefined") (parts !! i).

Definition SLASH : codeunit := 47%N.

(** script.js *)
Definition formatDateToDDMMYYYY (dateString : jsstring) : jsstring :=
  let parts := split HYPHEN dateString in
  part_text parts 2 ++ [SLASH] ++ part_text parts 1 ++ [SLASH]
  ++ part_text parts 0.

Module Assigned.

(** A piece of the generated markup: the initials of a contact, or the
    count of those that are left out. *)
Inductive Piece : Type :=
  | ContactInitial (contact : Contact)
  | MoreContacts (remainingContacts : nat).

(** The loop of [generateInitialsHTML] from index [i] on: [width] is the
    measured width of the initials of a contact. *)
Fixpoint initials_loop (width : Contact → nat) (maxWidth usedWidth : nat)
    (contacts : list Contact) : list Piece * nat :=
  match contacts with
  | [] => ([], 0)
  | contact :: rest =>
      let tempWidth := width contact in
      if usedWidth + tempWidth <=? maxWidth then
        let '(pieces, remaining) :=
          initials_loop width maxWidth (usedWidth + tempWidth) rest in
        (ContactInitial contact :: pieces, remaining)
      else ([], length contacts)
  end.

Definition generateInitialsHTML (width : Contact → nat) (maxWidth : nat)
    (selectedContacts : list Contact) : list Piece :=
  let '(pieces, remainingContacts) :=
    initials_loop width maxWidth 0 selectedContacts in
  if 0 <? remainingContacts then pieces ++ [MoreContacts remainingContacts]
  else pieces.

End Assigned.

(* ===================================================================== *)
(** * Part III. Vocabulary of the statements                             *)
(* ===================================================================== *)

(** ** Counting tasks *)

Definition has_category (lit : string) (taskObj : TaskObj) : Prop :=
  category (task taskObj) = Some (str lit).

Definition is_urgent (taskObj : TaskObj) : Prop :=
  priority (task taskObj) = Some (str "urgent").

Global Instance has_category_dec lit taskObj : Decision (has_category lit taskObj).
Proof. unfold has_category. apply _. Defined.

Global Instance is_urgent_dec taskObj : Decision (is_urgent taskObj).
Proof. unfold is_urgent. apply _. Defined.

(** How many elements satisfy a decidable property. *)
Definition how_many {A} (P : A → Prop) `{∀ x, Decision (P x)} (l : list A) : nat :=
  length (filter P l).

(** ** Subtasks *)

Definition is_completed (kv : list N * Subtask) : Prop :=
  st_completed kv.2 = true.

Global Instance is_completed_dec kv : Decision (is_completed kv).
Proof. unfold is_completed. apply _. Defined.

Definition toggled (s : Subtask) : Subtask :=
  {| st_name := st_name s; st_completed := negb (st_completed s) |}.

(** ** Assignees *)

Definition snapshot_of (contact : Contact) : Snapshot :=
  {| snap_name := name contact; snap_color := color contact |}.

Definition assign (assignedTo : gmap (list N) Snapshot) (contact : Contact)
    (index : nat) : gmap (list N) Snapshot :=
  <[contact_label index := snapshot_of contact]> assignedTo.

(** ** Credentials *)

Definition credentials_match (email password : list N) (c : StoredContact)
  : Prop :=
  sc_email c = email ∧ sc_password c = Some password.

(** ** Strings of a character class, and the shape of an email *)

Definition all_in (p : N → bool) (s : list N) : Prop :=
  Forall (λ c, p c = true) s.

(** What the email pattern accepts, spelled out: a non-empty local part
    without white space or [@], an [@], a non-empty domain label of
    letters, digits and hyphens, a dot, and two to six letters. *)
Definition email_shape (s : list N) : Prop :=
  ∃ local domain tld : list N,
    s = local ++ [AT] ++ domain ++ [DOT] ++ tld ∧
    local ≠ [] ∧ all_in not_space_or_at local ∧
    domain ≠ [] ∧ all_in alnum_or_hyphen domain ∧
    2 ≤ length tld ≤ 6 ∧ all_in is_alpha tld.

(** ** Order *)

(** [a] may stand before [b] in an array sorted with [cmp]. *)
Definition before {A} (cmp : A → A → Z) (a b : A) : Prop := (cmp a b ≤ 0)%Z.

Definition name_order `{Host} (a b : Contact) : Prop :=
  (localeCompare (name a) (name b) ≤ 0)%Z.

(** ** The store and the loaded contacts *)

(** A store as the scripts leave it: keys are unique, and a record that
    carries an [id] carries its own key. *)
Definition store_wf (data : list (list N * StoredContact)) : Prop :=
  NoDup data.*1 ∧
  Forall (λ entry, sc_id entry.2 = None ∨ sc_id entry.2 = Some entry.1) data.

Global Instance store_wf_dec data : Decision (store_wf data).
Proof. unfold store_wf. apply _. Defined.

(** The colour of a loaded contact is the stored one when there is one,
    and otherwise one generated from the draws of [g] at some position. *)
Definition color_from (g : Rng) (raw : StoredContact) (c : Contact) : Prop :=
  if truthy (sc_color raw) then Some (color c) = sc_color raw
  else ∃ p, color c = fst (generateRandomColor {| draws := draws g; pos := p |}).

(** [#] and six hexadecimal digits. *)
Definition hex_color (s : list N) : Prop :=
  ∃ digits, s = str "#" ++ digits ∧ length digits = 6 ∧
            Forall (λ c, c ∈ letters) digits.

Definition built_from (g : Rng) (entry : list N * StoredContact) (c : Contact)
  : Prop :=
  id c = default entry.1 (sc_id entry.2) ∧
  name c = sc_name entry.2 ∧
  email c = sc_email entry.2 ∧
  phone c = sc_phone entry.2 ∧
  password c = sc_password entry.2 ∧
  color_from g entry.2 c.

(** [data[contact.id]] exists and has no colour. *)
Definition backfill (data : list (list N * StoredContact)) (c : Contact) : bool :=
  match get data (id c) with
  | Some raw => negb (truthy (sc_color raw))
  | None => false
  end.

Definition patch_of (c : Contact) : Effect :=
  Fetch PATCH (BASE_URL ++ str "/contacts/" ++ id c ++ str ".json")
        (Some (JObject [(str "color", JString (color c))])).

(** ** The rendered list *)

Definition letters_of (nodes : list Node) : list (list N) :=
  omap (λ n, match n with LetterElement l => Some l | _ => None end) nodes.

Definition contacts_of (nodes : list Node) : list Contact :=
  omap (λ n, match n with ContactElement c _ => Some c | _ => None end) nodes.

Section RenderedList.
Context `{Host}.

(** The letters displayed after a run of contacts. *)
Fixpoint seen (displayed : list (list N)) (cs : list Contact) : list (list N) :=
  match cs with
  | [] => displayed
  | c :: cs' =>
      seen (if decide (firstLetter c ∈ displayed) then displayed
            else displayed ++ [firstLetter c]) cs'
  end.

(** The nodes appended for a run of contacts. *)
Fixpoint emitted (displayed : list (list N)) (cs : list Contact) : list Node :=
  match cs with
  | [] => []
  | c :: cs' =>
      if decide (firstLetter c ∈ displayed)
      then ContactElement c (initials c) :: emitted displayed cs'
      else LetterElement (firstLetter c) :: DividerElement
           :: ContactElement c (initials c)
           :: emitted (displayed ++ [firstLetter c]) cs'
  end.

End RenderedList.

(** ** Inputs for concrete runs *)

Definition anna : StoredContact :=
  {| sc_id := None; sc_name := str "Anna Bell"; sc_email := str "anna@join.de";
     sc_phone := Some (str "0151"); sc_password := Some (str "pw1");
     sc_color := Some (str "#112233") |}.

Definition bob : StoredContact :=
  {| sc_id := Some (str "k2"); sc_name := str "bob Ray";
     sc_email := str "bob@join.de"; sc_phone := None;
     sc_password := None; sc_color := None |}.

Definition alma : StoredContact :=
  {| sc_id := None; sc_name := str "alma Cole"; sc_email := str "alma@join.de";
     sc_phone := None; sc_password := Some (str "pw3"); sc_color := Some [] |}.

Definition demo_store : list (list N * StoredContact) :=
  [(str "k2", bob); (str "k1", anna); (str "k3", alma)].

Definition demo_root : Root := {| root_contacts := Some demo_store |}.

Definition demo_rng : Rng := {| draws := λ k, k `mod` 16; pos := 0 |}.

Definition demo_form : ContactForm :=
  {| contact_name_value := str "  Anna Bell ";
     contact_email_value := str "anna@join.de";
     contact_phone_value := str "0151 " |}.

Definition demo_task (cat prio : option (list N)) : TaskObj :=
  {| to_id := str "t";
     task := {| title := str "T"; description := []; dueDate := [];
                priority := prio; badge := None; category := cat;
                assignedTo := None;
                subtasks := Some {[ str "0" := {| st_name := str "Buy";
                                                 st_completed := false |} ]} |} |}.

Definition demo_tasks : list TaskObj :=
  [ demo_task (Some (str "To-Do")) (Some (str "urgent"));
    demo_task (Some (str "Done")) (Some (str "low"));
    demo_task None None ].

Definition anna_loaded : Contact :=
  {| id := str "k1"; name := str "Anna Bell"; email := str "anna@join.de";
     phone := None; password := None; color := str "#112233" |}.

Definition bob_loaded : Contact :=
  {| id := str "k2"; name := str "bob Ray"; email := str "bob@join.de";
     phone := None; password := None; color := str "#012345" |}.

Definition demo_selected : list Contact := [anna_loaded; bob_loaded].

(** A collection with records that carry the id of another record, and
    one whose record carries an id that is no key at all. *)
Definition foreign_store : list (list N * StoredContact) :=
  [ (str "k1", {| sc_id := Some (str "k2"); sc_name := str "Anna Bell";
                  sc_email := str "anna@join.de"; sc_phone := None;
                  sc_password := None; sc_color := Some (str "#111111") |});
    (str "k2", {| sc_id := None; sc_name := str "Bob Ray";
                  sc_email := str "bob@join.de"; sc_phone := None;
                  sc_password := None; sc_color := None |});
    (str "k3", {| sc_id := Some (str "k1"); sc_name := str "Cara Dean";
                  sc_email := str "cara@join.de"; sc_phone := None;
                  sc_password := None; sc_color := None |}) ].

Definition orphan_store : list (list N * StoredContact) :=
  [ (str "k1", {| sc_id := Some (str "zz"); sc_name := str "Anna Bell";
                  sc_email := str "anna@join.de"; sc_phone := None;
                  sc_password := None; sc_color := Some (str "#111111") |}) ].

(** ** White space at the ends of a string *)

(** The string is empty or starts with a code unit that is not white
    space. *)
Definition head_ok (s : list N) : Prop :=
  match s with [] => True | c :: _ => is_space c = false end.

Definition all_space (s : list N) : Prop := Forall (λ c, is_space c = true) s.

(** ** The add-task page *)

(** A run of clicks on contact items: the item's id and the state of its
    checkbox after the click. *)
Definition after_clicks (contacts : list Contact)
    (clicks : list (list N * bool)) (selected : list Contact) : list Contact :=
  foldl (λ sel click,
           fst (AddTask.handleContactSelection contacts click.1 click.2 sel))
        selected clicks.

(** What the user can do to the subtasks of the form. *)
Inductive EditorAction : Type :=
  | TypeInput (text : list N)
  | AddSubtask
  | DeleteSubtask (index : nat)
  | SaveSubtask (index : nat) (editInput : list N)
  | ClearSubtasks.

(** One action; an action that throws leaves the state as it was. *)
Definition editor_step (ed : AddTask.Editor) (a : EditorAction) : AddTask.Editor :=
  match a with
  | TypeInput text =>
      {| AddTask.subtasks_array := AddTask.subtasks_array ed;
         AddTask.input_value := text;
         AddTask.editingSubtaskIndex := AddTask.editingSubtaskIndex ed |}
  | AddSubtask => fst (AddTask.addSubtask ed)
  | DeleteSubtask index => fst (AddTask.deleteSubtask index ed)
  | SaveSubtask index editInput =>
      match AddTask.saveSubtask index editInput ed with
      | Ok (ed', _) => ed'
      | Throws => ed
      end
  | ClearSubtasks => AddTask.clearSubtasks ed
  end.

Definition empty_editor : AddTask.Editor :=
  {| AddTask.subtasks_array := []; AddTask.input_value := [];
     AddTask.editingSubtaskIndex := None |}.

(** A subtask as the form creates it. *)
Definition fresh_subtask (s : Subtask) : Prop :=
  st_completed s = false ∧ st_name s ≠ [] ∧ trim (st_name s) = st_name s.

(** ** The board *)

(** The subtasks of the task at an index, if both exist. *)
Definition subtasks_at (tasks : list TaskObj) (i : nat)
  : option (gmap (list N) Subtask) :=
  tasks !! i ≫= λ taskObj, subtasks (task taskObj).

Definition flag (b : bool) : nat := if b then 1 else 0.

(** The step of the loop of [getCurrentSubtasks]. *)
Definition collect_item (subtasks : gmap (list N) Subtask) (text : list N)
    (index : nat) : gmap (list N) Subtask :=
  let subtaskName := trim text in
  if truthy_str subtaskName
  then <[str (pretty index) :=
           {| st_name := subtaskName; st_completed := false |}]> subtasks
  else subtasks.

(** The field names that [createUpdatedContact] writes itself. *)
Definition edited_fields : list (list N) :=
  [str "id"; str "name"; str "email"; str "phone"].

(** The field of a fetched record; nothing for [null]. *)
Definition field_of (existing : option (list (list N * Json))) (key : list N)
  : option Json :=
  get (default [] existing) key.

(** ** Addresses accepted at sign-up *)

(** A non-empty local part of the listed characters, an at sign, a
    non-empty domain of letters, digits, dots and hyphens, a dot, and at
    least two letters. *)
Definition signup_email_shape (s : list N) : Prop :=
  ∃ local domain tld : list N,
    s = local ++ [AT] ++ domain ++ [DOT] ++ tld ∧
    local ≠ [] ∧ all_in Signup.local_char local ∧
    domain ≠ [] ∧ all_in Signup.domain_char domain ∧
    2 ≤ length tld ∧ all_in is_alpha tld.

(** The sign-up form is accepted. *)
Definition signup_accepted (form : Signup.Form) : Prop :=
  signup_email_shape (Signup.email_value form) ∧
  trim (Signup.password_value form) = trim (Signup.confirmPassword_value form) ∧
  Signup.acceptPolicy_checked form = true.

(** The record that the store holds for the object sent by
    [Signup.addContact]. *)
Definition signed_up (form : Signup.Form) : StoredContact :=
  {| sc_id := None;
     sc_name := Signup.name_value form;
     sc_email := Signup.email_value form;
     sc_phone := None;
     sc_password := Some (trim (Signup.password_value form));
     sc_color := None |}.

(** The store after the new record has been added under [key]. *)
Definition store_add (store : list (list N * StoredContact)) (key : list N)
    (c : StoredContact) : list (list N * StoredContact) :=
  store ++ [(key, c)].

(** ** Pages *)

(** [sub] occurs in [s]. *)
Definition occurs_in (sub s : list N) : Prop := ∃ a b, s = a ++ sub ++ b.

(** The pages that a visitor without a session may read. *)
Definition legal_or_privacy (path : list N) : Prop :=
  occurs_in (str "privacy_policy.html") path
  ∨ occurs_in (str "legal_notice.html") path.

(** ** Counting *)

(** The task is in one of the four columns that the summary counts. *)
Definition known_category (taskObj : TaskObj) : Prop :=
  has_category "To-Do" taskObj ∨ has_category "Done" taskObj
  ∨ has_category "In Progress" taskObj ∨ has_category "Await Feedback" taskObj.

(** The sum of the four column counters. *)
Definition column_sum (k : Counters) : nat :=
  ToDoCount k + doneCount k + progressCount k + feedbackCount k.

(** The element of the task array for an entry of the store. *)
Definition task_entry (entry : list N * Task) : TaskObj :=
  {| to_id := entry.1; task := entry.2 |}.

(** ** Priority buttons *)

(** The button carries one of the three active classes. *)
Definition has_active_class (b : Priority.Button) : bool :=
  Priority.urgent_active (Priority.classList b)
  || Priority.middle_active (Priority.classList b)
  || Priority.low_active (Priority.classList b).

(** The priority that a button stands for. *)
Definition priority_word (i : Priority.Id) : list N :=
  match i with
  | Priority.task_urgent => str "urgent"
  | Priority.task_medium => str "medium"
  | Priority.task_low => str "low"
  end.

(** The active button: its own active class and no other, the icon in
    white. *)
Definition active_look (i : Priority.Id) : Priority.Button :=
  {| Priority.classList :=
       match i with
       | Priority.task_urgent =>
           {| Priority.urgent_active := true; Priority.middle_active := false;
              Priority.low_active := false |}
       | Priority.task_medium =>
           {| Priority.urgent_active := false; Priority.middle_active := true;
              Priority.low_active := false |}
       | Priority.task_low =>
           {| Priority.urgent_active := false; Priority.middle_active := false;
              Priority.low_active := true |}
       end;
     Priority.fill := str "white" |}.

(** A button that is not active: no active class, the icon in the
    colour of the button. *)
Definition idle_look (i : Priority.Id) : Priority.Button :=
  {| Priority.classList :=
       {| Priority.urgent_active := false; Priority.middle_active := false;
          Priority.low_active := false |};
     Priority.fill :=
       match i with
       | Priority.task_urgent => str "#FF3D00"
       | Priority.task_medium => str "#FF9900"
       | Priority.task_low => str "#7ae229"
       end |}.

(** ** Loaded contacts *)

(** Two loaded contacts of the same record: they agree in everything
    but, when the record has no colour, the colour generated for it. *)
Definition same_record (data : list (list N * StoredContact))
    (c c' : Contact) : Prop :=
  id c = id c' ∧ name c = name c' ∧ email c = email c' ∧
  phone c = phone c' ∧ password c = password c' ∧
  ∀ raw, get data (id c) = Some raw → truthy (sc_color raw) = true →
         color c = color c'.

(** ** Widths *)

Definition total_width (width : Contact → nat) (cs : list Contact) : nat :=
  sum_list_with width cs.

(** ** Further inputs of the concrete runs *)

Definition blank_name_form : ContactForm :=
  {| contact_name_value := str "   ";
     contact_email_value := str "anna@join.de";
     contact_phone_value := str "0151" |}.

Definition demo_editor : AddTask.Editor :=
  {| AddTask.subtasks_array :=
       [{| st_name := str "Buy"; st_completed := false |}];
     AddTask.input_value := str " Call Bob ";
     AddTask.editingSubtaskIndex := Some 0 |}.

Definition demo_board : Board.State :=
  {| Board.tasks := demo_tasks; Board.currentTaskIndex := 0;
     Board.subtaskCounter := 0; Board.newSubtaskInput := str " Pack " |}.

Definition demo_subtasks : gmap (list N) Subtask :=
  {[ str "0" := {| st_name := str "Buy"; st_completed := false |} ]}.

Definition demo_existing : list (list N * Json) :=
  [ (str "color", JString (str "#112233"));
    (str "email", JString (str "anna@join.de"));
    (str "name", JString (str "Anna Bell"));
    (str "password", JString (str "pw1")) ].

Definition demo_edit_form : EditContact.Form :=
  {| EditContact.contact_name2 := Some (str " Anna Ball ");
     EditContact.contact_email2 := Some (str "anna@join.de");
     EditContact.contact_phone2 := Some (str "0152") |}.

Definition demo_signup : Signup.Form :=
  {| Signup.name_value := str "Cara Dean";
     Signup.email_value := str "cara@join.de";
     Signup.password_value := str " pw9 ";
     Signup.confirmPassword_value := str "pw9";
     Signup.acceptPolicy_checked := true |}.

Definition demo_app : Session.App :=
  {| Session.appInitialized := false; Session.currentUser_name := [] |}.

Definition demo_task_store : list (list N * Task) :=
  [ (str "t1", task (demo_task (Some (str "To-Do")) (Some (str "urgent"))));
    (str "t2", task (demo_task None None)) ].

Definition demo_page : Priority.Page :=
  {| Priority.button := λ _,
       {| Priority.classList :=
            {| Priority.urgent_active := false;
               Priority.middle_active := false;
               Priority.low_active := false |};
          Priority.fill := [] |};
     Priority.taskPriority := [] |}.

(* ===================================================================== *)
(** * Part IV. Properties                                                *)
(* ===================================================================== *)

(** ** Strings *)

Lemma str_guest_no_space : SPACE ∉ str "guest".
Proof. vm_compute. intros Hin. repeat (inversion Hin as [|? ? ? Hin']; subst; try discriminate; clear Hin; rename Hin' into Hin). Qed.

Lemma split_not_nil sep s : split sep s ≠ [].
Proof.
  destruct s as [|c s]; simpl; [done|].
  destruct (c =? sep)%N; [done|]. by destruct (split sep s).
Qed.

Lemma split_length_pos sep s : 1 ≤ length (split sep s).
Proof.
  pose proof (split_not_nil sep s). destruct (split sep s); simpl; [done|lia].
Qed.

(** The segments past the first are as many as the separators. *)
Lemma split_length sep s :
  length (split sep s) = S (length (filter (λ c, c = sep) s)).
Proof.
  induction s as [|c s IH]; simpl; [done|].
  destruct (N.eqb_spec c sep) as [->|Hne].
  - rewrite filter_cons_True by done. simpl. by rewrite IH.
  - rewrite filter_cons_False by done.
    pose proof (split_not_nil sep s).
    destruct (split sep s) as [|seg segs]; [done|]. simpl in *. done.
Qed.

Lemma split_two_parts_iff sep s : 2 ≤ length (split sep s) ↔ sep ∈ s.
Proof.
  rewrite split_length. split.
  - intros Hlen. destruct (filter (λ c, c = sep) s) as [|c l] eqn:Hf; simpl in *; [lia|].
    assert (c ∈ filter (λ c, c = sep) s) as Hc by (rewrite Hf; left).
    apply list_elem_of_filter in Hc as [-> ?]. done.
  - intros Hin.
    assert (sep ∈ filter (λ c, c = sep) s) as Hc by (by apply list_elem_of_filter).
    destruct (filter (λ c, c = sep) s); [by apply elem_of_nil in Hc|simpl; lia].
Qed.

(** Two adjacent separators leave an empty segment between them. *)
Lemma split_adjacent_tail sep a b :
  [] ∈ tail (split sep (a ++ sep :: sep :: b)).
Proof.
  induction a as [|c a IH]; simpl.
  - rewrite !N.eqb_refl. simpl. left.
  - destruct (c =? sep)%N; simpl.
    + destruct (split sep (a ++ sep :: sep :: b)); simpl in *; [done|by right].
    + destruct (split sep (a ++ sep :: sep :: b)); simpl in *; [|done].
      by apply elem_of_nil in IH.
Qed.

Lemma split_adjacent sep a b : [] ∈ split sep (a ++ sep :: sep :: b).
Proof.
  pose proof (split_adjacent_tail sep a b) as Hin.
  destruct (split sep (a ++ sep :: sep :: b)); simpl in *; [done|by right].
Qed.

(** ** Header initials (script.js) *)

Section ScriptFacts.
Context `{Host}.

Lemma mapM_initial_of_ok (segs : list jsstring) :
  Forall (λ seg, seg ≠ []) segs →
  mapM initial_of segs = Ok ((λ seg, toUpperCase (charAt0 seg)) <$> segs).
Proof.
  induction 1 as [|seg segs Hseg _ IH]; simpl; [done|].
  destruct seg as [|c seg]; [done|]. simpl. by rewrite IH.
Qed.

Lemma mapM_initial_of_throws (segs : list jsstring) :
  [] ∈ segs → mapM initial_of segs = Throws.
Proof.
  induction segs as [|seg segs IH]; intros Hin.
  - by apply elem_of_nil in Hin.
  - destruct seg as [|c seg]; [done|].
    apply elem_of_cons in Hin as [?|Hin]; [done|].
    simpl. by rewrite IH.
Qed.

Lemma getInitials_unfold (n : jsstring) :
  n ≠ [] → n ≠ str "guest" →
  getInitials (Some n) =
    parts ← mapM initial_of (split SPACE n); Ok (take 2 (concat parts)).
Proof.
  intros Hne Hguest. unfold getInitials.
  destruct n as [|c n]; [done|].
  rewrite bool_decide_eq_false_2 by done. done.
Qed.

(** C10. [getInitials] answers "G" for a missing or empty name and for
    the name "guest". For any other name whose space-separated segments
    are all non-empty it returns, without throwing, the upper-cased first
    characters of the segments cut to at most two code units. The
    condition on the segments cannot be dropped: with an empty segment,
    as two adjacent spaces produce, the call throws. *)
Theorem getInitials_spec :
  getInitials None = Ok (str "G") ∧
  getInitials (Some []) = Ok (str "G") ∧
  getInitials (Some (str "guest")) = Ok (str "G") ∧
  (∀ n : jsstring,
     n ≠ [] → n ≠ str "guest" →
     Forall (λ seg, seg ≠ []) (split SPACE n) →
     ∃ out,
       getInitials (Some n) = Ok out ∧
       out = take 2 (concat ((λ seg, toUpperCase (charAt0 seg)) <$> split SPACE n)) ∧
       length out ≤ 2) ∧
  (∀ n : jsstring,
     n ≠ [] → n ≠ str "guest" →
     [] ∈ split SPACE n →
     getInitials (Some n) = Throws) ∧
  (∀ a b : jsstring,
     getInitials (Some (a ++ [SPACE; SPACE] ++ b)) = Throws).
Proof.
  split_and!; try done.
  - intros n Hne Hguest Hsegs.
    rewrite getInitials_unfold, mapM_initial_of_ok by done.
    eexists. split_and!; [done..|]. rewrite length_take. lia.
  - intros n Hne Hguest Hin.
    by rewrite getInitials_unfold, mapM_initial_of_throws.
  - intros a b.
    rewrite getInitials_unfold, mapM_initial_of_throws; [done| | |].
    + apply split_adjacent.
    + by destruct a.
    + intros Heq. apply str_guest_no_space. rewrite <- Heq.
      apply elem_of_app. right. left.
Qed.

End ScriptFacts.

(** ** The summary counters *)

Lemma how_many_cons {A} (P : A → Prop) `{∀ x, Decision (P x)} x l :
  how_many P (x :: l) = (if decide (P x) then 1 else 0) + how_many P l.
Proof. unfold how_many. rewrite filter_cons. by destruct (decide (P x)). Qed.

Lemma how_many_le {A} (P : A → Prop) `{∀ x, Decision (P x)} l :
  how_many P l ≤ length l.
Proof. apply length_filter. Qed.

Lemma categories_distinct :
  str "To-Do" ≠ str "Done" ∧ str "To-Do" ≠ str "In Progress" ∧
  str "To-Do" ≠ str "Await Feedback" ∧ str "Done" ≠ str "In Progress" ∧
  str "Done" ≠ str "Await Feedback" ∧ str "In Progress" ≠ str "Await Feedback".
Proof. vm_compute. split_and!; discriminate. Qed.

(** One step of the loop adds one to the total, one to the column of the
    task's category if it is one of the four, one to the urgent counter
    if the priority is "urgent". *)
Lemma count_task_spec (k : Counters) (t : TaskObj) :
  let k' := count_task k t in
  taskCount k' = S (taskCount k) ∧
  ToDoCount k' = (if decide (has_category "To-Do" t) then 1 else 0) + ToDoCount k ∧
  progressCount k' = (if decide (has_category "In Progress" t) then 1 else 0) + progressCount k ∧
  feedbackCount k' = (if decide (has_category "Await Feedback" t) then 1 else 0) + feedbackCount k ∧
  doneCount k' = (if decide (has_category "Done" t) then 1 else 0) + doneCount k ∧
  urgencyCount k' = (if decide (is_urgent t) then 1 else 0) + urgencyCount k.
Proof.
  destruct categories_distinct as (D1 & D2 & D3 & D4 & D5 & D6).
  unfold count_task, strict_eq, has_category, is_urgent.
  repeat case_bool_decide; repeat case_decide; simpl; split_and!;
    try reflexivity; congruence.
Qed.

Lemma updateCount_from (tasks : list TaskObj) (k : Counters) :
  let k' := updateCount tasks k in
  taskCount k' = taskCount k + length tasks ∧
  ToDoCount k' = ToDoCount k + how_many (has_category "To-Do") tasks ∧
  progressCount k' = progressCount k + how_many (has_category "In Progress") tasks ∧
  feedbackCount k' = feedbackCount k + how_many (has_category "Await Feedback") tasks ∧
  doneCount k' = doneCount k + how_many (has_category "Done") tasks ∧
  urgencyCount k' = urgencyCount k + how_many is_urgent tasks.
Proof.
  revert k. induction tasks as [|t tasks IH]; intros k; simpl.
  - unfold how_many. simpl. lia.
  - destruct (IH (count_task k t)) as (E1 & E2 & E3 & E4 & E5 & E6).
    destruct (count_task_spec k t) as (S1 & S2 & S3 & S4 & S5 & S6).
    unfold updateCount in *. rewrite !how_many_cons.
    rewrite E1, E2, E3, E4, E5, E6, S1, S2, S3, S4, S5, S6. lia.
Qed.

(** C7. From counters at zero, [updateCount] leaves in [taskCount] the
    number of tasks, in each column counter the number of tasks whose
    category is exactly that column's name, and in [urgencyCount] the
    number of tasks whose priority is exactly "urgent". A task of any
    other category adds to [taskCount] only. *)
Theorem updateCount_spec (tasks : list TaskObj) :
  let k := updateCount tasks zero_counters in
  taskCount k = length tasks ∧
  ToDoCount k = how_many (has_category "To-Do") tasks ∧
  progressCount k = how_many (has_category "In Progress") tasks ∧
  feedbackCount k = how_many (has_category "Await Feedback") tasks ∧
  doneCount k = how_many (has_category "Done") tasks ∧
  urgencyCount k = how_many is_urgent tasks ∧
  (∀ t : TaskObj,
     let k1 := updateCount (tasks ++ [t]) zero_counters in
     ¬ has_category "To-Do" t → ¬ has_category "In Progress" t →
     ¬ has_category "Await Feedback" t → ¬ has_category "Done" t →
     taskCount k1 = S (taskCount k) ∧
     ToDoCount k1 = ToDoCount k ∧ progressCount k1 = progressCount k ∧
     feedbackCount k1 = feedbackCount k ∧ doneCount k1 = doneCount k).
Proof.
  split_and!; try (apply (updateCount_from tasks zero_counters)).
  intros t k1 N1 N2 N3 N4. subst k1. unfold updateCount.
  rewrite foldl_app. simpl.
  destruct (count_task_spec (foldl count_task zero_counters tasks) t)
    as (S1 & S2 & S3 & S4 & S5 & _).
  rewrite S1, S2, S3, S4, S5. repeat case_decide; done.
Qed.

(** ** Subtask progress (boardSubtasks.js) *)

(** Counting the values of a map that satisfy a property is measuring
    the map restricted to them. *)
Lemma length_filter_values {A} (P : A → Prop) `{∀ x, Decision (P x)}
    (m : gmap (list N) A) :
  length (filter P (map_to_list m).*2) = size (filter (λ kv, P kv.2) m).
Proof.
  induction m as [|i x m Hi Hfirst IH] using map_first_key_ind.
  - by rewrite map_filter_empty, map_to_list_empty, map_size_empty.
  - rewrite map_to_list_insert_first_key by done.
    rewrite fmap_cons, filter_cons. simpl.
    destruct (decide (P x)) as [HP|HP].
    + rewrite map_filter_insert_True by done.
      rewrite map_size_insert_None by (by rewrite map_lookup_filter_None; left).
      simpl. by rewrite IH.
    + rewrite map_filter_insert_False by done.
      by rewrite delete_id.
Qed.

Lemma calculateSubtaskProgress_counts (subs : gmap (list N) Subtask) :
  total (calculateSubtaskProgress subs) = size subs ∧
  completed (calculateSubtaskProgress subs) = size (filter is_completed subs).
Proof.
  unfold calculateSubtaskProgress. rewrite length_fmap, length_map_to_list.
  case_bool_decide as Hz; simpl.
  - split; [done|]. apply map_size_empty_inv in Hz as ->.
    by rewrite map_filter_empty, map_size_empty.
  - split; [done|].
    exact (length_filter_values (λ s, st_completed s = true) subs).
Qed.

(** C3. [calculateSubtaskProgress] returns as [total] the number of
    entries of the subtasks map and as [completed] the number of entries
    whose [completed] field is [true]; so [completed] never exceeds
    [total], and the empty map gives 0 and 0. *)
Theorem calculateSubtaskProgress_spec (subs : gmap (list N) Subtask) :
  let p := calculateSubtaskProgress subs in
  total p = size subs ∧
  completed p = size (filter is_completed subs) ∧
  completed p ≤ total p ∧
  calculateSubtaskProgress ∅ = {| completed := 0; total := 0 |}.
Proof.
  destruct (calculateSubtaskProgress_counts subs) as [Ht Hc].
  simpl. split_and!; [done..| |done].
  rewrite Ht, Hc. apply map_subseteq_size, map_filter_subseteq.
Qed.

(** The label of the progress bar shows the same two numbers. *)
Lemma subtaskBarCounts_agree (subs : gmap (list N) Subtask) :
  subtaskBarCounts subs = calculateSubtaskProgress subs.
Proof.
  destruct (calculateSubtaskProgress_counts subs) as [Ht Hc].
  unfold subtaskBarCounts.
  rewrite (length_filter_values (λ s, Is_true (st_completed s))).
  rewrite length_fmap, length_map_to_list.
  destruct (calculateSubtaskProgress subs) as [c t]. simpl in *. subst. f_equal.
  f_equal. apply map_filter_ext. intros i x _. unfold is_completed. simpl.
  by destruct (st_completed x).
Qed.

(** ** Toggling a subtask (boardSubtasks.js) *)

Lemma toggled_involutive (s : Subtask) : toggled (toggled s) = s.
Proof. destruct s as [n []]; reflexivity. Qed.

Lemma set_subtasks_id (t : Task) (subs : gmap (list N) Subtask) :
  subtasks t = Some subs → set_subtasks t subs = t.
Proof. destruct t; simpl; intros ->; reflexivity. Qed.

Lemma set_subtasks_twice (t : Task) (s1 s2 : gmap (list N) Subtask) :
  set_subtasks (set_subtasks t s1) s2 = set_subtasks t s2.
Proof. reflexivity. Qed.

Lemma toggleSubtask_ok (tasks : list TaskObj) (taskIndex : nat)
    (subtaskId : list N) (taskObj : TaskObj) (subs : gmap (list N) Subtask)
    (subtask : Subtask) :
  tasks !! taskIndex = Some taskObj →
  subtasks (task taskObj) = Some subs →
  subs !! subtaskId = Some subtask →
  toggleSubtask taskIndex subtaskId tasks =
    Ok (<[taskIndex :=
           {| to_id := to_id taskObj;
              task := set_subtasks (task taskObj)
                        (<[subtaskId := toggled subtask]> subs) |}]> tasks,
        [Call (str "updateSubtaskBar"); Call (str "updatePopupSubtasks")]).
Proof. intros Ht Hs Hsub. unfold toggleSubtask. by rewrite Ht, Hs, Hsub. Qed.

(** C4. For a task of the array and a subtask id present in its
    subtasks, [toggleSubtask] negates the [completed] flag of that
    subtask and changes nothing else: not the subtask's name, no other
    subtask, no other field of the task, no other task. A second call
    with the same arguments gives back the original array. *)
Theorem toggleSubtask_spec (tasks : list TaskObj) (taskIndex : nat)
    (subtaskId : list N) (taskObj : TaskObj) (subs : gmap (list N) Subtask)
    (subtask : Subtask) :
  tasks !! taskIndex = Some taskObj →
  subtasks (task taskObj) = Some subs →
  subs !! subtaskId = Some subtask →
  ∃ tasks' fx taskObj' subs' subtask',
    toggleSubtask taskIndex subtaskId tasks = Ok (tasks', fx) ∧
    tasks' !! taskIndex = Some taskObj' ∧
    subtasks (task taskObj') = Some subs' ∧
    subs' !! subtaskId = Some subtask' ∧
    st_completed subtask' = negb (st_completed subtask) ∧
    st_name subtask' = st_name subtask ∧
    (∀ other, other ≠ subtaskId → subs' !! other = subs !! other) ∧
    to_id taskObj' = to_id taskObj ∧
    title (task taskObj') = title (task taskObj) ∧
    description (task taskObj') = description (task taskObj) ∧
    dueDate (task taskObj') = dueDate (task taskObj) ∧
    priority (task taskObj') = priority (task taskObj) ∧
    badge (task taskObj') = badge (task taskObj) ∧
    category (task taskObj') = category (task taskObj) ∧
    assignedTo (task taskObj') = assignedTo (task taskObj) ∧
    length tasks' = length tasks ∧
    (∀ j, j ≠ taskIndex → tasks' !! j = tasks !! j) ∧
    (∃ fx', toggleSubtask taskIndex subtaskId tasks' = Ok (tasks, fx')).
Proof.
  intros Ht Hs Hsub.
  pose proof (lookup_lt_Some _ _ _ Ht) as Hlt.
  eexists _, _, _, _, _.
  split; [by apply toggleSubtask_ok|].
  split; [by apply list_lookup_insert_eq|]. simpl.
  split; [reflexivity|].
  split; [by apply lookup_insert_eq|]. simpl.
  split_and!; try reflexivity.
  - intros other Hne. by apply lookup_insert_ne.
  - by rewrite length_insert.
  - intros j Hne. by apply list_lookup_insert_ne.
  - eexists.
    rewrite (toggleSubtask_ok _ _ _
               {| to_id := to_id taskObj;
                  task := set_subtasks (task taskObj)
                            (<[subtaskId := toggled subtask]> subs) |}
               (<[subtaskId := toggled subtask]> subs) (toggled subtask));
      [|by apply list_lookup_insert_eq|reflexivity|by apply lookup_insert_eq].
    f_equal. f_equal. rewrite list_insert_insert_eq. simpl.
    rewrite set_subtasks_twice, insert_insert_eq, toggled_involutive.
    rewrite (insert_id subs) by done. rewrite set_subtasks_id by done.
    apply list_insert_id. by destruct taskObj.
Qed.

(** ** Assignees of a new task *)

Global Instance str_inj : Inj (=) (=) str.
Proof.
  intros s1 s2 Heq. unfold str in Heq.
  rewrite <- (string_of_list_ascii_of_string s1),
          <- (string_of_list_ascii_of_string s2).
  f_equal. revert Heq. generalize (list_ascii_of_string s2).
  induction (list_ascii_of_string s1) as [|a l IH]; intros [|b l'] Heq;
    simplify_eq/=; [done|].
  f_equal; [|by apply IH].
  rewrite <- (ascii_N_embedding a), <- (ascii_N_embedding b). congruence.
Qed.

Global Instance contact_label_inj : Inj (=) (=) contact_label.
Proof.
  intros i j Heq. unfold contact_label in Heq.
  apply app_inv_head, (inj str), (inj pretty) in Heq. lia.
Qed.

(** Keys outside the labels of the remaining indices keep their value. *)
Lemma reduce_assign_other (l : list Contact) acc index key :
  (∀ i, i < length l → key ≠ contact_label (index + i)) →
  reduce assign acc index l !! key = acc !! key.
Proof.
  revert acc index. induction l as [|c l IH]; intros acc index Hkey; simpl; [done|].
  rewrite IH.
  - unfold assign. apply lookup_insert_ne. intros Heq.
    apply (Hkey 0); simpl; [lia|]. by rewrite Nat.add_0_r.
  - intros i Hi. replace (S index + i) with (index + S i) by lia.
    apply Hkey. simpl. lia.
Qed.

(** The label of position [i] holds the snapshot of the [i]-th contact. *)
Lemma reduce_assign_lookup (l : list Contact) acc index i c :
  l !! i = Some c →
  reduce assign acc index l !! contact_label (index + i) = Some (snapshot_of c).
Proof.
  revert acc index i. induction l as [|c' l IH]; intros acc index i Hi; [done|].
  destruct i as [|i]; simpl in *.
  - simplify_eq. rewrite reduce_assign_other.
    + rewrite Nat.add_0_r. unfold assign. apply lookup_insert_eq.
    + intros j _ Heq. apply (inj contact_label) in Heq. lia.
  - replace (index + S i) with (S index + i) by lia. by apply IH.
Qed.

(** Every key of the result was in the accumulator or is a label. *)
Lemma reduce_assign_keys (l : list Contact) acc index key :
  is_Some (reduce assign acc index l !! key) →
  is_Some (acc !! key) ∨ ∃ i, i < length l ∧ key = contact_label (index + i).
Proof.
  revert acc index. induction l as [|c l IH]; intros acc index Hsome; simpl in *.
  - by left.
  - apply IH in Hsome as [Hsome|(i & Hi & ->)].
    + unfold assign in Hsome. rewrite lookup_insert in Hsome.
      case_decide as Hk; [|by left].
      right. exists 0. split; [lia|]. by rewrite Nat.add_0_r.
    + right. exists (S i). split; [lia|]. f_equal. lia.
Qed.

(** C9. For a non-empty list of N selected contacts,
    [getAssignedContacts] returns an object whose keys are exactly
    contact1 .. contactN, the value at contactI being the name and the
    colour of the I-th contact and nothing else; for an empty list it
    returns the empty string. *)
Theorem getAssignedContacts_spec (selectedContacts : list Contact) :
  (selectedContacts ≠ [] →
   ∃ m : gmap (list N) Snapshot,
     getAssignedContacts selectedContacts = AssignedObject m ∧
     (∀ key, is_Some (m !! key) ↔
             ∃ I, 1 ≤ I ≤ length selectedContacts ∧
                  key = str "contact" ++ str (pretty I)) ∧
     (∀ I contact,
        1 ≤ I → selectedContacts !! (I - 1) = Some contact →
        m !! (str "contact" ++ str (pretty I)) =
          Some {| snap_name := name contact; snap_color := color contact |})) ∧
  (selectedContacts = [] →
   getAssignedContacts selectedContacts = EmptyString).
Proof.
  split; [|by intros ->].
  intros Hne. unfold getAssignedContacts.
  destruct selectedContacts as [|c0 l0]; [done|].
  set (l := c0 :: l0). replace (0 <? length l) with true by done.
  eexists. split; [reflexivity|].
  change (reduce _ ∅ 0 l) with (reduce assign ∅ 0 l).
  assert (∀ I, contact_label (I - 1) = str "contact" ++ str (pretty I) ∨ I = 0)
    as Hlabel.
  { intros [|I]; [by right|left]. unfold contact_label. do 3 f_equal. lia. }
  split.
  - intros key. split.
    + intros Hsome.
      apply reduce_assign_keys in Hsome as [Hsome|(i & Hi & ->)].
      * rewrite lookup_empty in Hsome. by destruct Hsome.
      * exists (S i). split; [lia|]. unfold contact_label. do 3 f_equal. lia.
    + intros (I & [HI1 HI2] & ->).
      destruct (lookup_lt_is_Some_2 l (I - 1)) as [c Hc]; [lia|].
      destruct (Hlabel I) as [<-|?]; [|lia].
      rewrite (reduce_assign_lookup l ∅ 0 (I - 1) c Hc). eauto.
  - intros I c HI Hc. destruct (Hlabel I) as [<-|?]; [|lia].
    apply (reduce_assign_lookup l ∅ 0 (I - 1) c Hc).
Qed.

(** ** Login *)

Lemma login_predicate_spec (email password : list N) (c : StoredContact) :
  bool_decide (sc_email c = email) && strict_eq (sc_password c) password = true
  ↔ credentials_match email password c.
Proof.
  unfold strict_eq, credentials_match.
  rewrite andb_true_iff, !bool_decide_eq_true. done.
Qed.

Lemma signedUpContact_Some contacts email password c :
  signedUpContact contacts email password = Some c →
  c ∈ Object_values (default [] contacts) ∧ credentials_match email password c.
Proof.
  unfold signedUpContact. intros Hfind. apply find_some in Hfind as [Hin Hp].
  split; [by apply list_elem_of_In|by apply login_predicate_spec].
Qed.

Lemma signedUpContact_None contacts email password :
  signedUpContact contacts email password = None ↔
  ¬ ∃ c, c ∈ Object_values (default [] contacts)
         ∧ credentials_match email password c.
Proof.
  unfold signedUpContact. split.
  - intros Hfind (c & Hin & Hc).
    apply list_elem_of_In in Hin.
    pose proof (find_none _ _ Hfind c Hin) as Hp.
    apply login_predicate_spec in Hc. congruence.
  - intros Hnone.
    destruct (find _ _) as [c|] eqn:Hfind; [|done].
    exfalso. apply Hnone. exists c.
    apply find_some in Hfind as [Hin Hp].
    split; [by apply list_elem_of_In|by apply login_predicate_spec].
Qed.

(** C1. Once the store has answered, [login] hands [processLogin] the
    result of its scan. That result is a contact exactly when some
    contact of the collection has the entered email and the entered
    password, and it is then such a contact. When there is none,
    [processLogin] receives [undefined], and [login] neither writes to
    the store nor navigates; with a contact, the timer writes the
    contact's name to currentUser and navigates to summary.html. *)
Theorem login_spec (contactAsJson : Root) (email password : list N) :
  let contacts := Object_values (default [] (root_contacts contactAsJson)) in
  let arg := signedUpContact (root_contacts contactAsJson) email password in
  let run := login (FetchJson (Some contactAsJson)) email password in
  run = Fetch GET (BASE_URL ++ str ".json") None :: processLogin arg ∧
  (is_Some arg ↔ ∃ c, c ∈ contacts ∧ credentials_match email password c) ∧
  (∀ c, arg = Some c →
        c ∈ contacts ∧ credentials_match email password c ∧
        ∃ earlier,
          run = earlier ++
            [SetTimeout
               [ ClassRemove (str "task-created-popup") (str "show");
                 putData (str "currentUser")
                         (JObject [(str "name", JString (sc_name c))]);
                 SetLocation (str "summary.html") ] 1500]) ∧
  ((¬ ∃ c, c ∈ contacts ∧ credentials_match email password c) →
   arg = None ∧
   existsb is_write run = false ∧
   existsb is_redirect run = false).
Proof.
  intros contacts arg run. subst contacts arg run. split_and!.
  - reflexivity.
  - split.
    + intros [c Hc]. exists c. by apply signedUpContact_Some in Hc.
    + intros Hex. destruct (signedUpContact _ _ _) as [c|] eqn:Harg; [by eexists|].
      by apply signedUpContact_None in Harg.
  - intros c Hc. destruct (signedUpContact_Some _ _ _ _ Hc) as [Hin Hm].
    split_and!; [done..|].
    unfold login. rewrite Hc. simpl. by eexists [_; _].
  - intros Hnone. apply signedUpContact_None in Hnone.
    unfold login. rewrite Hnone. done.
Qed.

(** A failed request or an empty store only raises the alert. *)
Lemma login_no_data (email password : list N) :
  login FetchFails email password =
    [Fetch GET (BASE_URL ++ str ".json") None; Alert login_alert] ∧
  login (FetchJson None) email password =
    [Fetch GET (BASE_URL ++ str ".json") None; Alert login_alert].
Proof. done. Qed.

(** ** Regular expressions: [test] decides the language *)

Lemma nullable_spec (r : regex) : nullable r = true ↔ Matches r [].
Proof.
  induction r as [| |p|r1 IH1 r2 IH2|r1 IH1 r2 IH2|r IH]; simpl.
  - split; [discriminate|tauto].
  - tauto.
  - split; [discriminate|]. by intros (c & ? & _).
  - rewrite andb_true_iff, IH1, IH2. split.
    + intros [H1 H2]. by exists [], [].
    + intros (s1 & s2 & Heq & H1 & H2).
      symmetry in Heq. apply app_eq_nil in Heq as [-> ->]. done.
  - rewrite orb_true_iff, IH1, IH2. done.
  - split; [|done]. intros _. by exists [].
Qed.

(** A concatenation that starts with [c] has a first non-empty piece
    that starts with [c]. *)
Lemma concat_cons_inv {A} (P : list A → Prop) (ss : list (list A)) c s :
  concat ss = c :: s → Forall P ss →
  ∃ s1 ss', P (c :: s1) ∧ Forall P ss' ∧ s = s1 ++ concat ss'.
Proof.
  induction ss as [|piece ss IH]; simpl; [done|].
  intros Heq Hall. apply Forall_cons in Hall as [Hp Hall].
  destruct piece as [|c' piece]; simpl in Heq.
  - by apply IH.
  - simplify_eq. by exists piece, ss.
Qed.

Lemma deriv_spec (c : N) (r : regex) (s : list N) :
  Matches (deriv c r) s ↔ Matches r (c :: s).
Proof.
  revert s.
  induction r as [| |p|r1 IH1 r2 IH2|r1 IH1 r2 IH2|r IH]; intros s; simpl.
  - done.
  - split; [done|discriminate].
  - destruct (p c) eqn:Hp; simpl.
    + split.
      * intros ->. by exists c.
      * intros (c' & Heq & _). by simplify_eq.
    + split; [done|]. intros (c' & Heq & Hp'). simplify_eq. congruence.
  - assert (Matches (Cat (deriv c r1) r2) s ↔
            ∃ s1 s2, s = s1 ++ s2 ∧ Matches r1 (c :: s1) ∧ Matches r2 s2)
      as Hcat.
    { simpl. by setoid_rewrite IH1. }
    destruct (nullable r1) eqn:Hn.
    + simpl in *. rewrite Hcat. rewrite IH2. split.
      * intros [(s1 & s2 & -> & H1 & H2)|H2].
        -- by exists (c :: s1), s2.
        -- exists [], (c :: s). by rewrite <- nullable_spec.
      * intros (s1 & s2 & Heq & H1 & H2).
        destruct s1 as [|c' s1]; simpl in Heq.
        -- right. by subst.
        -- left. simplify_eq. by exists s1, s2.
    + rewrite Hcat. split.
      * intros (s1 & s2 & -> & H1 & H2). by exists (c :: s1), s2.
      * intros (s1 & s2 & Heq & H1 & H2).
        destruct s1 as [|c' s1]; simpl in Heq.
        -- apply nullable_spec in H1. congruence.
        -- simplify_eq. by exists s1, s2.
  - by rewrite IH1, IH2.
  - split.
    + intros (s1 & s2 & -> & H1 & ss & -> & Hall).
      exists ((c :: s1) :: ss). split; [done|].
      constructor; [by apply IH|done].
    + intros (ss & Heq & Hall).
      destruct (concat_cons_inv _ _ _ _ (eq_sym Heq) Hall)
        as (s1 & ss' & H1 & Hall' & ->).
      exists s1, (concat ss'). split; [done|]. split; [by apply IH|].
      by exists ss'.
Qed.

Lemma test_spec (r : regex) (s : list N) : test r s = true ↔ Matches r s.
Proof.
  revert r. induction s as [|c s IH]; intros r; simpl.
  - apply nullable_spec.
  - by rewrite IH, deriv_spec.
Qed.

(** The languages of the repetitions of a character class. *)

Lemma Matches_Star_Class (p : N → bool) (s : list N) :
  Matches (Star (Class p)) s ↔ all_in p s.
Proof.
  simpl. split.
  - intros (ss & -> & Hall). unfold all_in.
    induction Hall as [|piece ss (c & -> & Hp) _ IH]; simpl; [done|].
    by constructor.
  - intros Hall. exists ((λ c, [c]) <$> s). split.
    + induction s as [|c s IH]; simpl; [done|].
      apply Forall_cons in Hall as [_ Hall]. f_equal. by apply IH.
    + apply Forall_fmap. eapply Forall_impl; [exact Hall|].
      intros c Hp. by exists c.
Qed.

Lemma Matches_Plus_Class (p : N → bool) (s : list N) :
  Matches (Plus (Class p)) s ↔ s ≠ [] ∧ all_in p s.
Proof.
  unfold Plus. change (Matches (Cat ?r1 ?r2) s)
    with (∃ s1 s2, s = s1 ++ s2 ∧ Matches r1 s1 ∧ Matches r2 s2).
  setoid_rewrite Matches_Star_Class. simpl. split.
  - intros (s1 & s2 & -> & (c & -> & Hp) & Hall).
    split; [done|]. by constructor.
  - intros [Hne Hall]. destruct s as [|c s]; [done|].
    apply Forall_cons in Hall as [Hp Hall].
    exists [c], s. split; [done|]. split; [by exists c|done].
Qed.

Lemma Matches_Times_Class (n : nat) (p : N → bool) (s : list N) :
  Matches (Times n (Class p)) s ↔ length s = n ∧ all_in p s.
Proof.
  revert s. induction n as [|n IH]; intros s.
  - simpl. split; [intros ->; split; [done|constructor]|].
    intros [Hlen _]. by destruct s.
  - change (Matches (Times (S n) (Class p)) s)
      with (∃ s1 s2, s = s1 ++ s2 ∧ Matches (Class p) s1
                     ∧ Matches (Times n (Class p)) s2).
    setoid_rewrite IH. simpl. split.
    + intros (s1 & s2 & -> & (c & -> & Hp) & Hlen & Hall).
      split; [simpl; lia|by constructor].
    + intros [Hlen Hall]. destruct s as [|c s]; [done|].
      apply Forall_cons in Hall as [Hp Hall]. simpl in Hlen.
      exists [c], s. split_and!; [done|by exists c|lia|done].
Qed.

Lemma Matches_Times_Opt_Class (n : nat) (p : N → bool) (s : list N) :
  Matches (Times n (Opt (Class p))) s ↔ length s ≤ n ∧ all_in p s.
Proof.
  revert s. induction n as [|n IH]; intros s.
  - simpl. split; [intros ->; split; [done|constructor]|].
    intros [Hlen _]. destruct s; [done|simpl in *; lia].
  - change (Matches (Times (S n) (Opt (Class p))) s)
      with (∃ s1 s2, s = s1 ++ s2 ∧ (s1 = [] ∨ Matches (Class p) s1)
                     ∧ Matches (Times n (Opt (Class p))) s2).
    setoid_rewrite IH. simpl. split.
    + intros (s1 & s2 & -> & [->|(c & -> & Hp)] & Hlen & Hall); simpl.
      * split; [lia|done].
      * split; [lia|by constructor].
    + intros [Hlen Hall]. destruct s as [|c s].
      * exists [], []. split_and!; [done|by left|simpl; lia|constructor].
      * apply Forall_cons in Hall as [Hp Hall]. simpl in Hlen.
        exists [c], s. split_and!; [done|right; by exists c|lia|done].
Qed.

Lemma Matches_Repeat_Class (lo hi : nat) (p : N → bool) (s : list N) :
  lo ≤ hi →
  Matches (Repeat lo hi (Class p)) s ↔ lo ≤ length s ≤ hi ∧ all_in p s.
Proof.
  intros Hle. unfold Repeat.
  change (Matches (Cat ?r1 ?r2) s)
    with (∃ s1 s2, s = s1 ++ s2 ∧ Matches r1 s1 ∧ Matches r2 s2).
  setoid_rewrite Matches_Times_Class.
  setoid_rewrite Matches_Times_Opt_Class. split.
  - intros (s1 & s2 & -> & [Hl1 H1] & [Hl2 H2]).
    rewrite length_app. split; [lia|]. by apply Forall_app.
  - intros [Hlen Hall].
    exists (take lo s), (drop lo s). rewrite take_drop.
    rewrite length_take, length_drop.
    split_and!; [done|lia|by apply Forall_take|lia|by apply Forall_drop].
Qed.

(** ** Contact validation (contacts3.js) *)

Lemma Matches_Chr (c : N) (s : list N) : Matches (Chr c) s ↔ s = [c].
Proof.
  simpl. split.
  - intros (c' & -> & Heq). by apply N.eqb_eq in Heq as ->.
  - intros ->. exists c. by rewrite N.eqb_refl.
Qed.

Lemma Matches_emailPattern (s : list N) :
  Matches emailPattern s ↔ email_shape s.
Proof.
  unfold emailPattern, email_shape.
  repeat (change (Matches (Cat ?r1 ?r2) ?s)
            with (∃ s1 s2, s = s1 ++ s2 ∧ Matches r1 s1 ∧ Matches r2 s2)).
  split.
  - intros (l & s1 & -> & Hl & a & s2 & -> & Ha & d & s3 & -> & Hd
              & dot & t & -> & Hdot & Ht).
    apply Matches_Plus_Class in Hl as [? ?].
    apply Matches_Chr in Ha as ->. apply Matches_Plus_Class in Hd as [? ?].
    apply Matches_Chr in Hdot as ->.
    apply Matches_Repeat_Class in Ht as [? ?]; [|lia].
    by exists l, d, t.
  - intros (l & d & t & -> & Hl & Hla & Hd & Hda & Ht & Hta).
    exists l, ([AT] ++ d ++ [DOT] ++ t).
    split_and!; [done|by apply Matches_Plus_Class|].
    exists [AT], (d ++ [DOT] ++ t).
    split_and!; [done|by apply Matches_Chr|].
    exists d, ([DOT] ++ t).
    split_and!; [done|by apply Matches_Plus_Class|].
    exists [DOT], t.
    split_and!; [done|by apply Matches_Chr|].
    apply Matches_Repeat_Class; [lia|done].
Qed.

Lemma validateEmail_spec (email : list N) :
  validateEmail email = true ↔ email_shape email.
Proof. unfold validateEmail. by rewrite test_spec, Matches_emailPattern. Qed.

Lemma validatePhone_spec (phone : list N) :
  validatePhone phone = true ↔ phone ≠ [] ∧ all_in is_digit phone.
Proof. unfold validatePhone, phonePattern. by rewrite test_spec, Matches_Plus_Class. Qed.

Lemma truthy_str_spec (s : list N) : truthy_str s = true ↔ s ≠ [].
Proof. by destruct s. Qed.

(** The verdict of the validation, and what it shows. *)
Lemma validateContactFields_verdict (name email phone : list N) :
  fst (validateContactFields name email phone) =
    truthy_str name && truthy_str email && truthy_str phone
    && (2 <=? length (split SPACE name))
    && validateEmail email && validatePhone phone.
Proof.
  unfold validateContactFields.
  destruct (truthy_str name), (truthy_str email), (truthy_str phone);
    cbn [negb orb andb fst]; try done.
  destruct (Nat.ltb_spec (length (split SPACE name)) 2) as [Hlt|Hge].
  - replace (2 <=? length (split SPACE name)) with false
      by (symmetry; apply Nat.leb_gt; lia).
    done.
  - replace (2 <=? length (split SPACE name)) with true
      by (symmetry; apply Nat.leb_le; lia).
    by destruct (validateEmail email), (validatePhone phone).
Qed.

Lemma validateContactFields_shown (name email phone : list N) :
  let '(valid, shown) := validateContactFields name email phone in
  if valid then shown = []
  else ∃ message, shown = showErrorMessage message.
Proof.
  unfold validateContactFields.
  repeat match goal with
         | |- context [if ?b then _ else _] => destruct b; simpl; eauto
         end.
Qed.

(** What [validateContactFields] shows when it refuses: a message that
    is not empty, written into the error box, which is made visible and
    hidden again after 2.5 seconds. *)
Lemma validateContactFields_message (name email phone : list N) :
  fst (validateContactFields name email phone) = false →
  ∃ message,
    message ≠ [] ∧
    snd (validateContactFields name email phone) =
      [ SetTextContent (str "error-message-box") message;
        ClassAdd (str "error-message-box") (str "show");
        SetTimeout [ClassRemove (str "error-message-box") (str "show")] 2500 ].
Proof.
  unfold validateContactFields.
  repeat match goal with
         | |- context [if ?b then _ else _] => destruct b
         end; cbn [fst snd]; try done; intros _;
    (eexists; split; [|reflexivity]); done.
Qed.

(** C2. [saveNewContact] validates the trimmed form values before
    anything else. [validateContactFields] returns [true] exactly when
    the three values are non-empty, the name splits on a space into at
    least two parts, the email matches the pattern and the phone is made
    of digits only. In that case the POST to contacts is issued;
    otherwise an error message is shown, that is a non-empty text is
    written into the error box and the box is made visible for 2.5
    seconds, and nothing is written. *)
Theorem saveNewContact_spec (form : ContactForm) (g : Rng) (net : PostOutcome) :
  let name := trim (contact_name_value form) in
  let email := trim (contact_email_value form) in
  let phone := trim (contact_phone_value form) in
  let valid := fst (validateContactFields name email phone) in
  let run := saveNewContact form g net in
  (valid = true ↔
     name ≠ [] ∧ email ≠ [] ∧ phone ≠ [] ∧
     2 ≤ length (split SPACE name) ∧
     Matches emailPattern email ∧
     all_in is_digit phone) ∧
  (existsb is_write run = true → valid = true) ∧
  (valid = true →
     ∃ color after,
       run = Fetch POST
               (str "https://remotestorage-2a5f0-default-rtdb.europe-west1.firebasedatabase.app/"
                ++ str "/contacts.json")
               (Some (JObject [ (str "name", JString name);
                                (str "email", JString email);
                                (str "phone", JString phone);
                                (str "color", JString color) ])) :: after) ∧
  (valid = false →
     (∃ message,
        message ≠ [] ∧
        run = [ SetTextContent (str "error-message-box") message;
                ClassAdd (str "error-message-box") (str "show");
                SetTimeout [ClassRemove (str "error-message-box") (str "show")]
                           2500 ]) ∧
     existsb is_write run = false).
Proof.
  intros name email phone valid run.
  assert (valid = false →
          (∃ message,
             message ≠ [] ∧
             run = [ SetTextContent (str "error-message-box") message;
                     ClassAdd (str "error-message-box") (str "show");
                     SetTimeout
                       [ClassRemove (str "error-message-box") (str "show")]
                       2500 ])
          ∧ existsb is_write run = false) as Hinvalid.
  { subst valid run. unfold saveNewContact. simpl. fold name email phone.
    pose proof (validateContactFields_message name email phone) as Hshown.
    destruct (validateContactFields name email phone) as [v shown].
    cbn [fst snd] in *. intros ->. cbn [negb].
    destruct (Hshown eq_refl) as (message & Hne & ->).
    split; [by exists message|done]. }
  split_and!; [| | |done].
  - subst valid. rewrite validateContactFields_verdict.
    rewrite !andb_true_iff, !truthy_str_spec, Nat.leb_le.
    rewrite validatePhone_spec. unfold validateEmail. rewrite test_spec.
    tauto.
  - intros Hw. destruct valid eqn:Hv; [done|].
    destruct Hinvalid as [_ Hno]; [done|]. congruence.
  - subst valid run. unfold saveNewContact. simpl. fold name email phone.
    pose proof (validateContactFields_shown name email phone) as Hshown.
    destruct (validateContactFields name email phone) as [v shown]. simpl.
    intros ->. simpl. rewrite Hshown.
    unfold createNewContact.
    destruct (generateRandomColor g) as [color g']. simpl.
    by eexists _, _.
Qed.

(** ** Sorting with a comparator *)

Section SortFacts.
Context {A : Type} (cmp : A → A → Z).

Lemma sort_insert_perm (x : A) (l : list A) : sort_insert cmp x l ≡ₚ x :: l.
Proof.
  induction l as [|y l IH]; simpl; [done|].
  destruct (cmp x y <=? 0)%Z; [done|].
  rewrite IH. apply Permutation_swap.
Qed.

Lemma Array_sort_perm (l : list A) : Array_sort cmp l ≡ₚ l.
Proof.
  induction l as [|x l IH]; simpl; [done|].
  by rewrite sort_insert_perm, IH.
Qed.

Hypothesis cmp_sign : ∀ a b, (cmp a b < 0 ↔ 0 < cmp b a)%Z.
Hypothesis cmp_trans : ∀ a b c, before cmp a b → before cmp b c → before cmp a c.

Lemma sort_insert_sorted (x : A) (l : list A) :
  StronglySorted (before cmp) l → StronglySorted (before cmp) (sort_insert cmp x l).
Proof.
  induction 1 as [|y l Hsorted IH Hall]; simpl.
  - repeat constructor.
  - destruct (Z.leb_spec (cmp x y) 0) as [Hle|Hgt].
    + constructor; [by constructor|]. constructor; [done|].
      eapply Forall_impl; [exact Hall|]. intros z Hz. by eapply cmp_trans.
    + constructor; [done|].
      rewrite sort_insert_perm. constructor; [|done].
      unfold before. apply cmp_sign in Hgt. lia.
Qed.

Lemma Array_sort_sorted (l : list A) :
  StronglySorted (before cmp) (Array_sort cmp l).
Proof.
  induction l as [|x l IH]; simpl; [constructor|by apply sort_insert_sorted].
Qed.

End SortFacts.

(** ** Generated colours *)

Lemma color_loop_prefix (n : nat) (color : list N) (g : Rng) :
  ∃ suffix, fst (color_loop n color g) = color ++ suffix.
Proof.
  revert color g. induction n as [|n IH]; intros color g; simpl.
  - exists []. by rewrite app_nil_r.
  - destruct (IH (color ++ index_text letters (draws g (pos g)))
                 {| draws := draws g; pos := S (pos g) |}) as [suffix ->].
    eexists. by rewrite <- app_assoc.
Qed.

Lemma color_loop_draws (n : nat) (color : list N) (g : Rng) :
  draws (snd (color_loop n color g)) = draws g.
Proof.
  revert color g. induction n as [|n IH]; intros color g; simpl; [done|].
  by rewrite IH.
Qed.

Lemma generateRandomColor_nonempty (g : Rng) : fst (generateRandomColor g) ≠ [].
Proof.
  unfold generateRandomColor.
  destruct (color_loop_prefix 6 (str "#") g) as [suffix ->]. done.
Qed.

Lemma color_loop_hex (n : nat) (color : list N) (g : Rng) :
  (∀ k, draws g k < 16) →
  ∃ digits,
    fst (color_loop n color g) = color ++ digits ∧
    length digits = n ∧ Forall (λ c, c ∈ letters) digits.
Proof.
  intros Hdraws. revert color g Hdraws.
  induction n as [|n IH]; intros color g Hdraws; simpl.
  - exists []. by rewrite app_nil_r.
  - destruct (IH (color ++ index_text letters (draws g (pos g)))
                 {| draws := draws g; pos := S (pos g) |} Hdraws)
      as (digits & -> & Hlen & Hall).
    unfold index_text.
    destruct (lookup_lt_is_Some_2 letters (draws g (pos g))) as [c Hc];
      [apply Hdraws|].
    rewrite Hc. exists (c :: digits). rewrite <- app_assoc.
    split_and!; [done|simpl; lia|].
    constructor; [by eapply list_elem_of_lookup_2|done].
Qed.

(** With draws in range the colour is [#] and six hexadecimal digits. *)
Lemma generateRandomColor_hex (g : Rng) :
  (∀ k, draws g k < 16) → hex_color (fst (generateRandomColor g)).
Proof. apply color_loop_hex. Qed.

(** ** Loading contacts *)

Lemma get_Some_elem_of {A} (o : list (list N * A)) key v :
  get o key = Some v → (key, v) ∈ o.
Proof.
  induction o as [|[k x] o IH]; simpl; [done|].
  case_bool_decide as Hk.
  - intros [= ->]. subst. left.
  - intros Hget. right. by apply IH.
Qed.

Lemma get_elem_of {A} (o : list (list N * A)) key v :
  NoDup o.*1 → (key, v) ∈ o → get o key = Some v.
Proof.
  induction o as [|[k x] o IH]; simpl; intros Hnd Hin.
  - by apply elem_of_nil in Hin.
  - apply NoDup_cons in Hnd as [Hk Hnd].
    apply elem_of_cons in Hin as [Heq|Hin].
    + simplify_eq. by rewrite bool_decide_eq_true_2.
    + rewrite bool_decide_eq_false_2; [by apply IH|].
      intros ->. apply Hk. apply list_elem_of_fmap. by exists (key, v).
Qed.

Section LoaderFacts.
Context `{Host}.

Lemma color_or_random_spec (stored : option (list N)) (g : Rng) :
  if truthy stored then Some (fst (color_or_random stored g)) = stored
  else fst (color_or_random stored g) = fst (generateRandomColor g).
Proof. unfold color_or_random. by destruct stored as [[|c s]|]. Qed.

Lemma with_id_and_color_draws (entry : list N * StoredContact) (g : Rng) :
  draws (snd (with_id_and_color entry g)) = draws g.
Proof.
  destruct entry as [key raw]. unfold with_id_and_color, color_or_random.
  destruct (truthy (sc_color raw)); [done|].
  pose proof (color_loop_draws 6 (str "#") g) as Hd. unfold generateRandomColor.
  by destruct (color_loop 6 (str "#") g).
Qed.

Lemma with_id_and_color_built (entry : list N * StoredContact) (g : Rng) :
  built_from g entry (fst (with_id_and_color entry g)).
Proof.
  destruct entry as [key raw]. unfold with_id_and_color, built_from, color_from.
  pose proof (color_or_random_spec (sc_color raw) g) as Hc.
  destruct (color_or_random (sc_color raw) g) as [c g']. simpl in *.
  split_and!; try done.
  destruct (truthy (sc_color raw)); [done|]. exists (pos g). by destruct g.
Qed.

Lemma built_from_draws (g g0 : Rng) entry c :
  draws g = draws g0 → built_from g entry c → built_from g0 entry c.
Proof.
  intros Hd (? & ? & ? & ? & ? & Hc). split_and!; try done.
  unfold color_from in *. by rewrite <- Hd.
Qed.

Lemma map_entries_built_from (data : list (list N * StoredContact)) (g g0 : Rng) :
  draws g = draws g0 →
  Forall2 (built_from g0) data (fst (map_entries data g)).
Proof.
  revert g. induction data as [|entry data IH]; intros g Hd; simpl; [constructor|].
  pose proof (with_id_and_color_built entry g) as Hb.
  pose proof (with_id_and_color_draws entry g) as Hd1.
  destruct (with_id_and_color entry g) as [c g1]. simpl in *.
  assert (draws g1 = draws g0) as Hd2 by congruence.
  specialize (IH g1 Hd2). destruct (map_entries data g1) as [cs g2].
  simpl. constructor; [by apply (built_from_draws g)|done].
Qed.

Lemma map_entries_built (data : list (list N * StoredContact)) (g : Rng) :
  Forall2 (built_from g) data (fst (map_entries data g)).
Proof. by apply map_entries_built_from. Qed.

Lemma built_from_color g (entry : list N * StoredContact) (c : Contact) :
  built_from g entry c → color c ≠ [].
Proof.
  intros (_ & _ & _ & _ & _ & Hc). unfold color_from in Hc.
  destruct (truthy (sc_color entry.2)) eqn:Ht.
  - destruct (sc_color entry.2) as [[|x s]|]; try done. by injection Hc as ->.
  - destruct Hc as [p ->]. apply generateRandomColor_nonempty.
Qed.

Lemma processContacts_perm (data : list (list N * StoredContact)) (g : Rng) :
  processContacts data g ≡ₚ fst (map_entries data g).
Proof. apply Array_sort_perm. Qed.

Lemma processContacts_colors (data : list (list N * StoredContact)) (g : Rng) :
  Forall (λ c, color c ≠ []) (processContacts data g).
Proof.
  rewrite processContacts_perm.
  pose proof (map_entries_built data g) as Hb.
  induction Hb as [|entry c data cs Hb _ IH]; constructor; [|done].
  by eapply built_from_color.
Qed.

(** In a well-formed store every loaded contact keeps its key as id. *)
Lemma built_from_ids g (data : list (list N * StoredContact)) (cs : list Contact) :
  Forall (λ entry, sc_id entry.2 = None ∨ sc_id entry.2 = Some entry.1) data →
  Forall2 (built_from g) data cs → id <$> cs = data.*1.
Proof.
  intros Hids Hb. induction Hb as [|entry c data cs Hb _ IH]; [done|].
  apply Forall_cons in Hids as [Hid Hids].
  rewrite !fmap_cons, IH by done. f_equal.
  destruct Hb as (-> & _). by destruct Hid as [-> | ->].
Qed.

Lemma map_entries_ids (data : list (list N * StoredContact)) (g : Rng) :
  store_wf data → id <$> fst (map_entries data g) = data.*1.
Proof. intros [_ Hids]. apply (built_from_ids g); [done|apply map_entries_built]. Qed.

Lemma ensureColorsInDatabase_ok (cs : list Contact)
    (data : list (list N * StoredContact)) :
  Forall (λ c, is_Some (get data (id c))) cs →
  ensureColorsInDatabase cs data =
    (patch_of <$> filter (λ c, backfill data c = true) cs, Ok ()).
Proof.
  induction 1 as [|c cs [raw Hraw] _ IH]; simpl; [done|].
  rewrite Hraw, IH. rewrite filter_cons.
  assert (backfill data c = negb (truthy (sc_color raw))) as ->
    by (unfold backfill; by rewrite Hraw).
  by destruct (truthy (sc_color raw)).
Qed.

End LoaderFacts.

Section LoadContacts.
Context `{Host}.

Lemma processContacts_ids (data : list (list N * StoredContact)) (g : Rng) :
  store_wf data → id <$> processContacts data g ≡ₚ data.*1.
Proof.
  intros Hwf. rewrite processContacts_perm. by rewrite map_entries_ids.
Qed.

Lemma processContacts_resolve (data : list (list N * StoredContact)) (g : Rng) :
  store_wf data →
  Forall (λ c, is_Some (get data (id c))) (processContacts data g).
Proof.
  intros Hwf. apply Forall_forall. intros c Hc.
  assert (id c ∈ data.*1) as Hid.
  { rewrite <- (processContacts_ids data g Hwf). by apply list_elem_of_fmap_2. }
  apply list_elem_of_fmap in Hid as ([k raw] & Hk & Hin). simpl in Hk. subst k.
  exists raw. apply get_elem_of; [apply Hwf|done].
Qed.

(** On a well-formed store the load runs to its end. *)
Lemma loadContacts_wf (data : list (list N * StoredContact)) (g : Rng) :
  store_wf data →
  loadContacts (FetchJson (Some data)) g =
    {| requests :=
         Fetch GET (BASE_URL ++ str "contacts.json") None ::
         (patch_of <$> filter (λ c, backfill data c = true) (processContacts data g));
       rendered := Some (renderContactsList (processContacts data g));
       returned := Some (processContacts data g) |}.
Proof.
  intros Hwf. unfold loadContacts.
  by rewrite ensureColorsInDatabase_ok by (by apply processContacts_resolve).
Qed.

Lemma loadContacts_returned_colors (fetched : Fetched (list (list N * StoredContact)))
    (g : Rng) (cs : list Contact) :
  returned (loadContacts fetched g) = Some cs → Forall (λ c, color c ≠ []) cs.
Proof.
  unfold loadContacts. destruct fetched as [|[data|]]; simpl.
  - by intros [= <-].
  - destruct (ensureColorsInDatabase _ _) as [fx [[]|]]; simpl; intros [= <-].
    + apply processContacts_colors.
    + constructor.
  - done.
Qed.

(** C5, amended. Every contact of an array returned by [loadContacts]
    has a non-empty colour. For a collection in which no record carries
    an id other than its own key, each record is returned with its
    stored colour if it has one and with a generated colour if not,
    which is [#] and six hexadecimal digits when the draws are in range;
    and the requests that follow the GET are PATCH requests to the
    record of a contact with the object [{ color }] of the colour of
    the returned contact as body, for exactly the records that had no
    colour, once each, never for a record that had a colour. *)
Theorem loadContacts_colors (fetched : Fetched (list (list N * StoredContact)))
    (g : Rng) :
  let r := loadContacts fetched g in
  (∀ cs, returned r = Some cs → Forall (λ c, color c ≠ []) cs) ∧
  (∀ data,
     fetched = FetchJson (Some data) → store_wf data →
     ∃ cs backfilled : list Contact,
       returned r = Some cs ∧
       id <$> cs ≡ₚ data.*1 ∧
       (∀ key raw, (key, raw) ∈ data →
          ∃ c, c ∈ cs ∧ id c = key ∧ color_from g raw c ∧
               ((∀ k, draws g k < 16) → truthy (sc_color raw) = false →
                hex_color (color c))) ∧
       requests r =
         Fetch GET
           (str "https://remotestorage-2a5f0-default-rtdb.europe-west1.firebasedatabase.app/"
            ++ str "contacts.json") None ::
         ((λ c, Fetch PATCH
                  (str "https://remotestorage-2a5f0-default-rtdb.europe-west1.firebasedatabase.app/"
                   ++ str "/contacts/" ++ id c ++ str ".json")
                  (Some (JObject [(str "color", JString (color c))])))
            <$> backfilled) ∧
       sublist backfilled cs ∧
       NoDup (id <$> backfilled) ∧
       (∀ key raw, (key, raw) ∈ data →
          key ∈ id <$> backfilled ↔ truthy (sc_color raw) = false)).
Proof.
  intros r. subst r. split; [intros cs; apply loadContacts_returned_colors|].
  intros data -> Hwf. rewrite loadContacts_wf by done. simpl.
  set (cs := processContacts data g).
  pose proof (processContacts_ids data g Hwf) as Hids. fold cs in Hids.
  assert (NoDup (id <$> cs)) as Hnd by (rewrite Hids; apply Hwf).
  exists cs, (filter (λ c, backfill data c = true) cs).
  split_and!; try done.
  - intros key raw Hin.
    pose proof (map_entries_built data g) as Hb.
    destruct (proj1 (list_elem_of_lookup _ _) Hin) as [i Hi].
    destruct (Forall2_lookup_l _ _ _ _ _ Hb Hi) as (c & Hc & Hbuilt).
    exists c. split_and!.
    + subst cs. rewrite processContacts_perm. by eapply list_elem_of_lookup_2.
    + destruct Hbuilt as (-> & _).
      destruct Hwf as [_ Hall]. rewrite Forall_forall in Hall.
      destruct (Hall _ Hin) as [Hid | Hid]; simpl in *; by rewrite Hid.
    + apply Hbuilt.
    + intros Hdraws Hlacks. destruct Hbuilt as (_ & _ & _ & _ & _ & Hcol).
      unfold color_from in Hcol. cbn [snd] in Hcol. rewrite Hlacks in Hcol.
      destruct Hcol as [p ->]. by apply generateRandomColor_hex.
  - apply sublist_filter.
  - eapply sublist_NoDup; [exact Hnd|apply fmap_sublist, sublist_filter].
  - intros key raw Hin.
    pose proof (get_elem_of data key raw (proj1 Hwf) Hin) as Hget.
    rewrite list_elem_of_fmap. split.
    + intros (c & -> & Hc). apply list_elem_of_filter in Hc as [Hb _].
      unfold backfill in Hb. rewrite Hget in Hb. by apply negb_true_iff.
    + intros Hlacks.
      assert (key ∈ id <$> cs) as Hkey.
      { rewrite Hids. apply list_elem_of_fmap. by exists (key, raw). }
      apply list_elem_of_fmap in Hkey as (c & -> & Hc).
      exists c. split; [done|]. apply list_elem_of_filter. split; [|done].
      unfold backfill. rewrite Hget. by apply negb_true_iff.
Qed.

End LoadContacts.

(** ** Rendering the contact list (grouping by first letter) *)

Section Rendering.
Context `{Host}.

Lemma processContact_step (c : Contact) displayed nodes :
  processContact c (displayed, nodes) =
    if decide (firstLetter c ∈ displayed)
    then (displayed, nodes ++ [ContactElement c (initials c)])
    else (displayed ++ [firstLetter c],
          nodes ++ [LetterElement (firstLetter c); DividerElement;
                    ContactElement c (initials c)]).
Proof.
  unfold processContact, firstLetter, initials.
  destruct (getInitialsAndFirstLetter c) as [ini fl]. cbn [fst snd].
  rewrite (bool_decide_decide (fl ∈ displayed)).
  by destruct (decide (fl ∈ displayed)).
Qed.

Lemma foldl_processContact displayed nodes (cs : list Contact) :
  foldl (λ st contact, processContact contact st) (displayed, nodes) cs =
    (seen displayed cs, nodes ++ emitted displayed cs).
Proof.
  revert displayed nodes.
  induction cs as [|c cs IH]; intros displayed nodes; cbn [foldl seen emitted].
  - by rewrite app_nil_r.
  - rewrite processContact_step.
    destruct (decide (firstLetter c ∈ displayed)); rewrite IH; f_equal;
      by rewrite <- ?app_assoc.
Qed.

Lemma renderContactsList_emitted (cs : list Contact) :
  renderContactsList cs = emitted [] cs.
Proof. unfold renderContactsList. by rewrite foldl_processContact. Qed.

Lemma seen_elem_of displayed (cs : list Contact) L :
  L ∈ seen displayed cs ↔ L ∈ displayed ∨ L ∈ firstLetter <$> cs.
Proof.
  revert displayed. induction cs as [|c cs IH]; intros displayed; simpl.
  - rewrite elem_of_nil. tauto.
  - rewrite IH, elem_of_cons. destruct (decide (firstLetter c ∈ displayed)).
    + split; [tauto|]. intros [?|[->|?]]; tauto.
    + rewrite elem_of_app, list_elem_of_singleton. tauto.
Qed.

Lemma emitted_app displayed (cs1 cs2 : list Contact) :
  emitted displayed (cs1 ++ cs2) =
    emitted displayed cs1 ++ emitted (seen displayed cs1) cs2.
Proof.
  revert displayed. induction cs1 as [|c cs1 IH]; intros displayed; simpl; [done|].
  destruct (decide (firstLetter c ∈ displayed)); simpl; by rewrite IH.
Qed.

Lemma contacts_of_emitted displayed (cs : list Contact) :
  contacts_of (emitted displayed cs) = cs.
Proof.
  revert displayed. induction cs as [|c cs IH]; intros displayed; simpl; [done|].
  destruct (decide (firstLetter c ∈ displayed)); unfold contacts_of in *;
    simpl; by rewrite IH.
Qed.

Lemma letters_of_emitted displayed (cs : list Contact) :
  NoDup (letters_of (emitted displayed cs)) ∧
  ∀ L, L ∈ letters_of (emitted displayed cs) ↔
       ¬ L ∈ displayed ∧ L ∈ firstLetter <$> cs.
Proof.
  revert displayed. induction cs as [|c cs IH]; intros displayed; simpl.
  - split; [constructor|]. intros L. unfold letters_of. simpl.
    rewrite elem_of_nil. tauto.
  - destruct (decide (firstLetter c ∈ displayed)) as [Hin|Hnot].
    + destruct (IH displayed) as [Hnd Hiff]. split; [done|].
      intros L. change (letters_of (ContactElement c (initials c) :: ?l))
        with (letters_of l).
      rewrite Hiff, elem_of_cons. split; [tauto|].
      intros [Hd [->|Hl]]; tauto.
    + destruct (IH (displayed ++ [firstLetter c])) as [Hnd Hiff].
      change (letters_of (LetterElement ?l :: DividerElement
                          :: ContactElement c (initials c) :: ?rest))
        with (l :: letters_of rest).
      split.
      * constructor; [|done]. rewrite Hiff, elem_of_app, list_elem_of_singleton.
        tauto.
      * intros L. rewrite !elem_of_cons, Hiff, elem_of_app, list_elem_of_singleton.
        destruct (decide (L = firstLetter c)) as [->|Hne]; tauto.
Qed.

(** The grouping of the rendered list, for any list of contacts: the
    contact elements are the contacts in order; each first letter heads
    exactly one letter element; that element and the divider stand
    immediately before the first contact with the letter; and every
    contact comes after the letter element of its own first letter. *)
Lemma renderContactsList_groups (cs : list Contact) :
  let nodes := renderContactsList cs in
  contacts_of nodes = cs ∧
  NoDup (letters_of nodes) ∧
  (∀ L, L ∈ letters_of nodes ↔ ∃ c, c ∈ cs ∧ firstLetter c = L) ∧
  (∀ cs1 c cs2,
     cs = cs1 ++ c :: cs2 → firstLetter c ∉ firstLetter <$> cs1 →
     ∃ pre post,
       nodes = pre ++ [LetterElement (firstLetter c); DividerElement;
                       ContactElement c (initials c)] ++ post ∧
       contacts_of pre = cs1) ∧
  (∀ cs1 c cs2,
     cs = cs1 ++ c :: cs2 →
     ∃ pre post,
       nodes = pre ++ ContactElement c (initials c) :: post ∧
       contacts_of pre = cs1 ∧
       LetterElement (firstLetter c) ∈ pre).
Proof.
  intros nodes. subst nodes. rewrite renderContactsList_emitted.
  destruct (letters_of_emitted [] cs) as [Hnd Hiff].
  split_and!.
  - apply contacts_of_emitted.
  - done.
  - intros L. rewrite Hiff, list_elem_of_fmap, elem_of_nil. split.
    + intros [_ (c & -> & Hc)]. by exists c.
    + intros (c & Hc & <-). split; [tauto|]. by exists c.
  - intros cs1 c cs2 -> Hfirst. rewrite emitted_app. simpl.
    rewrite decide_False.
    + exists (emitted [] cs1), (emitted (seen [] cs1 ++ [firstLetter c]) cs2).
      split; [done|]. apply contacts_of_emitted.
    + rewrite seen_elem_of, elem_of_nil. tauto.
  - intros cs1 c cs2 ->. rewrite emitted_app. simpl.
    destruct (decide (firstLetter c ∈ seen [] cs1)) as [Hin|Hnot].
    + exists (emitted [] cs1), (emitted (seen [] cs1) cs2).
      split_and!; [done|apply contacts_of_emitted|].
      apply seen_elem_of in Hin as [Hin|Hin]; [by apply elem_of_nil in Hin|].
      destruct (letters_of_emitted [] cs1) as [_ Hiff1].
      assert (firstLetter c ∈ letters_of (emitted [] cs1)) as Hl.
      { apply Hiff1. split; [apply not_elem_of_nil|done]. }
      unfold letters_of in Hl. apply list_elem_of_omap in Hl as (n & Hn & Heq).
      destruct n; simplify_eq. done.
    + exists (emitted [] cs1 ++ [LetterElement (firstLetter c); DividerElement]),
             (emitted (seen [] cs1 ++ [firstLetter c]) cs2).
      split_and!.
      * by rewrite <- app_assoc.
      * unfold contacts_of. rewrite omap_app. simpl. rewrite app_nil_r.
        apply contacts_of_emitted.
      * apply elem_of_app. right. left.
Qed.

End Rendering.

(** ** Loading contacts: order and grouping *)

Section LoadContactsOrder.
Context `{HostLaws}.

Lemma processContacts_sorted (data : list (list N * StoredContact)) (g : Rng) :
  StronglySorted name_order (processContacts data g).
Proof.
  apply (Array_sort_sorted by_name).
  - intros a b. apply localeCompare_sign.
  - intros a b c. apply localeCompare_trans.
Qed.

Lemma built_from_names g (data : list (list N * StoredContact)) (cs : list Contact) :
  Forall (λ entry, sc_id entry.2 = None ∨ sc_id entry.2 = Some entry.1) data →
  Forall2 (built_from g) data cs →
  (λ c, (id c, name c)) <$> cs = (λ entry, (entry.1, sc_name entry.2)) <$> data.
Proof.
  intros Hids Hb. induction Hb as [|entry c data cs Hb _ IH]; [done|].
  apply Forall_cons in Hids as [Hid Hids].
  rewrite !fmap_cons, IH by done. f_equal.
  destruct Hb as (-> & -> & _). by destruct Hid as [-> | ->].
Qed.

(** C6, amended. For a non-empty contact collection in which no record
    carries an id other than its own key, [loadContacts] returns the
    contacts of the collection sorted by name in the order of
    [localeCompare], and renders them grouped by first letter, which is
    the first code unit of the name in upper case: each distinct first
    letter gets one letter element, placed with its divider immediately
    before the first contact with that letter, and every contact comes
    after the letter element of its own letter. *)
Theorem loadContacts_sorted_grouped (data : list (list N * StoredContact))
    (g : Rng) :
  data ≠ [] → store_wf data →
  ∃ (cs : list Contact) (nodes : list Node),
    returned (loadContacts (FetchJson (Some data)) g) = Some cs ∧
    rendered (loadContacts (FetchJson (Some data)) g) = Some nodes ∧
    StronglySorted name_order cs ∧
    (λ c, (id c, name c)) <$> cs ≡ₚ (λ entry, (entry.1, sc_name entry.2)) <$> data ∧
    contacts_of nodes = cs ∧
    NoDup (letters_of nodes) ∧
    (∀ L, L ∈ letters_of nodes ↔ ∃ c, c ∈ cs ∧ firstLetter c = L) ∧
    (∀ cs1 c cs2,
       cs = cs1 ++ c :: cs2 → firstLetter c ∉ firstLetter <$> cs1 →
       ∃ pre post,
         nodes = pre ++ [LetterElement (firstLetter c); DividerElement;
                         ContactElement c (initials c)] ++ post ∧
         contacts_of pre = cs1) ∧
    (∀ cs1 c cs2,
       cs = cs1 ++ c :: cs2 →
       ∃ pre post,
         nodes = pre ++ ContactElement c (initials c) :: post ∧
         contacts_of pre = cs1 ∧
         LetterElement (firstLetter c) ∈ pre) ∧
    (∀ c : Contact, firstLetter c = toUpperCase (take 1 (name c))).
Proof.
  intros _ Hwf. rewrite loadContacts_wf by done. simpl.
  exists (processContacts data g), (renderContactsList (processContacts data g)).
  split; [done|]. split; [done|].
  split; [apply processContacts_sorted|].
  split.
  - rewrite processContacts_perm.
    rewrite (built_from_names g data); [done|apply Hwf|apply map_entries_built].
  - pose proof (renderContactsList_groups (processContacts data g)) as Hgroups.
    repeat (split; [apply Hgroups|]). done.
Qed.

End LoadContactsOrder.

(** ** What the loaders return without data *)

(** C8. [loadTasks] and [loadTaskContacts] return the empty array both
    when the request fails and when the store has no data, and
    [loadContacts] returns it when the request fails; but with no data
    [loadContacts] returns [undefined], not an array. *)
Theorem loaders_without_data `{Host} (g : Rng) :
  loadTasks FetchFails = [] ∧
  loadTasks (FetchJson None) = [] ∧
  loadTaskContacts FetchFails g = [] ∧
  loadTaskContacts (FetchJson None) g = [] ∧
  returned (loadContacts FetchFails g) = Some [] ∧
  returned (loadContacts (FetchJson None) g) = None.
Proof. by split_and!. Qed.

(** ** The host used for concrete runs is lawful *)

Lemma codeunit_compare_opp (a b : list N) :
  codeunit_compare b a = (- codeunit_compare a b)%Z.
Proof.
  revert b. induction a as [|x a IH]; intros [|y b]; simpl; try done.
  rewrite (N.compare_antisym x y). destruct (x ?= y)%N; simpl; [apply IH|done..].
Qed.

Lemma codeunit_compare_trans (a b c : list N) :
  (codeunit_compare a b ≤ 0 → codeunit_compare b c ≤ 0 →
   codeunit_compare a c ≤ 0)%Z.
Proof.
  revert b c. induction a as [|x a IH]; intros [|y b] [|z c]; simpl; try lia.
  destruct (N.compare_spec x y), (N.compare_spec y z), (N.compare_spec x z);
    subst; try lia; eauto.
Qed.

Global Instance asciiHost_laws : @HostLaws asciiHost.
Proof.
  split; simpl.
  - intros a b. rewrite (codeunit_compare_opp a b). lia.
  - apply codeunit_compare_trans.
Qed.

(** ** White space at the ends of a string *)

Lemma trimStart_head (s : list N) : head_ok (trimStart s).
Proof.
  induction s as [|c s IH]; simpl; [done|].
  destruct (is_space c) eqn:Hc; [done|]. simpl. done.
Qed.

Lemma trimStart_fix (s : list N) : head_ok s → trimStart s = s.
Proof. destruct s as [|c s]; simpl; [done|]. by intros ->. Qed.

Lemma trimStart_drop (s : list N) :
  ∃ a, s = a ++ trimStart s ∧ all_space a.
Proof.
  induction s as [|c s (a & IH & Ha)]; simpl.
  - exists []. split; [done|constructor].
  - destruct (is_space c) eqn:Hc.
    + exists (c :: a). split; [by rewrite IH at 1|by constructor].
    + exists []. split; [done|constructor].
Qed.

Lemma trimEnd_drop (s : list N) :
  ∃ b, s = trimEnd s ++ b ∧ all_space b.
Proof.
  destruct (trimStart_drop (reverse s)) as (a & Heq & Ha).
  exists (reverse a). split.
  - unfold trimEnd. rewrite <- reverse_app, <- Heq. by rewrite reverse_involutive.
  - unfold all_space. by apply Forall_reverse.
Qed.

Lemma trimEnd_last (s : list N) : head_ok (reverse (trimEnd s)).
Proof. unfold trimEnd. rewrite reverse_involutive. apply trimStart_head. Qed.

Lemma trimEnd_head (s : list N) : head_ok s → head_ok (trimEnd s).
Proof.
  intros Hs. destruct (trimEnd_drop s) as (b & Heq & _).
  destruct (trimEnd s) as [|c r]; [done|]. rewrite Heq in Hs. done.
Qed.

Lemma trimEnd_fix (s : list N) : head_ok (reverse s) → trimEnd s = s.
Proof.
  intros Hs. unfold trimEnd. rewrite trimStart_fix by done.
  apply reverse_involutive.
Qed.

Lemma trim_head (s : list N) : head_ok (trim s).
Proof. apply trimEnd_head, trimStart_head. Qed.

Lemma trim_last (s : list N) : head_ok (reverse (trim s)).
Proof. apply trimEnd_last. Qed.

Lemma trim_idem (s : list N) : trim (trim s) = trim s.
Proof.
  unfold trim at 1. rewrite (trimStart_fix (trim s)) by apply trim_head.
  apply trimEnd_fix, trim_last.
Qed.

Lemma trim_ends (s : list N) :
  ∃ a b,
    s = a ++ trim s ++ b ∧ all_space a ∧ all_space b ∧
    head_ok (trim s) ∧ head_ok (reverse (trim s)).
Proof.
  destruct (trimStart_drop s) as (a & Ha & Hsa).
  destruct (trimEnd_drop (trimStart s)) as (b & Hb & Hsb).
  exists a, b. split_and!; try done.
  - fold (trim s) in Hb. by rewrite <- Hb.
  - apply trim_head.
  - apply trim_last.
Qed.

Lemma trim_all_space (s : list N) : all_space s → trim s = [].
Proof.
  intros Hall. unfold trim.
  assert (trimStart s = []) as ->; [|done].
  induction Hall as [|c s Hc _ IH]; simpl; [done|]. by rewrite Hc.
Qed.

(** [getContactFormValues] reads each field without the white space at
    its ends and changes nothing else of it; read again from a form
    that holds the values read, the values are the same. A name of
    white space alone is read as the empty string, and the values are
    then refused by [validateContactFields]. *)
Theorem getContactFormValues_spec (form : ContactForm) :
  let v := getContactFormValues form in
  (∃ a b, contact_name_value form = a ++ fv_name v ++ b ∧
          all_space a ∧ all_space b ∧
          head_ok (fv_name v) ∧ head_ok (reverse (fv_name v))) ∧
  (∃ a b, contact_email_value form = a ++ fv_email v ++ b ∧
          all_space a ∧ all_space b ∧
          head_ok (fv_email v) ∧ head_ok (reverse (fv_email v))) ∧
  (∃ a b, contact_phone_value form = a ++ fv_phone v ++ b ∧
          all_space a ∧ all_space b ∧
          head_ok (fv_phone v) ∧ head_ok (reverse (fv_phone v))) ∧
  getContactFormValues
    {| contact_name_value := fv_name v; contact_email_value := fv_email v;
       contact_phone_value := fv_phone v |} = v ∧
  (all_space (contact_name_value form) →
     fv_name v = [] ∧
     fst (validateContactFields (fv_name v) (fv_email v) (fv_phone v)) = false).
Proof.
  intros v. subst v. unfold getContactFormValues. cbn [fv_name fv_email fv_phone].
  split_and!; try apply trim_ends.
  - cbn [contact_name_value contact_email_value contact_phone_value].
    by rewrite !trim_idem.
  - intros Hall. rewrite (trim_all_space _ Hall). split; [done|].
    by rewrite validateContactFields_verdict.
Qed.

(** ** The add-task page: selected contacts *)

Lemma is_selected_spec (sel : list Contact) (k : list N) :
  AddTask.is_selected sel k = true ↔ k ∈ id <$> sel.
Proof.
  unfold AddTask.is_selected. rewrite existsb_exists, list_elem_of_fmap.
  split.
  - intros (c & Hin & Hc). apply bool_decide_eq_true in Hc.
    exists c. split; [done|by apply list_elem_of_In].
  - intros (c & -> & Hin). exists c.
    split; [by apply list_elem_of_In|by apply bool_decide_eq_true].
Qed.

Lemma is_selected_false (sel : list Contact) (k : list N) :
  AddTask.is_selected sel k = false ↔ k ∉ id <$> sel.
Proof.
  rewrite <- is_selected_spec. by destruct (AddTask.is_selected sel k).
Qed.

Lemma addContact_NoDup item (c : Contact) (sel : list Contact) :
  NoDup (id <$> sel) → NoDup (id <$> fst (AddTask.addContact item c sel)).
Proof.
  intros Hnd. unfold AddTask.addContact. simpl.
  destruct (AddTask.is_selected sel (id c)) eqn:Hs; simpl; [done|].
  rewrite fmap_app. apply NoDup_app. split_and!; [done| |apply NoDup_singleton].
  intros k Hk Hk'. apply list_elem_of_singleton in Hk' as ->.
  by apply is_selected_false in Hs.
Qed.

Lemma filter_other_ids (sel : list Contact) (k : list N) :
  k ∉ id <$> sel → filter (λ c, id c ≠ k) sel = sel.
Proof.
  induction sel as [|c sel IH]; intros Hk; [done|].
  rewrite fmap_cons, not_elem_of_cons in Hk. destruct Hk as [Hne Hk].
  rewrite filter_cons_True by done. by rewrite IH.
Qed.

(** [addContact] never selects a contact twice: a contact whose id is
    already selected leaves the array as it is, any other is appended,
    and ids that were distinct stay distinct. *)
Theorem addContact_no_duplicates item (c : Contact) (sel : list Contact) :
  let sel' := fst (AddTask.addContact item c sel) in
  AddTask.is_selected sel' (id c) = true ∧
  (AddTask.is_selected sel (id c) = true → sel' = sel) ∧
  (AddTask.is_selected sel (id c) = false → sel' = sel ++ [c]) ∧
  (NoDup (id <$> sel) → NoDup (id <$> sel')).
Proof.
  simpl. split_and!.
  - apply is_selected_spec. unfold AddTask.addContact. simpl.
    destruct (AddTask.is_selected sel (id c)) eqn:Hs; simpl.
    + by apply is_selected_spec.
    + rewrite fmap_app. apply elem_of_app. right. simpl. left.
  - intros Hs. unfold AddTask.addContact. simpl. by rewrite Hs.
  - intros Hs. unfold AddTask.addContact. simpl. by rewrite Hs.
  - apply (addContact_NoDup item).
Qed.

(** [removeContact] leaves no contact with the given id and keeps the
    others in order; removing a contact that [addContact] has just
    appended gives back the array from before. *)
Theorem removeContact_spec item item' (sel : list Contact) (k : list N) :
  let sel' := fst (AddTask.removeContact item k sel) in
  AddTask.is_selected sel' k = false ∧
  sublist sel' sel ∧
  (∀ c, c ∈ sel → id c ≠ k → c ∈ sel') ∧
  (∀ c, id c = k → AddTask.is_selected sel k = false →
        fst (AddTask.removeContact item k
               (fst (AddTask.addContact item' c sel))) = sel).
Proof.
  simpl. split_and!.
  - apply is_selected_false. rewrite list_elem_of_fmap.
    intros (c & -> & Hc). by apply list_elem_of_filter in Hc as [Hne _].
  - apply sublist_filter.
  - intros c Hc Hne. by apply list_elem_of_filter.
  - intros c <- Hs. unfold AddTask.addContact. simpl. rewrite Hs. simpl.
    rewrite filter_app, filter_cons_False, filter_nil, app_nil_r by (by intros ?).
    apply filter_other_ids. by apply is_selected_false.
Qed.

Lemma handleContactSelection_inv (contacts : list Contact) k b
    (sel : list Contact) :
  NoDup (id <$> sel) ∧ (∀ c, c ∈ sel → c ∈ contacts) →
  let sel' := fst (AddTask.handleContactSelection contacts k b sel) in
  NoDup (id <$> sel') ∧ (∀ c, c ∈ sel' → c ∈ contacts).
Proof.
  intros [Hnd Hsub]. unfold AddTask.handleContactSelection.
  destruct (find _ contacts) as [c|] eqn:Hfind; simpl; [|done].
  apply find_some in Hfind as [Hin _]. apply list_elem_of_In in Hin.
  destruct b; simpl.
  - split; [by apply (addContact_NoDup k)|].
    unfold AddTask.addContact. simpl.
    destruct (AddTask.is_selected sel (id c)); simpl; [done|].
    intros c' Hc'. apply elem_of_app in Hc' as [?|Hc']; [by apply Hsub|].
    by apply list_elem_of_singleton in Hc' as ->.
  - split.
    + eapply sublist_NoDup; [exact Hnd|]. apply fmap_sublist, sublist_filter.
    + intros c' Hc'. apply list_elem_of_filter in Hc' as [_ Hc']. by apply Hsub.
Qed.

(** Whatever items are clicked, starting from an empty selection, the
    selected contacts have distinct ids and are contacts of the page; a
    click on an item whose id is not a contact of the page changes
    nothing. *)
Theorem selection_invariant (contacts : list Contact)
    (clicks : list (list N * bool)) :
  let sel := after_clicks contacts clicks [] in
  NoDup (id <$> sel) ∧
  (∀ c, c ∈ sel → c ∈ contacts) ∧
  (∀ k b, k ∉ id <$> contacts →
     AddTask.handleContactSelection contacts k b sel = (sel, [])).
Proof.
  simpl.
  assert (∀ sel, NoDup (id <$> sel) ∧ (∀ c, c ∈ sel → c ∈ contacts) →
          NoDup (id <$> after_clicks contacts clicks sel)
          ∧ (∀ c, c ∈ after_clicks contacts clicks sel → c ∈ contacts)) as Hinv.
  { induction clicks as [|[k b] clicks IH]; intros sel Hsel; [done|].
    apply IH. by apply handleContactSelection_inv. }
  destruct (Hinv []) as [Hnd Hsub].
  { split; [constructor|]. intros c Hc. by apply elem_of_nil in Hc. }
  split_and!; [done..|].
  intros k b Hk. unfold AddTask.handleContactSelection.
  destruct (find _ contacts) as [c|] eqn:Hfind; [|done].
  apply find_some in Hfind as [Hin Hc]. apply bool_decide_eq_true in Hc.
  exfalso. apply Hk. apply list_elem_of_fmap. exists c.
  split; [done|by apply list_elem_of_In].
Qed.

(** ** The add-task page: the subtasks array *)

Lemma validateSubtask_blank (input : list N) :
  trim input = [] →
  AddTask.validateSubtask input =
    (None, showErrorMessage (str "Please enter a subtask.")).
Proof. intros Hb. unfold AddTask.validateSubtask. by rewrite bool_decide_eq_true_2. Qed.

Lemma validateSubtask_name (input : list N) :
  trim input ≠ [] → AddTask.validateSubtask input = (Some (trim input), []).
Proof. intros Hb. unfold AddTask.validateSubtask. by rewrite bool_decide_eq_false_2. Qed.

Lemma addSubtask_blank (ed : AddTask.Editor) :
  trim (AddTask.input_value ed) = [] →
  AddTask.addSubtask ed = (ed, showErrorMessage (str "Please enter a subtask.")).
Proof. intros Hb. unfold AddTask.addSubtask. by rewrite validateSubtask_blank. Qed.

Lemma addSubtask_name (ed : AddTask.Editor) :
  trim (AddTask.input_value ed) ≠ [] →
  AddTask.addSubtask ed =
    ({| AddTask.subtasks_array :=
          AddTask.subtasks_array ed ++
          [{| st_name := trim (AddTask.input_value ed); st_completed := false |}];
        AddTask.input_value := [];
        AddTask.editingSubtaskIndex := AddTask.editingSubtaskIndex ed |},
     [Call (str "updateSubtasksList")]).
Proof.
  intros Hb. unfold AddTask.addSubtask. rewrite validateSubtask_name by done.
  simpl. destruct (trim (AddTask.input_value ed)); [done|]. done.
Qed.

(** [addSubtask] with an input that is empty or white space only shows
    an error and changes nothing. Otherwise it appends one subtask, named
    by the trimmed input and not completed, after the existing subtasks,
    which keep their positions, and empties the input. *)
Theorem AddTask_addSubtask_spec (ed : AddTask.Editor) :
  let ed' := fst (AddTask.addSubtask ed) in
  let fx := snd (AddTask.addSubtask ed) in
  (trim (AddTask.input_value ed) = [] →
     ed' = ed ∧
     fx = [ SetTextContent (str "error-message-box")
                           (str "Please enter a subtask.");
            ClassAdd (str "error-message-box") (str "show");
            SetTimeout [ClassRemove (str "error-message-box") (str "show")]
                       2500 ]) ∧
  (trim (AddTask.input_value ed) ≠ [] →
     AddTask.subtasks_array ed' !! length (AddTask.subtasks_array ed) =
       Some {| st_name := trim (AddTask.input_value ed); st_completed := false |} ∧
     length (AddTask.subtasks_array ed') = S (length (AddTask.subtasks_array ed)) ∧
     (∀ i s, AddTask.subtasks_array ed !! i = Some s →
             AddTask.subtasks_array ed' !! i = Some s) ∧
     AddTask.input_value ed' = [] ∧
     existsb is_write fx = false).
Proof.
  cbv zeta. split.
  - intros Hb. by rewrite addSubtask_blank.
  - intros Hb. rewrite addSubtask_name by done. simpl. split_and!.
    + by rewrite lookup_app_r, Nat.sub_diag.
    + rewrite length_app. simpl. lia.
    + intros i s Hi. by apply lookup_app_l_Some.
    + done.
    + done.
Qed.

(** [deleteSubtask] removes the subtask at the index and moves the later
    ones up by one; an index past the end removes nothing. Deleting the
    subtask that [addSubtask] has just appended gives back the array from
    before. *)
Theorem AddTask_deleteSubtask_spec (ed : AddTask.Editor) (index : nat) :
  let old := AddTask.subtasks_array ed in
  let new := AddTask.subtasks_array (fst (AddTask.deleteSubtask index ed)) in
  (length old ≤ index → new = old) ∧
  (index < length old →
     S (length new) = length old ∧
     (∀ i, i < index → new !! i = old !! i) ∧
     (∀ i, index ≤ i → new !! i = old !! S i)) ∧
  (trim (AddTask.input_value ed) ≠ [] →
     AddTask.subtasks_array
       (fst (AddTask.deleteSubtask (length old) (fst (AddTask.addSubtask ed))))
     = old).
Proof.
  cbv zeta. simpl. split_and!.
  - intros Hge. rewrite delete_take_drop.
    rewrite take_ge, drop_ge by lia. by rewrite app_nil_r.
  - intros Hlt. split_and!.
    + rewrite length_delete; [lia|]. by apply lookup_lt_is_Some_2.
    + intros i Hi. by apply list_lookup_delete_lt.
    + intros i Hi. by apply list_lookup_delete_ge.
  - intros Hb. rewrite addSubtask_name by done. simpl.
    replace (AddTask.subtasks_array ed ++ [_])
      with (AddTask.subtasks_array ed ++ {| st_name := trim (AddTask.input_value ed);
                                            st_completed := false |} :: []) by done.
    rewrite delete_middle. by rewrite app_nil_r.
Qed.

(** [saveSubtask] with a non-blank input renames the subtask at the
    index to the trimmed input and changes nothing else about the
    subtasks: not its completion, not another subtask, not the length. A
    blank input shows an error and changes nothing; an index past the end
    with a non-blank input throws. *)
Theorem AddTask_saveSubtask_spec (ed : AddTask.Editor) (index : nat)
    (editInput : list N) :
  (trim editInput = [] →
     AddTask.saveSubtask index editInput ed =
       Ok (ed,
           [ SetTextContent (str "error-message-box")
                            (str "Please enter a valid subtask.");
             ClassAdd (str "error-message-box") (str "show");
             SetTimeout [ClassRemove (str "error-message-box") (str "show")]
                        2500 ])) ∧
  (trim editInput ≠ [] → length (AddTask.subtasks_array ed) ≤ index →
     AddTask.saveSubtask index editInput ed = Throws) ∧
  (trim editInput ≠ [] →
   ∀ s, AddTask.subtasks_array ed !! index = Some s →
     ∃ ed' fx,
       AddTask.saveSubtask index editInput ed = Ok (ed', fx) ∧
       AddTask.subtasks_array ed' !! index =
         Some {| st_name := trim editInput; st_completed := st_completed s |} ∧
       length (AddTask.subtasks_array ed') = length (AddTask.subtasks_array ed) ∧
       (∀ j, j ≠ index →
             AddTask.subtasks_array ed' !! j = AddTask.subtasks_array ed !! j) ∧
       AddTask.editingSubtaskIndex ed' = None).
Proof.
  split_and!.
  - intros Hb. unfold AddTask.saveSubtask. by rewrite bool_decide_eq_true_2.
  - intros Hb Hge. unfold AddTask.saveSubtask.
    rewrite bool_decide_eq_false_2 by done.
    by rewrite lookup_ge_None_2.
  - intros Hb s Hs. unfold AddTask.saveSubtask.
    rewrite bool_decide_eq_false_2 by done. rewrite Hs.
    eexists _, _. split; [done|]. simpl. split_and!.
    + apply list_lookup_insert_eq. by eapply lookup_lt_Some.
    + by rewrite length_insert.
    + intros j Hj. by apply list_lookup_insert_ne.
    + done.
Qed.

Lemma Forall_fresh_delete (l : list Subtask) i :
  Forall fresh_subtask l → Forall fresh_subtask (delete i l).
Proof.
  intros Hall. apply Forall_forall. intros s Hs.
  rewrite Forall_forall in Hall. apply Hall. by eapply list_elem_of_delete_inv.
Qed.

Lemma editor_step_fresh (ed : AddTask.Editor) (a : EditorAction) :
  Forall fresh_subtask (AddTask.subtasks_array ed) →
  Forall fresh_subtask (AddTask.subtasks_array (editor_step ed a)).
Proof.
  intros Hall. destruct a as [text| |index|index editInput|]; simpl.
  - done.
  - destruct (decide (trim (AddTask.input_value ed) = [])) as [Hb|Hb].
    + by rewrite addSubtask_blank.
    + rewrite addSubtask_name by done. simpl.
      apply Forall_app. split; [done|].
      constructor; [|constructor]. split_and!; [done..|apply trim_idem].
  - by apply Forall_fresh_delete.
  - unfold AddTask.saveSubtask. case_bool_decide as Hb; [done|].
    destruct (AddTask.subtasks_array ed !! index) as [s|] eqn:Hs; [|done].
    simpl. apply Forall_insert; [done|].
    rewrite Forall_forall in Hall.
    destruct (Hall s) as (Hc & _); [by eapply list_elem_of_lookup_2|].
    split_and!; [done..|apply trim_idem].
  - constructor.
Qed.

(** Whatever the user types, adds, deletes, renames or clears, every
    subtask of the form is not completed and has a non-empty name
    without white space at its ends. *)
Theorem AddTask_subtasks_invariant (actions : list EditorAction) :
  Forall fresh_subtask
    (AddTask.subtasks_array (foldl editor_step empty_editor actions)).
Proof.
  assert (∀ ed, Forall fresh_subtask (AddTask.subtasks_array ed) →
                Forall fresh_subtask
                  (AddTask.subtasks_array (foldl editor_step ed actions))) as Hinv.
  { induction actions as [|a actions IH]; intros ed Hed; [done|].
    simpl. apply IH. by apply editor_step_fresh. }
  apply Hinv. constructor.
Qed.

(** ** Progress after a change of the subtasks *)

Lemma completed_insert_fresh (m : gmap (list N) Subtask) k v :
  m !! k = None →
  size (filter is_completed (<[k := v]> m)) =
    flag (st_completed v) + size (filter is_completed m).
Proof.
  intros Hk. destruct (st_completed v) eqn:Hv; simpl.
  - rewrite map_filter_insert_True by done.
    rewrite map_size_insert_None; [done|].
    apply map_lookup_filter_None. by left.
  - rewrite map_filter_insert_False by (unfold is_completed; simpl; congruence).
    by rewrite delete_id.
Qed.

Lemma completed_delete (m : gmap (list N) Subtask) k s :
  m !! k = Some s →
  size (filter is_completed m) =
    flag (st_completed s) + size (filter is_completed (delete k m)).
Proof.
  intros Hk. rewrite <- (insert_delete_id m k s) at 1 by done.
  apply completed_insert_fresh, lookup_delete_eq.
Qed.

Lemma progress_insert_fresh (m : gmap (list N) Subtask) k v :
  m !! k = None →
  let p := calculateSubtaskProgress m in
  let p' := calculateSubtaskProgress (<[k := v]> m) in
  total p' = S (total p) ∧ completed p' = flag (st_completed v) + completed p.
Proof.
  intros Hk. cbv zeta.
  destruct (calculateSubtaskProgress_counts m) as [-> ->].
  destruct (calculateSubtaskProgress_counts (<[k := v]> m)) as [-> ->].
  split; [by apply map_size_insert_None|by apply completed_insert_fresh].
Qed.

Lemma progress_delete (m : gmap (list N) Subtask) k s :
  m !! k = Some s →
  let p := calculateSubtaskProgress m in
  let p' := calculateSubtaskProgress (delete k m) in
  total p = S (total p') ∧ completed p = flag (st_completed s) + completed p'.
Proof.
  intros Hk. cbv zeta.
  destruct (calculateSubtaskProgress_counts m) as [-> ->].
  destruct (calculateSubtaskProgress_counts (delete k m)) as [-> ->].
  split; [|by apply completed_delete].
  rewrite map_size_delete_Some by done.
  assert (size m ≠ 0); [|lia]. apply map_size_ne_0_lookup_2 with k. by eexists.
Qed.

Lemma progress_replace (m : gmap (list N) Subtask) k s v :
  m !! k = Some s →
  let p := calculateSubtaskProgress m in
  let p' := calculateSubtaskProgress (<[k := v]> m) in
  total p' = total p ∧
  completed p' + flag (st_completed s) = completed p + flag (st_completed v).
Proof.
  intros Hk. cbv zeta.
  destruct (progress_delete m k s Hk) as [Ht Hc].
  destruct (progress_insert_fresh (delete k m) k v (lookup_delete_eq m k))
    as [Ht' Hc'].
  rewrite insert_delete_eq in Ht', Hc'. lia.
Qed.

(** After [toggleSubtask] the progress of the task has the same total,
    and one more completed subtask if the toggled one was open, one less
    if it was completed. *)
Theorem toggleSubtask_progress (tasks : list TaskObj) (taskIndex : nat)
    (subtaskId : list N) (subs : gmap (list N) Subtask) (subtask : Subtask) :
  subtasks_at tasks taskIndex = Some subs →
  subs !! subtaskId = Some subtask →
  ∃ tasks' fx subs',
    toggleSubtask taskIndex subtaskId tasks = Ok (tasks', fx) ∧
    subtasks_at tasks' taskIndex = Some subs' ∧
    total (calculateSubtaskProgress subs') = total (calculateSubtaskProgress subs) ∧
    (st_completed subtask = false →
       completed (calculateSubtaskProgress subs')
         = S (completed (calculateSubtaskProgress subs))) ∧
    (st_completed subtask = true →
       S (completed (calculateSubtaskProgress subs'))
         = completed (calculateSubtaskProgress subs)).
Proof.
  intros Hat Hsub. unfold subtasks_at in Hat.
  destruct (tasks !! taskIndex) as [taskObj|] eqn:Ht; [|done]. simpl in Hat.
  rewrite (toggleSubtask_ok _ _ _ _ _ _ Ht Hat Hsub).
  eexists _, _, _. split; [done|]. split.
  { unfold subtasks_at. rewrite list_lookup_insert_eq by (by eapply lookup_lt_Some).
    done. }
  destruct (progress_replace subs subtaskId subtask (toggled subtask) Hsub)
    as [Htot Hcomp].
  simpl in Hcomp. split; [done|].
  destruct (st_completed subtask); simpl in Hcomp; split; intros; try done; lia.
Qed.

(** ** The board: adding and deleting subtasks *)

Lemma board_addSubtask_ok (st : Board.State) (taskObj : TaskObj) :
  Board.tasks st !! Board.currentTaskIndex st = Some taskObj →
  trim (Board.newSubtaskInput st) ≠ [] →
  Board.addSubtask st =
    Ok ({| Board.tasks :=
             <[Board.currentTaskIndex st :=
                 {| to_id := to_id taskObj;
                    task := set_subtasks (task taskObj)
                      (<[Board.subtask_key (Board.subtaskCounter st) :=
                           {| st_name := trim (Board.newSubtaskInput st);
                              st_completed := false |}]>
                         (default ∅ (subtasks (task taskObj)))) |}]>
               (Board.tasks st);
           Board.currentTaskIndex := Board.currentTaskIndex st;
           Board.subtaskCounter := S (Board.subtaskCounter st);
           Board.newSubtaskInput := [] |},
        [ Call (str "event.preventDefault");
          Call (str "updateSubtasksList");
          Call (str "unfocusInput") ]).
Proof.
  intros Ht Hb. unfold Board.addSubtask.
  rewrite bool_decide_eq_false_2 by done. by rewrite Ht.
Qed.

(** [addSubtask] on the board, for an open task and a non-blank input,
    stores a subtask that is not completed under the key made from the
    counter, advances the counter and empties the input; the other
    subtasks are untouched. If the key was free, the progress gains one
    subtask; if a subtask was stored under it, that subtask is replaced.
    A blank input changes nothing, and without an open task the call
    throws. *)
Theorem Board_addSubtask_spec (st : Board.State) :
  (trim (Board.newSubtaskInput st) = [] →
     Board.addSubtask st = Ok (st, [Call (str "event.preventDefault")])) ∧
  (trim (Board.newSubtaskInput st) ≠ [] →
   Board.tasks st !! Board.currentTaskIndex st = None →
     Board.addSubtask st = Throws) ∧
  (trim (Board.newSubtaskInput st) ≠ [] →
   ∀ taskObj,
     Board.tasks st !! Board.currentTaskIndex st = Some taskObj →
     let subs := default ∅ (subtasks (task taskObj)) in
     let key := str "subtask-" ++ str (pretty (Board.subtaskCounter st)) in
     ∃ st' fx subs',
       Board.addSubtask st = Ok (st', fx) ∧
       subtasks_at (Board.tasks st') (Board.currentTaskIndex st) = Some subs' ∧
       subs' !! key = Some {| st_name := trim (Board.newSubtaskInput st);
                              st_completed := false |} ∧
       (∀ other, other ≠ key → subs' !! other = subs !! other) ∧
       Board.subtaskCounter st' = S (Board.subtaskCounter st) ∧
       Board.newSubtaskInput st' = [] ∧
       (subs !! key = None →
          total (calculateSubtaskProgress subs')
            = S (total (calculateSubtaskProgress subs)) ∧
          completed (calculateSubtaskProgress subs')
            = completed (calculateSubtaskProgress subs)) ∧
       (∀ old, subs !! key = Some old →
          total (calculateSubtaskProgress subs')
            = total (calculateSubtaskProgress subs) ∧
          completed (calculateSubtaskProgress subs') + flag (st_completed old)
            = completed (calculateSubtaskProgress subs))).
Proof.
  split_and!.
  - intros Hb. unfold Board.addSubtask. by rewrite bool_decide_eq_true_2.
  - intros Hb Ht. unfold Board.addSubtask.
    rewrite bool_decide_eq_false_2 by done. by rewrite Ht.
  - intros Hb taskObj Ht subs key.
    rewrite (board_addSubtask_ok st taskObj Ht Hb).
    eexists _, _, _. split; [done|]. simpl. split.
    { unfold subtasks_at.
      rewrite list_lookup_insert_eq by (by eapply lookup_lt_Some). done. }
    change (Board.subtask_key (Board.subtaskCounter st)) with key.
    fold subs. split_and!; try done.
    + apply lookup_insert_eq.
    + intros other Hne. by apply lookup_insert_ne.
    + intros Hfree.
      destruct (progress_insert_fresh subs key
                  {| st_name := trim (Board.newSubtaskInput st);
                     st_completed := false |} Hfree) as [Ht' Hc'].
      by split.
    + intros old Hold.
      destruct (progress_replace subs key old
                  {| st_name := trim (Board.newSubtaskInput st);
                     st_completed := false |} Hold) as [Ht' Hc'].
      cbn [st_completed flag] in Hc'. split; [done|lia].
Qed.

(** [deleteSubtask] on the board removes the subtask with the id from
    the open task and nothing else, so the progress loses that subtask;
    an id that is not there changes nothing. *)
Theorem Board_deleteSubtask_spec (st : Board.State)
    (subs : gmap (list N) Subtask) (subtaskId : list N) :
  subtasks_at (Board.tasks st) (Board.currentTaskIndex st) = Some subs →
  (subs !! subtaskId = None → Board.deleteSubtask subtaskId st = Ok (st, [])) ∧
  (∀ s, subs !! subtaskId = Some s →
     ∃ st' fx,
       Board.deleteSubtask subtaskId st = Ok (st', fx) ∧
       subtasks_at (Board.tasks st') (Board.currentTaskIndex st)
         = Some (delete subtaskId subs) ∧
       (∀ j, j ≠ Board.currentTaskIndex st →
             Board.tasks st' !! j = Board.tasks st !! j) ∧
       total (calculateSubtaskProgress subs)
         = S (total (calculateSubtaskProgress (delete subtaskId subs))) ∧
       completed (calculateSubtaskProgress subs)
         = flag (st_completed s)
           + completed (calculateSubtaskProgress (delete subtaskId subs))).
Proof.
  intros Hat. unfold subtasks_at in Hat.
  destruct (Board.tasks st !! Board.currentTaskIndex st) as [taskObj|] eqn:Ht;
    [|done].
  simpl in Hat. pose proof (lookup_lt_Some _ _ _ Ht) as Hlt.
  split.
  - intros Hnone. unfold Board.deleteSubtask. by rewrite Ht, Hat, Hnone.
  - intros s Hs. unfold Board.deleteSubtask. rewrite Ht, Hat, Hs.
    eexists _, _. split; [done|]. simpl. split_and!.
    + unfold subtasks_at. by rewrite list_lookup_insert_eq.
    + intros j Hj. by apply list_lookup_insert_ne.
    + apply (progress_delete subs subtaskId s Hs).
    + apply (progress_delete subs subtaskId s Hs).
Qed.

(** On the board, for an open task and a non-blank input whose key
    [subtask-<counter>] is free: [addSubtask] followed by
    [deleteSubtask] of that key advances the counter and leaves every
    other task as it was. A task that had a subtasks object has the
    same subtasks again, and the tasks array is the one from before; a
    task that had none is left with an empty subtasks object, so the
    array is not the one from before. *)
Theorem Board_add_then_delete (st : Board.State) (taskObj : TaskObj) :
  Board.tasks st !! Board.currentTaskIndex st = Some taskObj →
  trim (Board.newSubtaskInput st) ≠ [] →
  default ∅ (subtasks (task taskObj))
    !! (str "subtask-" ++ str (pretty (Board.subtaskCounter st))) = None →
  ∃ st1 fx1 st2 fx2,
    Board.addSubtask st = Ok (st1, fx1) ∧
    Board.deleteSubtask
      (str "subtask-" ++ str (pretty (Board.subtaskCounter st))) st1
      = Ok (st2, fx2) ∧
    Board.subtaskCounter st2 = S (Board.subtaskCounter st) ∧
    (∀ j, j ≠ Board.currentTaskIndex st →
          Board.tasks st2 !! j = Board.tasks st !! j) ∧
    subtasks_at (Board.tasks st2) (Board.currentTaskIndex st)
      = Some (default ∅ (subtasks (task taskObj))) ∧
    (is_Some (subtasks (task taskObj)) → Board.tasks st2 = Board.tasks st) ∧
    (subtasks (task taskObj) = None → Board.tasks st2 ≠ Board.tasks st).
Proof.
  intros Ht Hb Hfree. pose proof (lookup_lt_Some _ _ _ Ht) as Hlt.
  rewrite (board_addSubtask_ok st taskObj Ht Hb).
  change (Board.subtask_key (Board.subtaskCounter st))
    with (str "subtask-" ++ str (pretty (Board.subtaskCounter st))) in *.
  set (key := str "subtask-" ++ str (pretty (Board.subtaskCounter st))) in *.
  set (subs := default ∅ (subtasks (task taskObj))) in *.
  eexists _, _. eexists _, _. split; [done|].
  unfold Board.deleteSubtask. cbn [Board.tasks Board.currentTaskIndex].
  rewrite list_lookup_insert_eq by done. cbn [task set_subtasks subtasks].
  rewrite lookup_insert_eq.
  cbn [Board.tasks Board.currentTaskIndex Board.subtaskCounter
       Board.newSubtaskInput to_id task].
  split; [done|]. cbn [Board.tasks Board.subtaskCounter].
  rewrite list_insert_insert_eq, delete_insert_eq, set_subtasks_twice.
  rewrite (delete_id subs key Hfree).
  assert (subtasks_at
            (<[Board.currentTaskIndex st :=
                 {| to_id := to_id taskObj;
                    task := set_subtasks (task taskObj) subs |}]>
               (Board.tasks st)) (Board.currentTaskIndex st) = Some subs)
    as Hat.
  { unfold subtasks_at. by rewrite list_lookup_insert_eq. }
  split_and!; [done| |exact Hat| |].
  - intros j Hj. by apply list_lookup_insert_ne.
  - intros [old Hold]. subst subs. rewrite Hold. cbn [default].
    rewrite set_subtasks_id by done.
    apply list_insert_id. by destruct taskObj.
  - intros Hnone Heq. rewrite Heq in Hat. unfold subtasks_at in Hat.
    rewrite Ht in Hat. cbn in Hat. by rewrite Hnone in Hat.
Qed.

(** ** The board: reading the subtasks off the list *)

Global Instance str_pretty_inj : Inj (=) (=) (λ i : nat, str (pretty i)).
Proof. intros i j Heq. by apply (inj str), (inj pretty) in Heq. Qed.

Lemma reduce_collect_other (l : list (list N)) acc index key :
  (∀ j, j < length l → key ≠ str (pretty (index + j))) →
  reduce collect_item acc index l !! key = acc !! key.
Proof.
  revert acc index. induction l as [|text l IH]; intros acc index Hkey; [done|].
  simpl. rewrite IH.
  - unfold collect_item. destruct (truthy_str (trim text)); [|done].
    apply lookup_insert_ne. intros Heq. apply (Hkey 0); simpl; [lia|].
    by rewrite Nat.add_0_r.
  - intros j Hj. replace (S index + j) with (index + S j) by lia.
    apply Hkey. simpl. lia.
Qed.

Lemma reduce_collect_lookup (l : list (list N)) acc index i text :
  l !! i = Some text →
  reduce collect_item acc index l !! str (pretty (index + i)) =
    if truthy_str (trim text)
    then Some {| st_name := trim text; st_completed := false |}
    else acc !! str (pretty (index + i)).
Proof.
  revert acc index i. induction l as [|t l IH]; intros acc index i Hi; [done|].
  destruct i as [|i]; simpl in *.
  - simplify_eq. rewrite reduce_collect_other.
    + rewrite Nat.add_0_r. unfold collect_item.
      destruct (truthy_str (trim text)); [apply lookup_insert_eq|done].
    + intros j _ Heq. apply (inj (λ i : nat, str (pretty i))) in Heq. lia.
  - replace (index + S i) with (S index + i) by lia.
    rewrite (IH _ _ _ Hi). destruct (truthy_str (trim text)); [done|].
    unfold collect_item. destruct (truthy_str (trim t)); [|done].
    apply lookup_insert_ne. intros Heq.
    apply (inj (λ i : nat, str (pretty i))) in Heq. lia.
Qed.

Lemma reduce_collect_keys (l : list (list N)) acc index key :
  is_Some (reduce collect_item acc index l !! key) →
  is_Some (acc !! key) ∨ ∃ i, i < length l ∧ key = str (pretty (index + i)).
Proof.
  revert acc index. induction l as [|text l IH]; intros acc index Hsome; simpl in *.
  - by left.
  - apply IH in Hsome as [Hsome|(i & Hi & ->)].
    + unfold collect_item in Hsome.
      destruct (truthy_str (trim text)); [|by left].
      rewrite lookup_insert in Hsome. case_decide as Hk; [|by left].
      right. exists 0. split; [lia|]. by rewrite Nat.add_0_r.
    + right. exists (S i). split; [lia|]. do 2 f_equal. lia.
Qed.

(** [getCurrentSubtasks] has an entry under the index of a list item
    exactly when the trimmed text of the item is not empty; the entry is
    named by the trimmed text and not completed. A blank item leaves a
    gap: the later items keep their own indices. *)
Theorem getCurrentSubtasks_spec (items : list (list N)) :
  (∀ i text,
     items !! i = Some text →
     Board.getCurrentSubtasks items !! str (pretty i) =
       if bool_decide (trim text = []) then None
       else Some {| st_name := trim text; st_completed := false |}) ∧
  (∀ key,
     is_Some (Board.getCurrentSubtasks items !! key) →
     ∃ i, i < length items ∧ key = str (pretty i)).
Proof.
  unfold Board.getCurrentSubtasks.
  change (reduce _ ∅ 0 items) with (reduce collect_item ∅ 0 items).
  split.
  - intros i text Hi.
    rewrite (reduce_collect_lookup items ∅ 0 i text Hi). simpl.
    rewrite lookup_empty. by destruct (trim text).
  - intros key Hsome.
    apply reduce_collect_keys in Hsome as [Hsome|Hsome]; [|done].
    rewrite lookup_empty in Hsome. by destruct Hsome.
Qed.

(** ** Editing a contact *)

(** Splits a membership in a list that is written out into its cases. *)
Ltac each_member H :=
  repeat (apply elem_of_cons in H as [H|H]);
  try (by apply elem_of_nil in H).

Lemma get_not_key {A} (o : list (list N * A)) (key : list N) :
  key ∉ o.*1 → get o key = None.
Proof.
  induction o as [|[k v] o IH]; simpl; [done|].
  rewrite not_elem_of_cons. intros [Hne Hnot].
  rewrite bool_decide_eq_false_2 by done. by apply IH.
Qed.

Lemma get_set_property_eq (o : list (list N * Json)) key value :
  get (EditContact.set_property key value o) key = Some value.
Proof.
  induction o as [|[k v] o IH]; simpl.
  - by rewrite bool_decide_eq_true_2.
  - case_bool_decide as Hk; simpl.
    + by rewrite bool_decide_eq_true_2.
    + by rewrite bool_decide_eq_false_2.
Qed.

Lemma get_set_property_ne (o : list (list N * Json)) key value other :
  other ≠ key →
  get (EditContact.set_property key value o) other = get o other.
Proof.
  intros Hne. induction o as [|[k v] o IH]; simpl.
  - by rewrite bool_decide_eq_false_2.
  - case_bool_decide as Hk; simpl.
    + subst k. by rewrite !bool_decide_eq_false_2.
    + case_bool_decide; [done|apply IH].
Qed.

Lemma set_property_keys (o : list (list N * Json)) key value :
  (EditContact.set_property key value o).*1 =
    if bool_decide (key ∈ o.*1) then o.*1 else o.*1 ++ [key].
Proof.
  induction o as [|[k v] o IH]; [done|].
  cbn [EditContact.set_property]. rewrite fmap_cons. cbn [fst].
  destruct (decide (k = key)) as [->|Hk].
  - rewrite bool_decide_eq_true_2 by done.
    rewrite bool_decide_eq_true_2 by left. done.
  - rewrite bool_decide_eq_false_2 by done. rewrite fmap_cons, IH. cbn [fst].
    destruct (decide (key ∈ o.*1)) as [Hin|Hin].
    + rewrite !bool_decide_eq_true_2; [done|by right|done].
    + rewrite !bool_decide_eq_false_2; [done| |done].
      rewrite not_elem_of_cons. split; [congruence|done].
Qed.

Lemma set_property_NoDup (o : list (list N * Json)) key value :
  NoDup o.*1 → NoDup (EditContact.set_property key value o).*1.
Proof.
  intros Hnd. rewrite set_property_keys. case_bool_decide as Hin; [done|].
  apply NoDup_app. split_and!; [done| |apply NoDup_singleton].
  intros k Hk Hk'. apply list_elem_of_singleton in Hk' as ->. done.
Qed.

Lemma spread_NoDup (target : list (list N * Json)) source :
  NoDup target.*1 → NoDup (EditContact.spread target source).*1.
Proof.
  unfold EditContact.spread. generalize (default [] source). clear source.
  intros source. revert target.
  induction source as [|[k v] source IH]; intros target Hnd; simpl; [done|].
  by apply IH, set_property_NoDup.
Qed.

Lemma get_spread (target : list (list N * Json)) source key :
  NoDup (default [] source).*1 →
  get (EditContact.spread target source) key =
    match field_of source key with
    | Some value => Some value
    | None => get target key
    end.
Proof.
  unfold EditContact.spread, field_of. generalize (default [] source).
  clear source. intros source. revert target.
  induction source as [|[k v] source IH]; intros target Hnd; simpl; [done|].
  apply NoDup_cons in Hnd as [Hk Hnd]. rewrite IH by done.
  case_bool_decide as Heq.
  - subst k. rewrite get_not_key by done. apply get_set_property_eq.
  - destruct (get source key); [done|]. by apply get_set_property_ne.
Qed.

(** [createUpdatedContact] gives a record with the new name, email and
    phone, and with every other field of the fetched record as it was.
    The id is the one stored in the fetched record when it has one, and
    the id of the call only otherwise: a stored id is not overwritten.
    For a record that is gone ([null]) the result holds the four fields
    alone. No field occurs twice. *)
Theorem createUpdatedContact_spec (contactId : list N)
    (existingContact : option (list (list N * Json)))
    (name email phone : list N) :
  NoDup (default [] existingContact).*1 →
  let updated :=
    EditContact.createUpdatedContact contactId existingContact name email phone in
  get updated (str "name") = Some (JString name) ∧
  get updated (str "email") = Some (JString email) ∧
  get updated (str "phone") = Some (JString phone) ∧
  get updated (str "id") =
    Some (default (JString contactId) (field_of existingContact (str "id"))) ∧
  (∀ key, key ∉ edited_fields →
          get updated key = field_of existingContact key) ∧
  NoDup updated.*1.
Proof.
  intros Hnd updated. subst updated. unfold EditContact.createUpdatedContact.
  split_and!.
  - rewrite !get_set_property_ne by done. apply get_set_property_eq.
  - rewrite get_set_property_ne by done. apply get_set_property_eq.
  - apply get_set_property_eq.
  - rewrite !get_set_property_ne by done. rewrite get_spread by done.
    by destruct (field_of existingContact (str "id")).
  - intros key Hkey. unfold edited_fields in Hkey.
    rewrite !not_elem_of_cons in Hkey. destruct Hkey as (H1 & H2 & H3 & H4 & _).
    rewrite !get_set_property_ne by done. rewrite get_spread by done.
    destruct (field_of existingContact key); [done|]. simpl.
    by rewrite bool_decide_eq_false_2.
  - do 3 apply set_property_NoDup. apply spread_NoDup. simpl.
    apply NoDup_singleton.
Qed.

Section EditContactFacts.
Context `{Host}.

Lemma ensureColorsInDatabase_patches (cs : list Contact)
    (data : list (list N * StoredContact)) :
  Forall (λ e, ∃ u body, e = Fetch PATCH u body)
         (fst (ensureColorsInDatabase cs data)).
Proof.
  induction cs as [|c cs IH]; cbn [ensureColorsInDatabase]; [constructor|].
  destruct (get data (id c)) as [raw|]; [|constructor].
  destruct (ensureColorsInDatabase cs data) as [fx r]. cbn [fst] in *.
  destruct (negb (truthy (sc_color raw))); cbn [fst]; [|done].
  constructor; [|done]. by eexists _, _.
Qed.

(** The requests of [loadContacts]: the GET of the collection, then
    PATCH requests, then at most the report of an error. *)
Lemma loadContacts_requests (fetched : Fetched (list (list N * StoredContact)))
    (g : Rng) :
  ∃ rest,
    requests (loadContacts fetched g) =
      Fetch GET (BASE_URL ++ str "contacts.json") None :: rest ∧
    Forall (λ e, (∃ u body, e = Fetch PATCH u body)
                 ∨ e = ConsoleError (str "Error loading contacts:")) rest.
Proof.
  unfold loadContacts. destruct fetched as [|[data|]]; cbn [requests].
  - eexists. split; [done|]. constructor; [by right|constructor].
  - pose proof (ensureColorsInDatabase_patches (processContacts data g) data)
      as Hfx.
    destruct (ensureColorsInDatabase (processContacts data g) data)
      as [fx [[]|]]; cbn [requests fst] in *.
    + eexists. split; [done|]. eapply Forall_impl; [exact Hfx|]. by left.
    + eexists. split; [done|]. apply Forall_app. split.
      * eapply Forall_impl; [exact Hfx|]. by left.
      * constructor; [by right|constructor].
  - eexists. split; [done|]. constructor.
Qed.

Lemma getFieldValue_spec (field : option (list N)) :
  EditContact.getFieldValue field = default [] (trim <$> field).
Proof. by destruct field. Qed.

(** [saveExistingContact] sends nothing when the trimmed form values do
    not pass [validateContactFields]: it shows a non-empty message in
    the error box for 2.5 seconds and that is all. With valid values it
    first GETs the record of the contact. It sends a PUT exactly when
    the GET answered ok with a body that parses; the PUT goes to the
    record of the contact and carries the object of
    [createUpdatedContact]. The list is reloaded, with the GET of the
    collection and the requests that follow it, exactly when the PUT
    answered ok. Every other request of the run addresses the record of
    the contact. The value of a field that is not in the page is the
    empty string. *)
Theorem saveExistingContact_spec (contactId : list N)
    (form : EditContact.Form) (got : EditContact.GetOutcome)
    (put : EditContact.PutOutcome)
    (reload : Fetched (list (list N * StoredContact))) (g : Rng)
    (listed : bool) :
  let name := default [] (trim <$> EditContact.contact_name2 form) in
  let email := default [] (trim <$> EditContact.contact_email2 form) in
  let phone := default [] (trim <$> EditContact.contact_phone2 form) in
  let valid := fst (validateContactFields name email phone) in
  let run :=
    EditContact.saveExistingContact contactId form got put reload g listed in
  let record :=
    str "https://remotestorage-2a5f0-default-rtdb.europe-west1.firebasedatabase.app/"
    ++ str "/contacts/" ++ contactId ++ str ".json" in
  let collection :=
    str "https://remotestorage-2a5f0-default-rtdb.europe-west1.firebasedatabase.app/"
    ++ str "contacts.json" in
  (valid = false →
     ∃ message,
       message ≠ [] ∧
       run = [ SetTextContent (str "error-message-box") message;
               ClassAdd (str "error-message-box") (str "show");
               SetTimeout [ClassRemove (str "error-message-box") (str "show")]
                          2500 ]) ∧
  (valid = true → ∃ rest, run = Fetch GET record None :: rest) ∧
  (∀ url body,
     Fetch PUT url body ∈ run ↔
     valid = true ∧ url = record ∧
     ∃ existing,
       got = EditContact.GetResponse true (Some existing) ∧
       body = Some (JObject (EditContact.createUpdatedContact contactId existing
                               name email phone))) ∧
  (Fetch GET collection None ∈ run ↔
     valid = true ∧
     (∃ existing, got = EditContact.GetResponse true (Some existing)) ∧
     put = EditContact.PutResponse true) ∧
  (Fetch GET collection None ∈ run →
     ∀ e, e ∈ requests (loadContacts reload g) → e ∈ run) ∧
  (∀ m url body,
     Fetch m url body ∈ run →
     (url = record ∧ (m = GET ∨ m = PUT))
     ∨ Fetch m url body ∈ requests (loadContacts reload g)).
Proof.
  intros name email phone valid run record collection.
  set (v := EditContact.getContactFields form).
  assert (name = fv_name v ∧ email = fv_email v ∧ phone = fv_phone v)
    as (-> & -> & ->).
  { subst name email phone v. unfold EditContact.getContactFields.
    cbn [fv_name fv_email fv_phone]. by rewrite !getFieldValue_spec. }
  assert (record ≠ collection) as Hurls.
  { subst record collection. intros Heq. apply app_inv_head in Heq.
    discriminate Heq. }
  change record with (EditContact.contact_url contactId) in *.
  change collection with (BASE_URL ++ str "contacts.json") in *.
  clearbody record collection.
  subst valid run. unfold EditContact.saveExistingContact. fold v.
  pose proof (validateContactFields_shown (fv_name v) (fv_email v) (fv_phone v))
    as Hshown.
  pose proof (validateContactFields_message (fv_name v) (fv_email v) (fv_phone v))
    as Hmessage.
  destruct (validateContactFields (fv_name v) (fv_email v) (fv_phone v))
    as [[] shown]; cbn [fst snd negb] in *.
  - subst shown. cbn [app]. clear Hmessage.
    set (E := ConsoleError (str "Error while deleting the contact")).
    assert (∀ e, e ∈ [Fetch GET (EditContact.contact_url contactId) None; E] →
                 e = Fetch GET (EditContact.contact_url contactId) None ∨ e = E)
      as Hfailed.
    { intros e Hin. each_member Hin; eauto. }
    destruct got as [|[] [existing|]];
      try (change EditContact.handleSaveError with [E];
           split_and!;
           [ done
           | by eexists
           | intros url body; split;
             [ by intros [?|?]%Hfailed | by intros (_ & _ & ? & ? & _) ]
           | split;
             [ intros [Hin|?]%Hfailed; [|done];
               injection Hin as Hin; by destruct Hurls
             | by intros (_ & [? ?] & _) ]
           | intros [Hin|?]%Hfailed; [|done];
             injection Hin as Hin; by destruct Hurls
           | intros m url body [Hin|?]%Hfailed; [|done];
             left; simplify_eq; eauto ]).
    clear Hfailed.
    destruct put as [|[]].
    + change EditContact.handleSaveError with [E].
      split_and!; [done|by eexists| | | |].
      * intros url body. split.
        -- intros Hin. each_member Hin; try done; simplify_eq; eauto.
        -- intros (_ & -> & e & [= <-] & ->). right. left.
      * split; [|by intros (_ & _ & ?)]. intros Hin.
        each_member Hin; try done; injection Hin as Hin; by destruct Hurls.
      * intros Hin. each_member Hin; try done; injection Hin as Hin; by destruct Hurls.
      * intros m url body Hin. left.
        each_member Hin; try done; simplify_eq; eauto.
    + unfold EditContact.handleSaveResponse, EditContact.updateViewAfterSave.
      destruct (loadContacts_requests reload g) as (rest & Hreq & Hrest).
      rewrite Forall_forall in Hrest.
      split_and!; [done|by eexists| | | |].
      * intros url body. split.
        -- intros Hin.
           apply elem_of_cons in Hin as [Hin|Hin]; [done|].
           apply elem_of_cons in Hin as [Hin|Hin]; [simplify_eq; eauto|].
           exfalso.
           apply elem_of_app in Hin as [Hin|Hin]; [each_member Hin; done|].
           apply elem_of_app in Hin as [Hin|Hin]; [|each_member Hin; done].
           rewrite Hreq in Hin. apply elem_of_cons in Hin as [Hin|Hin]; [done|].
           destruct (Hrest _ Hin) as [(? & ? & ?)|?]; done.
        -- intros (_ & -> & e & [= <-] & ->). right. left.
      * split; [by eauto|]. intros _. do 2 right.
        apply elem_of_app. right. apply elem_of_app. left. rewrite Hreq. left.
      * intros _ e He. do 2 right.
        apply elem_of_app. right. apply elem_of_app. by left.
      * intros m url body Hin.
        apply elem_of_cons in Hin as [Hin|Hin]; [simplify_eq; eauto|].
        apply elem_of_cons in Hin as [Hin|Hin]; [simplify_eq; eauto|].
        apply elem_of_app in Hin as [Hin|Hin]; [each_member Hin; done|].
        apply elem_of_app in Hin as [Hin|Hin]; [by right|each_member Hin; done].
    + unfold EditContact.handleSaveResponse.
      split_and!; [done|by eexists| | | |].
      * intros url body. split.
        -- intros Hin. each_member Hin; try done; simplify_eq; eauto.
        -- intros (_ & -> & e & [= <-] & ->). right. left.
      * split; [|by intros (_ & _ & ?)]. intros Hin.
        each_member Hin; try done; injection Hin as Hin; by destruct Hurls.
      * intros Hin. each_member Hin; try done; injection Hin as Hin; by destruct Hurls.
      * intros m url body Hin. left.
        each_member Hin; try done; simplify_eq; eauto.
  - clear Hshown. destruct (Hmessage eq_refl) as (message & Hne & ->).
    split_and!.
    + intros _. by exists message.
    + done.
    + intros url body. split; [|by intros (? & _)]. intros Hin.
      each_member Hin; done.
    + split; [|by intros (? & _)]. intros Hin. each_member Hin; done.
    + intros Hin. each_member Hin; done.
    + intros m url body Hin. each_member Hin; done.
Qed.

End EditContactFacts.

(** ** Signing up, and logging in afterwards *)

Lemma Matches_Times_Star_Class (n : nat) (p : N → bool) (s : list N) :
  Matches (Cat (Times n (Class p)) (Star (Class p))) s ↔
  n ≤ length s ∧ all_in p s.
Proof.
  change (Matches (Cat (Times n (Class p)) (Star (Class p))) s)
    with (∃ s1 s2, s = s1 ++ s2 ∧ Matches (Times n (Class p)) s1
                   ∧ Matches (Star (Class p)) s2).
  setoid_rewrite Matches_Times_Class. setoid_rewrite Matches_Star_Class.
  split.
  - intros (s1 & s2 & -> & [Hlen H1] & H2). rewrite length_app.
    split; [lia|by apply Forall_app].
  - intros [Hlen Hall]. exists (take n s), (drop n s).
    rewrite take_drop. split; [done|]. split.
    + split; [rewrite length_take; lia|by apply Forall_take].
    + by apply Forall_drop.
Qed.

Lemma Matches_Cat (r1 r2 : regex) (s : list N) :
  Matches (Cat r1 r2) s ↔
  ∃ s1 s2, s = s1 ++ s2 ∧ Matches r1 s1 ∧ Matches r2 s2.
Proof. done. Qed.

Lemma Matches_signup_emailPattern (s : list N) :
  Matches Signup.emailPattern s ↔ signup_email_shape s.
Proof.
  unfold Signup.emailPattern, signup_email_shape. split.
  - intros Hm.
    apply Matches_Cat in Hm as (l & s1 & -> & Hl & Hm).
    apply Matches_Cat in Hm as (a & s2 & -> & Ha & Hm).
    apply Matches_Cat in Hm as (d & s3 & -> & Hd & Hm).
    apply Matches_Cat in Hm as (dot & t & -> & Hdot & Ht).
    apply Matches_Plus_Class in Hl as [? ?].
    apply Matches_Chr in Ha as ->. apply Matches_Plus_Class in Hd as [? ?].
    apply Matches_Chr in Hdot as ->.
    apply Matches_Times_Star_Class in Ht as [? ?].
    by exists l, d, t.
  - intros (l & d & t & -> & Hl & Hla & Hd & Hda & Ht & Hta).
    apply Matches_Cat. exists l, ([AT] ++ d ++ [DOT] ++ t).
    split_and!; [done|by apply Matches_Plus_Class|].
    apply Matches_Cat. exists [AT], (d ++ [DOT] ++ t).
    split_and!; [done|by apply Matches_Chr|].
    apply Matches_Cat. exists d, ([DOT] ++ t).
    split_and!; [done|by apply Matches_Plus_Class|].
    apply Matches_Cat. exists [DOT], t.
    split_and!; [done|by apply Matches_Chr|].
    by apply Matches_Times_Star_Class.
Qed.

Lemma alpha_local_char c : is_alpha c = true → Signup.local_char c = true.
Proof. unfold Signup.local_char. by intros ->. Qed.

Lemma alnum_or_hyphen_domain_char c :
  alnum_or_hyphen c = true → Signup.domain_char c = true.
Proof.
  unfold alnum_or_hyphen, Signup.domain_char.
  destruct (is_alpha c), (is_digit c), (c =? HYPHEN)%N, (c =? DOT)%N; done.
Qed.

(** The pattern of the sign-up and login forms accepts exactly the
    addresses with a non-empty local part of letters, digits and
    [._%+-], an at sign, a non-empty domain of letters, digits, dots and
    hyphens, a dot, and two or more letters. An address that the
    contact form accepts is accepted here as well when it is written
    with these characters and the at sign only. *)
Theorem Signup_email_spec (s : list N) :
  (test Signup.emailPattern s = true ↔ signup_email_shape s) ∧
  (validateEmail s = true →
   all_in (λ c, Signup.local_char c || (c =? AT)%N) s →
   test Signup.emailPattern s = true).
Proof.
  split; [by rewrite test_spec, Matches_signup_emailPattern|].
  rewrite validateEmail_spec, test_spec, Matches_signup_emailPattern.
  intros (l & d & t & -> & Hl & Hla & Hd & Hda & Ht & Hta) Hall.
  exists l, d, t. split_and!; try done; [| |lia].
  - apply Forall_app in Hall as [Hall _]. unfold all_in in *.
    rewrite Forall_forall in *. intros c Hc.
    specialize (Hall c Hc). specialize (Hla c Hc).
    unfold not_space_or_at in Hla.
    destruct (c =? AT)%N; [|by rewrite orb_false_r in Hall].
    by rewrite orb_true_r in Hla.
  - eapply Forall_impl; [exact Hda|]. apply alnum_or_hyphen_domain_char.
Qed.


(** Submitting the sign-up form sends a request exactly when the email
    has the shape of the pattern, the two passwords agree once trimmed,
    and the policy box is ticked. The request is one POST to the
    contacts of the sign-up store, of the name and email as typed and of
    the trimmed password, followed by the navigation to the login page
    when it was answered. A form that is not accepted is never sent and
    never leaves the page; it makes one popup visible for 1.5 seconds:
    the one of the email, with the focus put on the email, when the
    email is refused; else the one of the mismatch when the passwords
    differ; else the one of the policy. *)
Theorem Signup_onsubmit_spec (form : Signup.Form) (answered : bool) :
  let run := Signup.onsubmit form answered in
  (existsb is_write run = true ↔ signup_accepted form) ∧
  (signup_accepted form →
     run = Fetch POST
             (str "https://join-56225-default-rtdb.europe-west1.firebasedatabase.app/"
              ++ str "contacts.json")
             (Some (JObject
                [ (str "name", JString (Signup.name_value form));
                  (str "email", JString (Signup.email_value form));
                  (str "password", JString (trim (Signup.password_value form))) ]))
           :: (if answered then [SetLocation (str "index.html?")] else [])) ∧
  (¬ signup_accepted form →
     existsb is_redirect run = false ∧ existsb is_write run = false) ∧
  (¬ signup_email_shape (Signup.email_value form) →
     run = [ ClassAdd (str "popup-valid-email") (str "show");
             SetTimeout [ClassRemove (str "popup-valid-email") (str "show")] 1500;
             Call (str "emailInput.focus") ]) ∧
  (signup_email_shape (Signup.email_value form) →
   trim (Signup.password_value form) ≠ trim (Signup.confirmPassword_value form) →
     run = [ ClassAdd (str "popup-mismatch") (str "show");
             SetTimeout [ClassRemove (str "popup-mismatch") (str "show")] 1500 ]) ∧
  (signup_email_shape (Signup.email_value form) →
   trim (Signup.password_value form) = trim (Signup.confirmPassword_value form) →
   Signup.acceptPolicy_checked form = false →
     run = [ ClassAdd (str "popup-policy") (str "show");
             SetTimeout [ClassRemove (str "popup-policy") (str "show")] 1500 ]).
Proof.
  intros run. subst run. unfold Signup.onsubmit, signup_accepted.
  assert (test Signup.emailPattern (Signup.email_value form) = true
          ↔ signup_email_shape (Signup.email_value form)) as Hshape.
  { rewrite test_spec. apply Matches_signup_emailPattern. }
  unfold Signup.validateEmail, Signup.checkPassword.
  destruct (test Signup.emailPattern (Signup.email_value form));
    cbn [negb fst snd app].
  - assert (signup_email_shape (Signup.email_value form)) as Hs
      by (by apply Hshape).
    case_bool_decide as Hpw; cbn [negb fst snd app].
    + destruct (Signup.acceptPolicy_checked form); cbn [negb fst snd app].
      * split_and!; [done|done| |done|done|done]. intros Hno. by destruct Hno.
      * split_and!; [|by intros (_ & _ & ?)|done|done|done|done].
        split; [done|]. by intros (_ & _ & ?).
    + split_and!; [|by intros (_ & ? & _)|done|done|done|done].
      split; [done|]. by intros (_ & ? & _).
  - assert (¬ signup_email_shape (Signup.email_value form)) as Hn
      by (by intros ?%Hshape).
    split_and!; [|by intros (? & _)|done|done|done|done].
    split; [done|]. by intros (? & _).
Qed.

Lemma find_app_None {A} (p : A → bool) (l1 l2 : list A) :
  find p l1 = None → find p (l1 ++ l2) = find p l2.
Proof.
  induction l1 as [|x l1 IH]; simpl; [done|]. destruct (p x); [done|apply IH].
Qed.


(** ** Starting the application *)

Lemma starts_with_spec (sub s : list N) :
  Session.starts_with sub s = true ↔ ∃ b, s = sub ++ b.
Proof.
  revert s. induction sub as [|c sub IH]; intros s; simpl.
  - split; [by exists s|done].
  - destruct s as [|d s]; [split; [done|by intros [b ?]]|].
    rewrite andb_true_iff, N.eqb_eq, IH. split.
    + intros [-> [b ->]]. by exists b.
    + intros [b [= -> ->]]. split; [done|by exists b].
Qed.

Lemma includes_spec (s sub : list N) :
  Session.includes s sub = true ↔ occurs_in sub s.
Proof.
  unfold occurs_in. induction s as [|d s IH]; simpl.
  - rewrite orb_false_r, starts_with_spec. split.
    + intros [b Heq]. by exists [], b.
    + intros (a & b & Heq). symmetry in Heq.
      apply app_eq_nil in Heq as [-> Heq].
      apply app_eq_nil in Heq as [-> ->]. by exists [].
  - rewrite orb_true_iff, starts_with_spec, IH. split.
    + intros [[b Heq]|(a & b & ->)]; [by exists [], b|by exists (d :: a), b].
    + intros (a & b & Heq). destruct a as [|d' a]; simpl in Heq.
      * left. by exists b.
      * injection Heq as -> ->. right. by exists a, b.
Qed.

Lemma isLegalOrPrivacyPage_spec (path : list N) :
  Session.isLegalOrPrivacyPage path = true ↔ legal_or_privacy path.
Proof.
  unfold Session.isLegalOrPrivacyPage, legal_or_privacy.
  by rewrite orb_true_iff, !includes_spec.
Qed.

Lemma setHeaderInitials_steps `{Host} (initialsElement : bool) (name : list N) :
  match Session.setHeaderInitials initialsElement name with
  | Ok steps =>
      existsb Session.navigates steps = false ∧
      (∀ initials, initialsElement = true →
         getInitials (Some name) = Ok initials →
         Session.SetInnerHTML (str "headerInitials")
           (str "<a>" ++ initials ++ str "</a>") ∈ steps)
  | Throws =>
      ∀ initials, initialsElement = true → getInitials (Some name) ≠ Ok initials
  end.
Proof.
  unfold Session.setHeaderInitials.
  destruct (getInitials (Some name)) as [i|]; destruct initialsElement;
    cbn [negb mbind result_bind]; try done.
  split; [done|]. intros initials _ [= <-]. left.
Qed.


(** ** The summary page *)

Lemma parseTasks_entries (data : list (list N * Task)) :
  NoDup data.*1 →
  Summary.parseTasks (Some data) = Ok (task_entry <$> data).
Proof.
  intros Hnd. unfold Summary.parseTasks. f_equal.
  assert (∀ l, l ⊆ data →
            omap (λ key, (λ t, {| to_id := key; task := t |}) <$> get data key)
                 l.*1 = task_entry <$> l) as Hgen.
  { induction l as [|[k t] l IH]; intros Hsub; [done|].
    rewrite !fmap_cons. cbn [fst omap list_omap].
    rewrite (get_elem_of data k t Hnd) by (apply Hsub; left).
    cbn [fmap option_fmap option_map]. f_equal.
    apply IH. intros x Hx. apply Hsub. by right. }
  by apply Hgen.
Qed.

Lemma has_category_excl (lit1 lit2 : string) (t : TaskObj) :
  str lit1 ≠ str lit2 → has_category lit1 t → ¬ has_category lit2 t.
Proof. unfold has_category. intros Hne -> [= Heq]. done. Qed.

Lemma column_counts (tasks : list TaskObj) :
  how_many (has_category "To-Do") tasks + how_many (has_category "Done") tasks
  + how_many (has_category "In Progress") tasks
  + how_many (has_category "Await Feedback") tasks
  = how_many known_category tasks.
Proof.
  induction tasks as [|t tasks IH]; [done|].
  rewrite !how_many_cons, <- IH. unfold known_category.
  repeat case_decide; try lia;
    repeat match goal with
           | H : ¬ (_ ∨ _) |- _ => apply Decidable.not_or in H as [? ?]
           | H : _ ∨ _ |- _ => destruct H
           end; try done;
    exfalso;
    match goal with
    | H1 : has_category ?a t, H2 : has_category ?b t |- _ =>
        by apply (has_category_excl a b t)
    end.
Qed.

Lemma how_many_all {A} (P : A → Prop) `{∀ x, Decision (P x)} (l : list A) :
  how_many P l = length l ↔ Forall P l.
Proof.
  induction l as [|x l IH]; [by split; [constructor|]|].
  rewrite how_many_cons, Forall_cons. pose proof (how_many_le P l).
  simpl. case_decide; [rewrite <- IH; split; [intros; split; [done|lia]|intros [_ ?]; lia]|].
  split; [lia|by intros [? _]].
Qed.

(** The counters of the summary page, computed from the tasks of the
    store: every task is counted once in [taskCount]; the four column
    counters together never exceed it, and reach it exactly when every
    task is in one of the four columns; the urgent tasks are at most as
    many as the tasks. Without any stored tasks the answer is [null] and
    [parseTasks] throws, so no counter is computed. *)
Theorem Summary_counters_spec (data : list (list N * Task)) :
  NoDup data.*1 →
  Summary.onloadFunc_counters None = Throws ∧
  ∃ tasks k,
    Summary.parseTasks (Some data) = Ok tasks ∧
    tasks = task_entry <$> data ∧
    Summary.onloadFunc_counters (Some data) = Ok k ∧
    taskCount k = length data ∧
    column_sum k ≤ taskCount k ∧
    urgencyCount k ≤ taskCount k ∧
    (column_sum k = taskCount k ↔ Forall known_category tasks).
Proof.
  intros Hnd. split; [done|].
  exists (task_entry <$> data), (updateCount (task_entry <$> data) zero_counters).
  unfold Summary.onloadFunc_counters. rewrite parseTasks_entries by done.
  split; [done|]. split; [done|]. split; [done|].
  destruct (updateCount_from (task_entry <$> data) zero_counters)
    as (E1 & E2 & E3 & E4 & E5 & E6).
  set (tasks := task_entry <$> data) in *.
  set (k := updateCount tasks zero_counters) in *.
  assert (column_sum k = how_many known_category tasks) as Hsum.
  { unfold column_sum. rewrite E2, E3, E4, E5. simpl.
    rewrite <- column_counts. lia. }
  assert (taskCount k = length tasks) as Hlen by (rewrite E1; simpl; lia).
  split_and!.
  - rewrite Hlen. unfold tasks. by rewrite length_fmap.
  - rewrite Hsum, Hlen. apply how_many_le.
  - rewrite E6, Hlen. simpl. apply how_many_le.
  - rewrite Hsum, Hlen. apply how_many_all.
Qed.

(** ** The priority buttons *)

Lemma resetAllButtons_button (p : Priority.Page) (j : Priority.Id) :
  Priority.button (Priority.resetAllButtons Priority.priorityButtons p) j =
    {| Priority.classList :=
         {| Priority.urgent_active := false; Priority.middle_active := false;
            Priority.low_active := false |};
       Priority.fill := Priority.getButtonColor j false |}.
Proof. by destruct j. Qed.

(** After a click on a priority button, whatever the classes and
    colours of the buttons were before: a click on a button without
    active class makes it the one active button, with its own active
    class only and its icon in white, every other button without
    active class and in its own colour, and sets [taskPriority] to the
    word of the button; a click on a button with an active class leaves
    every button without active class and in its own colour, and
    [taskPriority] empty. A second click on the same button undoes the
    first in this way. *)
Theorem handlePriorityClick_spec (p : Priority.Page)
    (selectedButton : Priority.Id) :
  let p' := Priority.handlePriorityClick selectedButton p in
  (has_active_class (Priority.button p selectedButton) = false →
     Priority.taskPriority p' = priority_word selectedButton ∧
     ∀ j, Priority.button p' j =
            if decide (j = selectedButton) then active_look j else idle_look j) ∧
  (has_active_class (Priority.button p selectedButton) = true →
     Priority.taskPriority p' = [] ∧
     ∀ j, Priority.button p' j = idle_look j) ∧
  (has_active_class (Priority.button p selectedButton) = false →
     Priority.taskPriority (Priority.handlePriorityClick selectedButton p') = [] ∧
     ∀ j, Priority.button (Priority.handlePriorityClick selectedButton p') j
          = idle_look j).
Proof.
  intros p'.
  assert (has_active_class (Priority.button p selectedButton) = false →
          Priority.taskPriority p' = priority_word selectedButton ∧
          ∀ j, Priority.button p' j =
                 if decide (j = selectedButton) then active_look j
                 else idle_look j) as Hon.
  { subst p'. unfold Priority.handlePriorityClick.
    change (Priority.checkIfButtonActive (Priority.button p selectedButton))
      with (has_active_class (Priority.button p selectedButton)).
    intros ->. cbn [negb]. split; [by destruct selectedButton|].
    intros j. unfold Priority.activateButton.
    cbn [Priority.button Priority.set_button Priority.taskPriority].
    rewrite !resetAllButtons_button.
    destruct selectedButton, j; done. }
  assert (∀ q, has_active_class (Priority.button q selectedButton) = true →
               Priority.taskPriority
                 (Priority.handlePriorityClick selectedButton q) = [] ∧
               ∀ j, Priority.button
                      (Priority.handlePriorityClick selectedButton q) j
                    = idle_look j) as Hoff.
  { intros q. unfold Priority.handlePriorityClick.
    change (Priority.checkIfButtonActive (Priority.button q selectedButton))
      with (has_active_class (Priority.button q selectedButton)).
    intros ->. cbn [negb Priority.taskPriority Priority.button].
    split; [done|]. intros j. rewrite resetAllButtons_button. by destruct j. }
  split_and!; [exact Hon|apply Hoff|].
  intros Hidle. apply Hoff. destruct (Hon Hidle) as [_ Hlook].
  rewrite Hlook. rewrite decide_True by done. by destruct selectedButton.
Qed.

(** ** Dates *)

Lemma split_no_sep sep (s : list N) : sep ∉ s → split sep s = [s].
Proof.
  induction s as [|c s IH]; [done|]. rewrite not_elem_of_cons. intros [Hne Hs].
  simpl. destruct (N.eqb_spec c sep) as [->|_]; [done|]. by rewrite IH.
Qed.

Lemma split_app_sep sep (a b : list N) :
  sep ∉ a → split sep (a ++ sep :: b) = a :: split sep b.
Proof.
  induction a as [|c a IH]; simpl.
  - intros _. by rewrite N.eqb_refl.
  - rewrite not_elem_of_cons. intros [Hne Ha].
    destruct (N.eqb_spec c sep) as [->|_]; [done|]. by rewrite IH.
Qed.

(** [formatDateToDDMMYYYY] turns year, month and day, written with
    hyphens between them, into day, month and year with slashes;
    whatever follows a third hyphen is dropped. A string without a
    hyphen is not a date for it: the text of [undefined] stands for the
    day and the month. *)
Theorem formatDateToDDMMYYYY_spec (year month day : list N) :
  HYPHEN ∉ year → HYPHEN ∉ month → HYPHEN ∉ day →
  formatDateToDDMMYYYY (year ++ [HYPHEN] ++ month ++ [HYPHEN] ++ day)
    = day ++ [SLASH] ++ month ++ [SLASH] ++ year ∧
  (∀ rest,
     formatDateToDDMMYYYY
       (year ++ [HYPHEN] ++ month ++ [HYPHEN] ++ day ++ [HYPHEN] ++ rest)
     = day ++ [SLASH] ++ month ++ [SLASH] ++ year) ∧
  formatDateToDDMMYYYY year
    = str "undefined" ++ [SLASH] ++ str "undefined" ++ [SLASH] ++ year.
Proof.
  intros Hy Hm Hd. unfold formatDateToDDMMYYYY. split_and!.
  - cbn [app]. rewrite !split_app_sep, split_no_sep by done. done.
  - intros rest. cbn [app]. rewrite !split_app_sep by done.
    unfold part_text. cbn [lookup list_lookup default]. done.
  - by rewrite split_no_sep.
Qed.

(** ** The initials of the assigned contacts *)

Lemma initials_loop_spec (width : Contact → nat) (maxWidth : nat)
    (contacts : list Contact) (usedWidth : nat) :
  ∃ shown rest,
    contacts = shown ++ rest ∧
    Assigned.initials_loop width maxWidth usedWidth contacts
      = (Assigned.ContactInitial <$> shown, length rest) ∧
    (shown ≠ [] → usedWidth + total_width width shown ≤ maxWidth) ∧
    (∀ next, head rest = Some next →
             maxWidth < usedWidth + total_width width shown + width next).
Proof.
  revert usedWidth. induction contacts as [|c contacts IH]; intros usedWidth.
  - exists [], []. by split_and!.
  - simpl. destruct (Nat.leb_spec (usedWidth + width c) maxWidth) as [Hfit|Hno].
    + destruct (IH (usedWidth + width c)) as (shown & rest & -> & -> & Hle & Hmax).
      exists (c :: shown), rest. split_and!; [done|done| |].
      * intros _. unfold total_width in *. simpl.
        destruct shown; [simpl; lia|]. specialize (Hle ltac:(done)). lia.
      * intros next Hnext. specialize (Hmax next Hnext).
        unfold total_width in *. simpl. lia.
    + exists [], (c :: contacts). split_and!; [done|done|done|].
      intros next [= <-]. unfold total_width. simpl. lia.
Qed.

(** [generateInitialsHTML] shows the initials of the longest run of
    contacts from the start whose widths fit into the container
    together, in their order, and after them, when contacts are left,
    one count of all those left: the first contact left would not have
    fitted. The count itself is not measured. *)
Theorem generateInitialsHTML_spec (width : Contact → nat) (maxWidth : nat)
    (selectedContacts : list Contact) :
  ∃ shown rest,
    selectedContacts = shown ++ rest ∧
    Assigned.generateInitialsHTML width maxWidth selectedContacts =
      (Assigned.ContactInitial <$> shown)
      ++ (if decide (rest = []) then []
          else [Assigned.MoreContacts (length rest)]) ∧
    total_width width shown ≤ maxWidth ∧
    match head rest with
    | Some next => maxWidth < total_width width shown + width next
    | None => True
    end.
Proof.
  destruct (initials_loop_spec width maxWidth selectedContacts 0)
    as (shown & rest & -> & Hloop & Hle & Hmax).
  exists shown, rest. unfold Assigned.generateInitialsHTML. rewrite Hloop.
  split_and!; [done| | |].
  - destruct rest; simpl; [by rewrite app_nil_r|done].
  - destruct shown; [unfold total_width; simpl; lia|]. by apply Hle.
  - destruct (head rest) as [next|]; [|done]. by apply Hmax.
Qed.

(** ** The contacts of the task form *)

Section TaskContacts.
Context `{HostLaws}.

Lemma sort_insert_related {A} (R : A → A → Prop) (cmp : A → A → Z)
    (x y : A) (l1 l2 : list A) :
  (∀ a b, R a b → cmp x a = cmp y b) →
  R x y → Forall2 R l1 l2 →
  Forall2 R (sort_insert cmp x l1) (sort_insert cmp y l2).
Proof.
  intros Hcmp Hxy Hl. induction Hl as [|a b l1 l2 Hab Hl IH]; simpl.
  - by repeat constructor.
  - rewrite (Hcmp a b Hab). destruct (cmp y b <=? 0)%Z.
    + by repeat constructor.
    + by constructor.
Qed.

Lemma Array_sort_related (R : Contact → Contact → Prop) (l1 l2 : list Contact) :
  (∀ a b, R a b → name a = name b) →
  Forall2 R l1 l2 →
  Forall2 R (Array_sort by_name l1) (Array_sort by_name l2).
Proof.
  intros Hname Hl. induction Hl as [|x y l1 l2 Hxy Hl IH]; simpl; [constructor|].
  apply sort_insert_related; [|done|done].
  intros a b Hab. unfold by_name. by rewrite (Hname x y Hxy), (Hname a b Hab).
Qed.

Lemma map_entries_related (data : list (list N * StoredContact)) (g g' : Rng) :
  Forall2 (λ c c', ∃ entry, entry ∈ data ∧
                     built_from g entry c ∧ built_from g' entry c')
          (fst (map_entries data g)) (fst (map_entries data g')).
Proof.
  pose proof (map_entries_built data g) as Hb.
  pose proof (map_entries_built data g') as Hb'.
  revert Hb'. generalize (fst (map_entries data g')).
  induction Hb as [|entry c data cs Hc Hb IH]; intros cs' Hb'.
  - apply Forall2_nil_inv_l in Hb' as ->. constructor.
  - apply Forall2_cons_inv_l in Hb' as (c' & cs'' & Hc' & Hb' & ->).
    constructor.
    + exists entry. split; [left|done].
    + eapply Forall2_impl; [by apply IH|].
      intros a b (e & He & Ha & Hb0). exists e. split; [by right|done].
Qed.

(** [loadTaskContacts] returns, for any stored collection, one contact
    for each record, sorted by name, each with a colour. For a
    collection in which no record carries an id other than its own key,
    the ids are the keys, and the list agrees, contact by contact, with
    the one that [loadContacts] returns, up to the colours that the two
    generate, each for itself, for the records without colour. Without
    data, and when the request fails, it is the empty list. *)
Theorem loadTaskContacts_spec (data : list (list N * StoredContact))
    (g g' : Rng) :
  let cs := loadTaskContacts (FetchJson (Some data)) g in
  StronglySorted name_order cs ∧
  length cs = length data ∧
  Forall (λ c, color c ≠ []) cs ∧
  (store_wf data →
     id <$> cs ≡ₚ data.*1 ∧
     ∃ cs', returned (loadContacts (FetchJson (Some data)) g') = Some cs' ∧
            Forall2 (same_record data) cs cs') ∧
  loadTaskContacts (FetchJson None) g = [] ∧
  loadTaskContacts FetchFails g = [].
Proof.
  intros cs. subst cs. unfold loadTaskContacts.
  change (prepareSortedContacts data g) with (processContacts data g).
  split_and!; [| | | |done|done].
  - apply processContacts_sorted.
  - rewrite processContacts_perm.
    pose proof (map_entries_built data g) as Hb.
    symmetry. by eapply Forall2_length.
  - apply processContacts_colors.
  - intros Hwf. split; [by apply processContacts_ids|].
    rewrite loadContacts_wf by done. cbn [returned].
    exists (processContacts data g'). split; [done|].
    unfold processContacts.
    eapply Forall2_impl.
    + apply (Array_sort_related
               (λ c c', ∃ entry, entry ∈ data ∧
                          built_from g entry c ∧ built_from g' entry c')).
      * intros a b (e & _ & (_ & -> & _) & (_ & -> & _)). done.
      * apply map_entries_related.
    + intros c c' ([key raw] & Hin & Hc & Hc').
      destruct Hc as (Hid & Hn & He & Hp & Hpw & Hcol).
      destruct Hc' as (Hid' & Hn' & He' & Hp' & Hpw' & Hcol').
      cbn [fst snd] in *.
      split_and!; [congruence..|].
      intros raw' Hget Hcolour.
      destruct Hwf as [Hnd Hids]. rewrite Forall_forall in Hids.
      assert (id c = key) as Hkey.
      { rewrite Hid. destruct (Hids _ Hin) as [Hnone|Hsome]; cbn [fst snd] in *.
        - by rewrite Hnone.
        - by rewrite Hsome. }
      rewrite Hkey, (get_elem_of data key raw Hnd Hin) in Hget.
      injection Hget as <-.
      unfold color_from in Hcol, Hcol'. rewrite Hcolour in Hcol, Hcol'.
      congruence.
Qed.

End TaskContacts.

(* ===================================================================== *)
(** * Part V. Concrete runs                                              *)
(* ===================================================================== *)

Lemma demo_store_wf : store_wf demo_store.
Proof. apply (bool_decide_unpack _). vm_compute. exact I. Qed.

(** The definitions run. *)

Example split_double_space :
  split SPACE (str "a  b") = [str "a"; []; str "b"].
Proof. reflexivity. Qed.

Example trim_spaces : trim (str "  Anna Bell ") = str "Anna Bell".
Proof. reflexivity. Qed.

Example validateEmail_examples :
  validateEmail (str "anna@join.de") = true ∧
  validateEmail (str "anna@join.museum") = true ∧
  validateEmail (str "anna@join.toolong") = false ∧
  validateEmail (str "anna@join") = false ∧
  validateEmail (str "anna@mail.join.de") = false ∧
  validateEmail (str "an na@join.de") = false.
Proof. vm_compute. by split_and!. Qed.

Example validatePhone_examples :
  validatePhone (str "0151") = true ∧ validatePhone (str "+49151") = false ∧
  validatePhone [] = false.
Proof. vm_compute. by split_and!. Qed.

Example contact_label_examples :
  contact_label 0 = str "contact1" ∧ contact_label 9 = str "contact10".
Proof. vm_compute. by split_and!. Qed.

Example generateRandomColor_demo :
  fst (generateRandomColor demo_rng) = str "#012345".
Proof. reflexivity. Qed.

Example processContacts_demo :
  (λ c, (id c, color c)) <$> @processContacts asciiHost demo_store demo_rng =
    [ (str "k1", str "#112233"); (str "k3", str "#6789AB");
      (str "k2", str "#012345") ].
Proof. vm_compute. reflexivity. Qed.

Example login_wrong_password :
  login (FetchJson (Some demo_root)) (str "anna@join.de") (str "pw2") =
    [ Fetch GET (BASE_URL ++ str ".json") None;
      ClassAdd (str "task-created-popup2") (str "show");
      SetTimeout [ClassRemove (str "task-created-popup2") (str "show")] 1500 ].
Proof. vm_compute. reflexivity. Qed.

Example updateCount_demo :
  updateCount demo_tasks zero_counters =
    {| ToDoCount := 1; doneCount := 1; urgencyCount := 1; taskCount := 3;
       progressCount := 0; feedbackCount := 0 |}.
Proof. vm_compute. reflexivity. Qed.

(** The theorems apply to the concrete inputs. *)

(** "Anna Bell" yields "AB" on a host with ASCII case mapping. *)
Lemma getInitials_spec_witness :
  @getInitials asciiHost (Some (str "Anna Bell")) = Ok (str "AB").
Proof.
  destruct (@getInitials_spec asciiHost) as (_ & _ & _ & Hok & _).
  destruct (Hok (str "Anna Bell")) as (out & -> & -> & _).
  - vm_compute. discriminate.
  - vm_compute. discriminate.
  - vm_compute. repeat constructor; discriminate.
  - vm_compute. reflexivity.
Defined.

(** A doubled space in "Anna  Bell" makes the call throw. *)
Example getInitials_double_space :
  @getInitials asciiHost (Some (str "Anna  Bell")) = Throws.
Proof. vm_compute. reflexivity. Qed.

Lemma login_spec_witness :
  signedUpContact (root_contacts demo_root) (str "anna@join.de") (str "pw1")
    = Some anna ∧
  ∃ earlier,
    login (FetchJson (Some demo_root)) (str "anna@join.de") (str "pw1") =
      earlier ++
        [SetTimeout
           [ ClassRemove (str "task-created-popup") (str "show");
             putData (str "currentUser")
                     (JObject [(str "name", JString (sc_name anna))]);
             SetLocation (str "summary.html") ] 1500].
Proof.
  split; [vm_compute; reflexivity|].
  pose proof (login_spec demo_root (str "anna@join.de") (str "pw1")) as Hspec.
  cbv zeta in Hspec. destruct Hspec as (_ & _ & Hfound & _).
  destruct (Hfound anna) as (_ & _ & Hrun); [vm_compute; reflexivity|].
  exact Hrun.
Defined.

Lemma saveNewContact_spec_witness :
  fst (validateContactFields (trim (contact_name_value demo_form))
         (trim (contact_email_value demo_form))
         (trim (contact_phone_value demo_form))) = true ∧
  ∃ color after,
    saveNewContact demo_form demo_rng PostFails =
      Fetch POST (BASE_URL ++ str "/contacts.json")
        (Some (JObject [ (str "name", JString (trim (contact_name_value demo_form)));
                         (str "email", JString (trim (contact_email_value demo_form)));
                         (str "phone", JString (trim (contact_phone_value demo_form)));
                         (str "color", JString color) ])) :: after.
Proof.
  split; [vm_compute; reflexivity|].
  pose proof (saveNewContact_spec demo_form demo_rng PostFails) as Hspec.
  cbv zeta in Hspec. destruct Hspec as (_ & _ & Hvalid & _).
  apply Hvalid. vm_compute. reflexivity.
Defined.

Lemma toggleSubtask_spec_witness :
  demo_tasks !! 0 = Some (demo_task (Some (str "To-Do")) (Some (str "urgent"))) ∧
  ∃ tasks' fx,
    toggleSubtask 0 (str "0") demo_tasks = Ok (tasks', fx) ∧
    ∃ fx', toggleSubtask 0 (str "0") tasks' = Ok (demo_tasks, fx').
Proof.
  split; [reflexivity|].
  destruct (toggleSubtask_spec demo_tasks 0 (str "0")
              (demo_task (Some (str "To-Do")) (Some (str "urgent")))
              {[ str "0" := {| st_name := str "Buy"; st_completed := false |} ]}
              {| st_name := str "Buy"; st_completed := false |})
    as (tasks' & fx & taskObj' & subs' & subtask' & Hrun & Hrest).
  - reflexivity.
  - reflexivity.
  - vm_compute. reflexivity.
  - exists tasks', fx. split; [exact Hrun|].
    repeat (destruct Hrest as [_ Hrest]). exact Hrest.
Defined.

Lemma loadContacts_colors_witness :
  store_wf demo_store ∧
  ∃ cs backfilled : list Contact,
    returned (@loadContacts asciiHost (FetchJson (Some demo_store)) demo_rng)
      = Some cs ∧
    requests (@loadContacts asciiHost (FetchJson (Some demo_store)) demo_rng) =
      Fetch GET
        (str "https://remotestorage-2a5f0-default-rtdb.europe-west1.firebasedatabase.app/"
         ++ str "contacts.json") None ::
      ((λ c, Fetch PATCH
               (str "https://remotestorage-2a5f0-default-rtdb.europe-west1.firebasedatabase.app/"
                ++ str "/contacts/" ++ id c ++ str ".json")
               (Some (JObject [(str "color", JString (color c))])))
         <$> backfilled) ∧
    (str "k2" ∈ id <$> backfilled ↔ truthy (sc_color bob) = false).
Proof.
  split; [apply (bool_decide_unpack _); vm_compute; exact I|].
  pose proof (@loadContacts_colors asciiHost (FetchJson (Some demo_store)) demo_rng)
    as Hspec.
  cbv zeta in Hspec. destruct Hspec as [_ Hwf].
  destruct (Hwf demo_store) as (cs & backfilled & Hret & _ & _ & Hreq & _ & _ & Hiff).
  - reflexivity.
  - apply (bool_decide_unpack _). vm_compute. exact I.
  - exists cs, backfilled. split; [exact Hret|]. split; [exact Hreq|].
    apply (Hiff (str "k2") bob). vm_compute. left.
Defined.

(** C5 as it is stated, for every collection, fails on a collection in
    which records carry the id of another record: the colour of a record
    that has one is written, to the record of another contact, and a
    record without colour is never written. *)
Lemma loadContacts_colors_counterexample :
  requests (@loadContacts asciiHost (FetchJson (Some foreign_store)) demo_rng) =
    [ Fetch GET
        (str "https://remotestorage-2a5f0-default-rtdb.europe-west1.firebasedatabase.app/"
         ++ str "contacts.json") None;
      Fetch PATCH
        (str "https://remotestorage-2a5f0-default-rtdb.europe-west1.firebasedatabase.app/"
         ++ str "/contacts/k2.json")
        (Some (JObject [(str "color", JString (str "#111111"))]));
      Fetch PATCH
        (str "https://remotestorage-2a5f0-default-rtdb.europe-west1.firebasedatabase.app/"
         ++ str "/contacts/k2.json")
        (Some (JObject [(str "color", JString (str "#012345"))])) ] ∧
  ¬ (∀ key raw,
       (key, raw) ∈ foreign_store →
       (truthy (sc_color raw) = false ↔
        ∃ color,
          Fetch PATCH
            (str "https://remotestorage-2a5f0-default-rtdb.europe-west1.firebasedatabase.app/"
             ++ str "/contacts/" ++ key ++ str ".json")
            (Some (JObject [(str "color", JString color)]))
          ∈ requests (@loadContacts asciiHost (FetchJson (Some foreign_store))
                        demo_rng))).
Proof.
  assert (requests (@loadContacts asciiHost (FetchJson (Some foreign_store))
                      demo_rng) =
    [ Fetch GET
        (str "https://remotestorage-2a5f0-default-rtdb.europe-west1.firebasedatabase.app/"
         ++ str "contacts.json") None;
      Fetch PATCH
        (str "https://remotestorage-2a5f0-default-rtdb.europe-west1.firebasedatabase.app/"
         ++ str "/contacts/k2.json")
        (Some (JObject [(str "color", JString (str "#111111"))]));
      Fetch PATCH
        (str "https://remotestorage-2a5f0-default-rtdb.europe-west1.firebasedatabase.app/"
         ++ str "/contacts/k2.json")
        (Some (JObject [(str "color", JString (str "#012345"))])) ]) as Hrun
    by (vm_compute; reflexivity).
  split; [exact Hrun|]. intros Hclaim.
  destruct (Hclaim (str "k3")
              {| sc_id := Some (str "k1"); sc_name := str "Cara Dean";
                 sc_email := str "cara@join.de"; sc_phone := None;
                 sc_password := None; sc_color := None |}) as [Hpatch _].
  { do 2 right. left. }
  destruct (Hpatch eq_refl) as [color Hin]. rewrite Hrun in Hin.
  repeat (apply elem_of_cons in Hin as [Hin|Hin]);
    [vm_compute in Hin; discriminate..|by apply elem_of_nil in Hin].
Qed.

Lemma loadContacts_sorted_grouped_witness :
  demo_store ≠ [] ∧ store_wf demo_store ∧
  ∃ (cs : list Contact) (nodes : list Node),
    returned (@loadContacts asciiHost (FetchJson (Some demo_store)) demo_rng)
      = Some cs ∧
    rendered (@loadContacts asciiHost (FetchJson (Some demo_store)) demo_rng)
      = Some nodes ∧
    StronglySorted (@name_order asciiHost) cs ∧
    contacts_of nodes = cs ∧
    NoDup (letters_of nodes).
Proof.
  split; [discriminate|].
  split; [apply (bool_decide_unpack _); vm_compute; exact I|].
  destruct (@loadContacts_sorted_grouped asciiHost asciiHost_laws demo_store demo_rng)
    as (cs & nodes & Hret & Hren & Hsorted & _ & Hcontacts & Hnd & _).
  - discriminate.
  - apply (bool_decide_unpack _). vm_compute. exact I.
  - by exists cs, nodes.
Defined.

(** C6 as it is stated, for every non-empty collection, fails on a
    collection with a record whose id is no key: looking up the raw
    record throws, and [loadContacts] returns the empty array and
    renders nothing. *)
Lemma loadContacts_sorted_grouped_counterexample :
  orphan_store ≠ [] ∧
  returned (@loadContacts asciiHost (FetchJson (Some orphan_store)) demo_rng)
    = Some [] ∧
  rendered (@loadContacts asciiHost (FetchJson (Some orphan_store)) demo_rng)
    = None ∧
  ¬ (∃ (cs : list Contact) (nodes : list Node),
       returned (@loadContacts asciiHost (FetchJson (Some orphan_store)) demo_rng)
         = Some cs ∧
       rendered (@loadContacts asciiHost (FetchJson (Some orphan_store)) demo_rng)
         = Some nodes ∧
       name <$> cs ≡ₚ (λ entry, sc_name entry.2) <$> orphan_store).
Proof.
  split; [discriminate|]. split; [vm_compute; reflexivity|].
  split; [vm_compute; reflexivity|].
  intros (cs & nodes & _ & Hren & _). vm_compute in Hren. discriminate.
Qed.

Lemma updateCount_spec_witness :
  taskCount (updateCount (demo_tasks ++ [demo_task (Some (str "Archive")) None])
                         zero_counters)
    = S (taskCount (updateCount demo_tasks zero_counters)) ∧
  ToDoCount (updateCount (demo_tasks ++ [demo_task (Some (str "Archive")) None])
                         zero_counters)
    = ToDoCount (updateCount demo_tasks zero_counters).
Proof.
  pose proof (updateCount_spec demo_tasks) as Hspec.
  cbv zeta in Hspec. destruct Hspec as (_ & _ & _ & _ & _ & _ & Hother).
  destruct (Hother (demo_task (Some (str "Archive")) None))
    as (Htotal & Htodo & _); try (vm_compute; discriminate).
  split; [exact Htotal|exact Htodo].
Defined.

Lemma getAssignedContacts_spec_witness :
  demo_selected ≠ [] ∧
  ∃ m : gmap (list N) Snapshot,
    getAssignedContacts demo_selected = AssignedObject m ∧
    m !! (str "contact" ++ str (pretty 2)) =
      Some {| snap_name := str "bob Ray"; snap_color := str "#012345" |}.
Proof.
  split; [discriminate|].
  destruct (getAssignedContacts_spec demo_selected) as [Hobj _].
  destruct Hobj as (m & Hm & _ & Hvalue); [discriminate|].
  exists m. split; [exact Hm|].
  apply (Hvalue 2 bob_loaded); [lia|reflexivity].
Defined.


(** ** Runs of the further properties *)

Lemma getContactFormValues_spec_witness :
  all_space (contact_name_value blank_name_form) ∧
  fv_name (getContactFormValues blank_name_form) = [] ∧
  fst (validateContactFields
         (fv_name (getContactFormValues blank_name_form))
         (fv_email (getContactFormValues blank_name_form))
         (fv_phone (getContactFormValues blank_name_form))) = false.
Proof.
  assert (all_space (contact_name_value blank_name_form)) as Hblank
    by (repeat constructor).
  split; [exact Hblank|].
  destruct (getContactFormValues_spec blank_name_form) as (_ & _ & _ & _ & Hv).
  exact (Hv Hblank).
Defined.

Lemma addContact_no_duplicates_witness :
  AddTask.is_selected demo_selected (id anna_loaded) = true ∧
  NoDup (id <$> demo_selected) ∧
  fst (AddTask.addContact (str "k1") anna_loaded demo_selected) = demo_selected ∧
  NoDup (id <$> fst (AddTask.addContact (str "k1") anna_loaded demo_selected)).
Proof.
  assert (AddTask.is_selected demo_selected (id anna_loaded) = true) as Hsel
    by reflexivity.
  assert (NoDup (id <$> demo_selected)) as Hnd
    by (apply (bool_decide_unpack _); vm_compute; exact I).
  destruct (addContact_no_duplicates (str "k1") anna_loaded demo_selected)
    as (_ & Hsame & _ & Hkeep).
  split; [exact Hsel|]. split; [exact Hnd|].
  split; [exact (Hsame Hsel)|exact (Hkeep Hnd)].
Defined.

Lemma removeContact_spec_witness :
  id anna_loaded = str "k1" ∧
  AddTask.is_selected [bob_loaded] (str "k1") = false ∧
  fst (AddTask.removeContact (str "k1") (str "k1")
         (fst (AddTask.addContact (str "k1") anna_loaded [bob_loaded])))
    = [bob_loaded].
Proof.
  destruct (removeContact_spec (str "k1") (str "k1") [bob_loaded] (str "k1"))
    as (_ & _ & _ & Hback).
  split; [reflexivity|]. split; [reflexivity|].
  apply (Hback anna_loaded); reflexivity.
Defined.

Lemma selection_invariant_witness :
(str "k9" ∉ id <$> demo_selected) ∧
  AddTask.handleContactSelection demo_selected (str "k9") true
    (after_clicks demo_selected [(str "k1", true); (str "k1", true)] [])
  = (after_clicks demo_selected [(str "k1", true); (str "k1", true)] [], []).
Proof.
  assert (str "k9" ∉ id <$> demo_selected) as Hnot
    by (apply (bool_decide_unpack _); vm_compute; exact I).
  split; [exact Hnot|].
  destruct (selection_invariant demo_selected
              [(str "k1", true); (str "k1", true)]) as (_ & _ & Hskip).
  exact (Hskip (str "k9") true Hnot).
Defined.

Lemma AddTask_addSubtask_spec_witness :
  trim (AddTask.input_value demo_editor) ≠ [] ∧
  length (AddTask.subtasks_array (fst (AddTask.addSubtask demo_editor))) = 2 ∧
  AddTask.input_value (fst (AddTask.addSubtask demo_editor)) = [].
Proof.
  assert (trim (AddTask.input_value demo_editor) ≠ []) as Hname
    by (vm_compute; discriminate).
  split; [exact Hname|].
  destruct (AddTask_addSubtask_spec demo_editor) as [_ Hadd].
  destruct (Hadd Hname) as (_ & Hlen & _ & Hinput & _).
  split; [exact Hlen|exact Hinput].
Defined.

Lemma AddTask_deleteSubtask_spec_witness :
  0 < length (AddTask.subtasks_array demo_editor) ∧
  S (length (AddTask.subtasks_array (fst (AddTask.deleteSubtask 0 demo_editor))))
    = length (AddTask.subtasks_array demo_editor).
Proof.
  assert (0 < length (AddTask.subtasks_array demo_editor)) as Hlt
    by (simpl; lia).
  split; [exact Hlt|].
  destruct (AddTask_deleteSubtask_spec demo_editor 0) as (_ & Hdel & _).
  destruct (Hdel Hlt) as [Hlen _]. exact Hlen.
Defined.

Lemma AddTask_saveSubtask_spec_witness :
  trim (str " Buy milk") ≠ [] ∧
  AddTask.subtasks_array demo_editor !! 0
    = Some {| st_name := str "Buy"; st_completed := false |} ∧
  ∃ ed' fx,
    AddTask.saveSubtask 0 (str " Buy milk") demo_editor = Ok (ed', fx) ∧
    AddTask.subtasks_array ed' !! 0
      = Some {| st_name := trim (str " Buy milk"); st_completed := false |} ∧
    AddTask.editingSubtaskIndex ed' = None.
Proof.
  assert (trim (str " Buy milk") ≠ []) as Hname by (vm_compute; discriminate).
  split; [exact Hname|]. split; [reflexivity|].
  destruct (AddTask_saveSubtask_spec demo_editor 0 (str " Buy milk"))
    as (_ & _ & Hsave).
  destruct (Hsave Hname {| st_name := str "Buy"; st_completed := false |}
              eq_refl) as (ed' & fx & Hrun & Hat & _ & _ & Hedit).
  exists ed', fx. split; [exact Hrun|]. split; [exact Hat|exact Hedit].
Defined.

Lemma toggleSubtask_progress_witness :
  subtasks_at demo_tasks 0 = Some demo_subtasks ∧
  demo_subtasks !! str "0" = Some {| st_name := str "Buy"; st_completed := false |} ∧
  ∃ tasks' fx subs',
    toggleSubtask 0 (str "0") demo_tasks = Ok (tasks', fx) ∧
    subtasks_at tasks' 0 = Some subs' ∧
    completed (calculateSubtaskProgress subs')
      = S (completed (calculateSubtaskProgress demo_subtasks)).
Proof.
  split; [reflexivity|]. split; [reflexivity|].
  destruct (toggleSubtask_progress demo_tasks 0 (str "0") demo_subtasks
              {| st_name := str "Buy"; st_completed := false |}
              eq_refl eq_refl)
    as (tasks' & fx & subs' & Hrun & Hat & _ & Hup & _).
  exists tasks', fx, subs'. split; [exact Hrun|]. split; [exact Hat|].
  exact (Hup eq_refl).
Defined.

Lemma Board_addSubtask_spec_witness :
  trim (Board.newSubtaskInput demo_board) ≠ [] ∧
  Board.tasks demo_board !! Board.currentTaskIndex demo_board
    = Some (demo_task (Some (str "To-Do")) (Some (str "urgent"))) ∧
  demo_subtasks !! str "subtask-0" = None ∧
  ∃ st' fx subs',
    Board.addSubtask demo_board = Ok (st', fx) ∧
    subtasks_at (Board.tasks st') 0 = Some subs' ∧
    subs' !! str "subtask-0"
      = Some {| st_name := str "Pack"; st_completed := false |} ∧
    Board.subtaskCounter st' = 1 ∧
    total (calculateSubtaskProgress subs')
      = S (total (calculateSubtaskProgress demo_subtasks)).
Proof.
  assert (trim (Board.newSubtaskInput demo_board) ≠ []) as Hname
    by (vm_compute; discriminate).
  assert (demo_subtasks !! str "subtask-0" = None) as Hfree
    by (vm_compute; reflexivity).
  split; [exact Hname|]. split; [reflexivity|]. split; [exact Hfree|].
  destruct (Board_addSubtask_spec demo_board) as (_ & _ & Hadd).
  destruct (Hadd Hname (demo_task (Some (str "To-Do")) (Some (str "urgent")))
              eq_refl)
    as (st' & fx & subs' & Hrun & Hat & Hstored & _ & Hcounter & _ & Hnew & _).
  exists st', fx, subs'. split; [exact Hrun|]. split; [exact Hat|].
  split; [exact Hstored|].
  split; [exact Hcounter|]. exact (proj1 (Hnew Hfree)).
Defined.

Lemma Board_deleteSubtask_spec_witness :
  subtasks_at (Board.tasks demo_board) (Board.currentTaskIndex demo_board)
    = Some demo_subtasks ∧
  demo_subtasks !! str "0" = Some {| st_name := str "Buy"; st_completed := false |} ∧
  ∃ st' fx,
    Board.deleteSubtask (str "0") demo_board = Ok (st', fx) ∧
    subtasks_at (Board.tasks st') 0 = Some (delete (str "0") demo_subtasks).
Proof.
  split; [reflexivity|]. split; [reflexivity|].
  destruct (Board_deleteSubtask_spec demo_board demo_subtasks (str "0") eq_refl)
    as [_ Hdel].
  destruct (Hdel {| st_name := str "Buy"; st_completed := false |} eq_refl)
    as (st' & fx & Hrun & Hat & _).
  exists st', fx. split; [exact Hrun|exact Hat].
Defined.

Lemma Board_add_then_delete_witness :
  Board.tasks demo_board !! Board.currentTaskIndex demo_board
    = Some (demo_task (Some (str "To-Do")) (Some (str "urgent"))) ∧
  trim (Board.newSubtaskInput demo_board) ≠ [] ∧
  demo_subtasks !! str "subtask-0" = None ∧
  ∃ st1 fx1 st2 fx2,
    Board.addSubtask demo_board = Ok (st1, fx1) ∧
    Board.deleteSubtask (str "subtask-0") st1 = Ok (st2, fx2) ∧
    Board.tasks st2 = demo_tasks.
Proof.
  assert (trim (Board.newSubtaskInput demo_board) ≠ []) as Hname
    by (vm_compute; discriminate).
  assert (demo_subtasks !! str "subtask-0" = None) as Hfree
    by (vm_compute; reflexivity).
  split; [reflexivity|]. split; [exact Hname|]. split; [exact Hfree|].
  destruct (Board_add_then_delete demo_board
              (demo_task (Some (str "To-Do")) (Some (str "urgent")))
              eq_refl Hname Hfree)
    as (st1 & fx1 & st2 & fx2 & Hadd & Hdel & _ & _ & _ & Hsame & _).
  exists st1, fx1, st2, fx2. split; [exact Hadd|]. split; [exact Hdel|].
  apply Hsame. by eexists.
Defined.

Lemma getCurrentSubtasks_spec_witness :
  [str " Buy "; str "  "; str "Pack"] !! 2 = Some (str "Pack") ∧
  Board.getCurrentSubtasks [str " Buy "; str "  "; str "Pack"] !! str (pretty 2)
    = (if bool_decide (trim (str "Pack") = []) then None
       else Some {| st_name := trim (str "Pack"); st_completed := false |}).
Proof.
  split; [reflexivity|].
  destruct (getCurrentSubtasks_spec [str " Buy "; str "  "; str "Pack"])
    as [Hat _].
  exact (Hat 2 (str "Pack") eq_refl).
Defined.

Lemma createUpdatedContact_spec_witness :
  NoDup (default [] (Some demo_existing)).*1 ∧
  get (EditContact.createUpdatedContact (str "k1") (Some demo_existing)
         (str "Anna Ball") (str "anna@join.de") (str "0152")) (str "id")
    = Some (JString (str "k1")) ∧
  get (EditContact.createUpdatedContact (str "k1") (Some demo_existing)
         (str "Anna Ball") (str "anna@join.de") (str "0152")) (str "password")
    = Some (JString (str "pw1")).
Proof.
  assert (NoDup (default [] (Some demo_existing)).*1) as Hnd
    by (apply (bool_decide_unpack _); vm_compute; exact I).
  split; [exact Hnd|].
  destruct (createUpdatedContact_spec (str "k1") (Some demo_existing)
              (str "Anna Ball") (str "anna@join.de") (str "0152") Hnd)
    as (_ & _ & _ & Hid & Hother & _).
  split; [exact Hid|].
  apply (Hother (str "password")).
  apply (bool_decide_unpack _). vm_compute. exact I.
Defined.

Lemma saveExistingContact_spec_witness :
  fst (validateContactFields
         (trim (str " Anna Ball "))
         (trim (str "anna@join.de"))
         (trim (str "0152"))) = true ∧
  Fetch PUT
    (str "https://remotestorage-2a5f0-default-rtdb.europe-west1.firebasedatabase.app/"
     ++ str "/contacts/" ++ str "k1" ++ str ".json")
    (Some (JObject
       (EditContact.createUpdatedContact (str "k1") (Some demo_existing)
          (trim (str " Anna Ball "))
          (trim (str "anna@join.de"))
          (trim (str "0152")))))
  ∈ @EditContact.saveExistingContact asciiHost (str "k1") demo_edit_form
      (EditContact.GetResponse true (Some (Some demo_existing)))
      (EditContact.PutResponse true) (FetchJson (Some demo_store)) demo_rng true ∧
  Fetch GET
    (str "https://remotestorage-2a5f0-default-rtdb.europe-west1.firebasedatabase.app/"
     ++ str "contacts.json") None
  ∈ @EditContact.saveExistingContact asciiHost (str "k1") demo_edit_form
      (EditContact.GetResponse true (Some (Some demo_existing)))
      (EditContact.PutResponse true) (FetchJson (Some demo_store)) demo_rng true.
Proof.
  assert (fst (validateContactFields
                 (trim (str " Anna Ball "))
                 (trim (str "anna@join.de"))
                 (trim (str "0152")))
          = true) as Hvalid by (vm_compute; reflexivity).
  split; [exact Hvalid|].
  destruct (@saveExistingContact_spec asciiHost (str "k1") demo_edit_form
              (EditContact.GetResponse true (Some (Some demo_existing)))
              (EditContact.PutResponse true) (FetchJson (Some demo_store))
              demo_rng true)
    as (_ & _ & Hput & Hreload & _).
  split.
  - apply Hput. split; [exact Hvalid|]. split; [reflexivity|].
    exists (Some demo_existing). split; reflexivity.
  - apply Hreload. split; [exact Hvalid|]. split; [|reflexivity].
    exists (Some demo_existing). reflexivity.
Defined.

Lemma Signup_email_spec_witness :
  validateEmail (str "cara@join.de") = true ∧
  all_in (λ c, Signup.local_char c || (c =? AT)%N) (str "cara@join.de") ∧
  test Signup.emailPattern (str "cara@join.de") = true.
Proof.
  assert (validateEmail (str "cara@join.de") = true) as Hcontact
    by (vm_compute; reflexivity).
  assert (all_in (λ c, Signup.local_char c || (c =? AT)%N) (str "cara@join.de"))
    as Hchars by (repeat constructor).
  split; [exact Hcontact|]. split; [exact Hchars|].
  destruct (Signup_email_spec (str "cara@join.de")) as [_ Hincl].
  exact (Hincl Hcontact Hchars).
Defined.

Lemma demo_signup_accepted : signup_accepted demo_signup.
Proof.
  split_and!; [|vm_compute; reflexivity|reflexivity].
  exists (str "cara"), (str "join"), (str "de").
  split_and!; try done; repeat constructor.
Defined.

Lemma Signup_onsubmit_spec_witness :
  signup_accepted demo_signup ∧
  Signup.onsubmit demo_signup true =
    [ Fetch POST
        (str "https://join-56225-default-rtdb.europe-west1.firebasedatabase.app/"
         ++ str "contacts.json")
        (Some (JObject
           [ (str "name", JString (Signup.name_value demo_signup));
             (str "email", JString (Signup.email_value demo_signup));
             (str "password", JString (trim (Signup.password_value demo_signup))) ]));
      SetLocation (str "index.html?") ].
Proof.
  split; [exact demo_signup_accepted|].
  destruct (Signup_onsubmit_spec demo_signup true) as (_ & Hrun & _).
  exact (Hrun demo_signup_accepted).
Defined.



Lemma Summary_counters_spec_witness :
  NoDup demo_task_store.*1 ∧
  ∃ k, Summary.onloadFunc_counters (Some demo_task_store) = Ok k ∧
       taskCount k = 2 ∧ column_sum k ≤ taskCount k.
Proof.
  assert (NoDup demo_task_store.*1) as Hnd
    by (apply (bool_decide_unpack _); vm_compute; exact I).
  split; [exact Hnd|].
  destruct (Summary_counters_spec demo_task_store Hnd)
    as (_ & tasks & k & _ & _ & Hrun & Hcount & Hsum & _).
  exists k. split; [exact Hrun|]. split; [exact Hcount|exact Hsum].
Defined.

Lemma handlePriorityClick_spec_witness :
  has_active_class (Priority.button demo_page Priority.task_low) = false ∧
  Priority.taskPriority
    (Priority.handlePriorityClick Priority.task_low demo_page) = str "low" ∧
  Priority.fill
    (Priority.button (Priority.handlePriorityClick Priority.task_low demo_page)
       Priority.task_low) = str "white" ∧
  Priority.taskPriority
    (Priority.handlePriorityClick Priority.task_low
       (Priority.handlePriorityClick Priority.task_low demo_page)) = [].
Proof.
  split; [reflexivity|].
  destruct (handlePriorityClick_spec demo_page Priority.task_low)
    as (Hon & _ & Htwice).
  split; [exact (proj1 (Hon eq_refl))|].
  split; [|exact (proj1 (Htwice eq_refl))].
  rewrite (proj2 (Hon eq_refl) Priority.task_low). reflexivity.
Defined.

Lemma formatDateToDDMMYYYY_spec_witness :
  (HYPHEN ∉ str "2025") ∧ (HYPHEN ∉ str "03") ∧ (HYPHEN ∉ str "09") ∧
  formatDateToDDMMYYYY (str "2025" ++ [HYPHEN] ++ str "03" ++ [HYPHEN] ++ str "09")
    = str "09" ++ [SLASH] ++ str "03" ++ [SLASH] ++ str "2025".
Proof.
  assert (HYPHEN ∉ str "2025") as Hy
    by (apply (bool_decide_unpack _); vm_compute; exact I).
  assert (HYPHEN ∉ str "03") as Hm
    by (apply (bool_decide_unpack _); vm_compute; exact I).
  assert (HYPHEN ∉ str "09") as Hd
    by (apply (bool_decide_unpack _); vm_compute; exact I).
  split; [exact Hy|]. split; [exact Hm|]. split; [exact Hd|].
  exact (proj1 (formatDateToDDMMYYYY_spec (str "2025") (str "03") (str "09")
                  Hy Hm Hd)).
Defined.

Lemma loadTaskContacts_spec_witness :
  store_wf demo_store ∧
  ∃ cs',
    returned (@loadContacts asciiHost (FetchJson (Some demo_store))
                {| draws := λ _, 7; pos := 0 |}) = Some cs' ∧
    Forall2 (same_record demo_store)
      (@loadTaskContacts asciiHost (FetchJson (Some demo_store)) demo_rng) cs'.
Proof.
  assert (store_wf demo_store) as Hwf
    by (apply (bool_decide_unpack _); vm_compute; exact I).
  split; [exact Hwf|].
  destruct (@loadTaskContacts_spec asciiHost asciiHost_laws demo_store demo_rng
              {| draws := λ _, 7; pos := 0 |})
    as (_ & _ & _ & Hsame & _).
  exact (proj2 (Hsame Hwf)).
Defined.
